(** * Lowest-order RWG degrees of freedom and sparse assembly (bempp-cl)

    A shallow embedding of

      - [bempp/api/space/rwg0_space.py]: the constructor of
        [Rwg0FunctionSpace], which walks the elements of the support and
        hands out one global degree of freedom (DOF) per interior edge
        (and, on request, per boundary edge);
      - [bempp/core/sparse_assembler.py]: [assemble_sparse] and
        [SparseAssembler.assemble], which run a device kernel over the
        common support of two spaces and scatter the per-element blocks
        into a sparse matrix.

    NumPy arrays are lists, fixed-width integer stores have their
    wrap-around written out, Python exceptions are values of [result],
    and the compute device is a log of the calls made to it. *)

From Stdlib Require Import String.
From stdpp Require Import base numbers list strings pretty gmap sorting.

Local Open Scope Z_scope.

(** ** Python exceptions *)

(** The errors of the device layer: the three subclasses of
    [pyopencl.Error]. *)
Inductive cl_error : Type :=
  | LogicError (msg : string)
  | RuntimeError (msg : string)
  | MemoryError (msg : string).

Inductive exn : Type :=
  | IndexError
  | ValueError (msg : string)
  | NotImplementedError
  | ClError (e : cl_error).

Inductive result (A : Type) : Type :=
  | Ok (a : A)
  | Raise (e : exn).
Arguments Ok {A} a.
Arguments Raise {A} e.

Global Instance result_ret : MRet result := fun _ a => Ok a.
Global Instance result_bind : MBind result := fun _ _ f m =>
  match m with
  | Ok a => f a
  | Raise e => Raise e
  end.

(** [for x in xs: acc = body(acc, x)], stopping at the first exception. *)
Fixpoint for_each {A B : Type} (body : A -> B -> result A) (xs : list B) (acc : A)
  : result A :=
  match xs with
  | [] => Ok acc
  | x :: xs' => acc' ← body acc x; for_each body xs' acc'
  end.

(** ** Indexing *)

(** [l[i]] for an index that is never negative. *)
Definition getitem {A : Type} (l : list A) (i : nat) : result A :=
  match l !! i with
  | Some x => Ok x
  | None => Raise IndexError
  end.

(** [l[i] = x]. *)
Definition setitem {A : Type} (l : list A) (i : nat) (x : A) : result (list A) :=
  if decide (i < length l)%nat then Ok (<[i := x]> l) else Raise IndexError.

(** [a[i, j]] on a two-dimensional array stored row by row. *)
Definition getitem2 {A : Type} (a : list (list A)) (i j : nat) : result A :=
  row ← getitem a i; getitem row j.

(** [a[i, j] = x]. *)
Definition setitem2 {A : Type} (a : list (list A)) (i j : nat) (x : A)
  : result (list (list A)) :=
  row ← getitem a i; row' ← setitem row j x; setitem a i row'.

(** [a[idx] = x] for an index array [idx]. *)
Definition setitems {A : Type} (a : list A) (idx : list nat) (x : A) : result (list A) :=
  for_each (fun a' i => setitem a' i x) idx a.

(** ** Fixed-width integers *)

Definition int32 (z : Z) : Z := (z + 2 ^ 31) `mod` 2 ^ 32 - 2 ^ 31.
Definition uint32 (z : Z) : Z := z `mod` 2 ^ 32.

(** ** NumPy helpers *)

Fixpoint flatnonzero_from (start : nat) (mask : list bool) : list nat :=
  match mask with
  | [] => []
  | b :: mask' =>
      if b then start :: flatnonzero_from (S start) mask'
      else flatnonzero_from (S start) mask'
  end.

(** [np.flatnonzero(mask)]: the positions of the true entries, ascending. *)
Definition flatnonzero (mask : list bool) : list nat := flatnonzero_from 0 mask.

(** [np.count_nonzero(mask)]. *)
Definition count_nonzero (mask : list bool) : nat := length (filter (fun b => b = true) mask).

(** [a * b] for two one-dimensional boolean arrays: the elementwise
    conjunction of two arrays of one length; an array of a single entry
    is broadcast over the other one; any other two lengths raise
    [ValueError]. *)
Definition broadcast_message (n m : nat) : string :=
  "operands could not be broadcast together with shapes (" +:+ pretty n +:+
  ",) (" +:+ pretty m +:+ ",) ".

Definition np_multiply (a b : list bool) : result (list bool) :=
  if decide (length a = length b) then Ok (zip_with andb a b)
  else
    match a, b with
    | [x], _ => Ok (andb x <$> b)
    | _, [y] => Ok ((fun x => andb x y) <$> a)
    | _, _ => Raise (ValueError (broadcast_message (length a) (length b)))
    end.

(** [min(l)] / [np.min(l)]; both raise [ValueError] on an empty argument. *)
Definition py_min (l : list nat) : result nat :=
  match l with
  | [] => Raise (ValueError "min() arg is an empty sequence")
  | x :: l' => Ok (foldl Nat.min x l')
  end.

(** [np.arange(n)], [np.repeat(a, k)], [np.tile(a, k)] and the elementwise
    sum of two arrays of one length. *)
Definition arange (n : nat) : list Z := Z.of_nat <$> seq 0 n.
Definition np_repeat {A : Type} (a : list A) (k : nat) : list A :=
  x ← a; replicate k x.
Definition np_tile {A : Type} (a : list A) (k : nat) : list A :=
  mjoin (replicate k a).
Definition np_add (a b : list Z) : list Z := zip_with Z.add a b.

(** ** The grid

    The grid class is not part of the two modules; what they read of it is
    kept as a record.  [element_edges] has shape (3, number_of_elements):
    [element_edges[i, e]] is the edge at local slot [i] of element [e].
    [edge_neighbors[k]] lists the elements adjacent to edge [k].  Grids are
    compared by object identity, which [grid_id] stands for. *)

Record Grid : Type := {
  grid_id : nat;
  number_of_elements : nat;
  number_of_edges : nat;
  element_edges : list (list nat);
  edge_neighbors : list (list nat)
}.

(** Modelled from the spec: the grid class is absent; the precondition of
    the assembler speaks of the identical grid instance, so [!=] on grids
    is inequality of instances. *)
Definition grid_ne (g1 g2 : Grid) : bool := negb (Nat.eqb (grid_id g1) (grid_id g2)).

(** ** The space produced by the constructor

    [LocalisedSpace] keeps the constructor arguments of
    [LocalisedFunctionSpace] that the assembler reads back; [Space] keeps
    the arguments of [_SpaceData]. *)

Record LocalisedSpace : Type := {
  ls_grid : Grid;
  ls_codomain_dimension : nat;
  ls_order : nat;
  ls_shapeset : string;
  ls_number_of_shape_functions : nat;
  ls_identifier : string;
  ls_support : list bool;
  ls_normal_multipliers : list Z
}.

Record Space : Type := {
  grid : Grid;
  codomain_dimension : nat;
  global_dof_count : Z;
  order : nat;
  shapeset : string;
  local2global : list (list Z);
  local_multipliers : list (list Z);
  identifier : string;
  support : list bool;
  localised_space : LocalisedSpace;
  normal_multipliers : list Z
}.

(** ** [Rwg0FunctionSpace.__init__] *)

Module Rwg0.

(** The arrays and the counter that the constructor updates in its loop. *)
Record locals : Type := {
  local2global_map : list (list Z);   (* uint32, (number_of_elements, 3) *)
  local_multipliers : list (list Z);  (* float64 holding 0, 1 or -1 *)
  edge_dofs : list Z;                 (* int32, -1 while unallocated *)
  delete_from_support : list nat;
  count : Z
}.

Definition initial (grid : Grid) : locals := {|
  local2global_map := replicate (number_of_elements grid) [0; 0; 0];
  local_multipliers := replicate (number_of_elements grid) [0; 0; 0];
  edge_dofs := replicate (number_of_edges grid) (int32 (-1));
  delete_from_support := [];
  count := 0
|}.

(** Lines 50-60: the element across the edge, or -1 when the edge has a
    single neighbour or the neighbour lies outside the support. *)
Definition find_other (support : list bool) (element_index : nat)
    (neighbors : list nat) : result Z :=
  if decide (length neighbors = 1%nat) then Ok (-1)
  else
    n0 ← getitem neighbors 0;
    other ← (if decide (element_index = n0) then getitem neighbors 1 else Ok n0);
    inside ← getitem support other;
    Ok (match inside with true => Z.of_nat other | false => -1 end).

(** Lines 47-60: edge, neighbours and [other] of one local slot.  Nothing
    here depends on the loop state. *)
Definition slot_topology (grid : Grid) (support : list bool)
    (element_index local_index : nat) : result (nat * list nat * Z) :=
  edge_index ← getitem2 (element_edges grid) local_index element_index;
  neighbors ← getitem (edge_neighbors grid) edge_index;
  other ← find_other support element_index neighbors;
  Ok (edge_index, neighbors, other).

(** Lines 46-78: the body of [for local_index in range(3)]. *)
Definition assign_slot (grid : Grid) (support : list bool)
    (include_boundary_dofs : bool) (element_index : nat)
    (acc : locals * list Z) (local_index : nat) : result (locals * list Z) :=
  let '(st, dofmap) := acc in
  '(edge_index, neighbors, other) ← slot_topology grid support element_index local_index;
  if decide (other = -1) then
    if negb include_boundary_dofs then
      lm ← setitem2 (local_multipliers st) element_index local_index 0;
      Ok ({| local2global_map := local2global_map st;
             local_multipliers := lm;
             edge_dofs := edge_dofs st;
             delete_from_support := delete_from_support st;
             count := count st |}, dofmap)
    else
      lm ← setitem2 (local_multipliers st) element_index local_index 1;
      dofmap' ← setitem dofmap local_index (int32 (count st));
      Ok ({| local2global_map := local2global_map st;
             local_multipliers := lm;
             edge_dofs := edge_dofs st;
             delete_from_support := delete_from_support st;
             count := count st + 1 |}, dofmap')
  else
    lowest ← py_min neighbors;
    lm ← setitem2 (local_multipliers st) element_index local_index
           (if decide (element_index = lowest) then 1 else -1);
    dof ← getitem (edge_dofs st) edge_index;
    '(ed, c) ← (if decide (dof = -1)
                then ed ← setitem (edge_dofs st) edge_index (int32 (count st));
                     Ok (ed, count st + 1)
                else Ok (edge_dofs st, count st));
    dof' ← getitem ed edge_index;
    dofmap' ← setitem dofmap local_index dof';
    Ok ({| local2global_map := local2global_map st;
           local_multipliers := lm;
           edge_dofs := ed;
           delete_from_support := delete_from_support st;
           count := c |}, dofmap').

(** Lines 80-96: drop an element without DOF, otherwise alias its
    zero-multiplier slots to the first slot that has one. *)
Definition finish_element (st : locals) (dofmap : list Z) (element_index : nat)
  : result locals :=
  if forallb (fun d => Z.eqb d (-1)) dofmap then
    row ← getitem (local_multipliers st) element_index;
    lm ← setitem (local_multipliers st) element_index (replicate (length row) 0);
    row' ← getitem (local2global_map st) element_index;
    l2g ← setitem (local2global_map st) element_index (replicate (length row') 0);
    Ok {| local2global_map := l2g;
          local_multipliers := lm;
          edge_dofs := edge_dofs st;
          delete_from_support := delete_from_support st ++ [element_index];
          count := count st |}
  else
    row ← getitem (local_multipliers st) element_index;
    let arg_zeros := flatnonzero ((fun m => Z.eqb m 0) <$> row) in
    first_nonzero ← py_min (flatnonzero ((fun m => negb (Z.eqb m 0)) <$> row));
    dof ← getitem dofmap first_nonzero;
    dofmap' ← setitems dofmap arg_zeros dof;
    l2g ← setitem (local2global_map st) element_index (uint32 <$> dofmap');
    Ok {| local2global_map := l2g;
          local_multipliers := local_multipliers st;
          edge_dofs := edge_dofs st;
          delete_from_support := delete_from_support st;
          count := count st |}.

(** Lines 44-96: the body of [for element_index in elements_in_support]. *)
Definition assign_element (grid : Grid) (support : list bool)
    (include_boundary_dofs : bool) (st : locals) (element_index : nat)
  : result locals :=
  let dofmap := replicate 3 (int32 (-1)) in
  '(st', dofmap') ← for_each (assign_slot grid support include_boundary_dofs element_index)
                       (seq 0 3) (st, dofmap);
  finish_element st' dofmap' element_index.

(** Lines 34-98: the whole loop over the support. *)
Definition assign_dofs (grid : Grid) (support : list bool)
    (include_boundary_dofs : bool) : result locals :=
  for_each (assign_element grid support include_boundary_dofs)
    (flatnonzero support) (initial grid).

(** Lines 100-101.  [support] is one array, updated in place and then
    handed to both the localised space and the space data. *)
Definition remove_deleted (support : list bool) (deleted : list nat) : result (list bool) :=
  for_each (fun s index => setitem s index false) deleted support.

(** The constructor.  [support] and [normal_mult] are what
    [_process_segments] returned for the caller's arguments. *)
Definition init (grid : Grid) (support : list bool) (normal_mult : list Z)
    (include_boundary_dofs : bool) : result Space :=
  st ← assign_dofs grid support include_boundary_dofs;
  let global_dof_count := count st in
  support' ← remove_deleted support (delete_from_support st);
  let support_size := count_nonzero support' in
  if decide (support_size = 0%nat) then
    Raise (ValueError "The support of the function space is empty.")
  else
    let localised_space :=
      Build_LocalisedSpace grid 3 0 "rwg0" 3 "rwg0" support' normal_mult in
    Ok (Build_Space grid 3 global_dof_count 0 "rwg0"
          (local2global_map st) (local_multipliers st) "rwg0"
          support' localised_space normal_mult).

(** [numba_surface_gradient] (a property) and [surface_gradient]. *)
Definition numba_surface_gradient {A : Type} (self : Space) : result A :=
  Raise NotImplementedError.

Definition surface_gradient {A E C : Type} (self : Space) (element : E)
    (local_coordinates : C) : result A :=
  Raise NotImplementedError.

End Rwg0.

(** ** The compute device

    Modelled from the spec: the device layer ([cl_helpers], pyopencl) is
    not among the sources.  A computation on the device is a function
    from the device and the log of the calls carried out so far to a
    result and the extended log.  The device may refuse any call, with
    one of its errors: what it does is not determined by the program, so
    it is an oracle, a function of the calls carried out so far and the
    call at hand.  "Any failure is fatal": a refused call aborts the
    computation and leaves the log at the calls that succeeded.  A buffer
    without a single entry cannot be created on any device: OpenCL
    refuses it (INVALID_BUFFER_SIZE), which pyopencl raises as
    [LogicError]. *)

Inductive option_value : Type :=
  | OptNat (n : nat)
  | OptString (s : string).

Inductive device_call : Type :=
  | BufferFromArray (array : string) (size : nat)
  | PushGrid
  | BufferAlloc (size : nat)
  | KernelBuild (identifier : string) (options : gmap string option_value)
  | KernelRun (first last : nat)
  | HostCopy.

Definition Device : Type := list device_call -> device_call -> option cl_error.

Definition Dev (A : Type) : Type :=
  Device -> list device_call -> result A * list device_call.

Definition dev_ret {A : Type} (a : A) : Dev A := fun _ log => (Ok a, log).

Definition dev_bind {A B : Type} (m : Dev A) (f : A -> Dev B) : Dev B :=
  fun device log =>
    match m device log with
    | (Ok a, log') => f a device log'
    | (Raise e, log') => (Raise e, log')
    end.

Definition call (c : device_call) : Dev unit :=
  fun device log =>
    match device log c with
    | None => (Ok tt, log ++ [c])
    | Some e => (Raise (ClError e), log)
    end.
Definition dev_raise {A : Type} (e : exn) : Dev A := fun _ log => (Raise e, log).
Definition lift {A : Type} (r : result A) : Dev A := fun _ log => (r, log).

Definition invalid_buffer_size : exn :=
  ClError (LogicError "clCreateBuffer failed: INVALID_BUFFER_SIZE").

(** The exceptions that come from the device. *)
Definition device_error (e : exn) : Prop := ∃ c, e = ClError c.

(** A device that carries out every call it is given, and the one used
    in the examples. *)
Definition accepts_every_call (device : Device) : Prop :=
  ∀ log c, device log c = None.

Definition ready_device : Device := fun _ _ => None.

(** [DeviceBuffer.from_array(array, ...)] and [DeviceBuffer((size,), ...)]. *)
Definition from_array (array : string) (size : nat) : Dev unit :=
  if decide (size = 0%nat) then dev_raise invalid_buffer_size
  else call (BufferFromArray array size).

Definition device_buffer (size : nat) : Dev unit :=
  if decide (size = 0%nat) then dev_raise invalid_buffer_size
  else call (BufferAlloc size).

Notation "x ⇐ m ;;; k" := (dev_bind m (fun x => k))
  (at level 20, m at level 99, k at level 200, only parsing).
Notation "' x ⇐ m ;;; k" := (dev_bind m (fun x => k))
  (at level 20, x pattern, m at level 99, k at level 200, only parsing).
Notation "m ;;; k" := (dev_bind m (fun _ => k))
  (at level 100, k at level 200, only parsing).

(** ** Sparse matrices

    Modelled from the spec: scipy is not among the sources.
    [coo_matrix((data, (rows, cols)), shape)] keeps the triplets as given
    and refuses indices outside the shape.  [tocsr] builds the compressed
    structure "by accumulating (summing) any duplicate (global row,
    global col) pairs": it brings the triplets into row-major order of
    their positions and replaces every run of triplets of one position by
    a single triplet holding their sum.  scipy orders the entries of a
    row with a sort that is not stable, so the order in which the values
    of one position are added up is not fixed: the ordering is a
    parameter, [sort_indices], of which [csr_order] says all that is
    known.  [matrix_entry] reads one entry of a matrix. *)

Record SparseMatrix (T : Type) : Type := {
  shape : Z * Z;
  triplets : list (Z * Z * T)
}.
Arguments shape {T} _.
Arguments triplets {T} _.

Definition coo_matrix {T : Type} (data : list T) (rows cols : list Z) (shp : Z * Z)
  : result (SparseMatrix T) :=
  if forallb (fun r => Z.leb 0 r && Z.ltb r (fst shp)) rows then
    if forallb (fun c => Z.leb 0 c && Z.ltb c (snd shp)) cols then
      Ok {| shape := shp; triplets := zip (zip rows cols) data |}
    else Raise (ValueError "column index exceeds matrix dimensions")
  else Raise (ValueError "row index exceeds matrix dimensions").

(** Row-major order of positions. *)
Definition position_le (p q : Z * Z) : Prop :=
  p.1 < q.1 ∨ (p.1 = q.1 ∧ p.2 ≤ q.2).

Definition csr_order {T : Type} (sort_indices : list (Z * Z * T) -> list (Z * Z * T))
  : Prop :=
  ∀ l, sort_indices l ≡ₚ l ∧
       Sorted (fun t1 t2 => position_le t1.1 t2.1) (sort_indices l).

(** One run of [sum_duplicates]: [x] is the sum so far of the values at
    position [pos]. *)
Fixpoint merge_run {T : Type} (Tadd : T -> T -> T) (pos : Z * Z) (x : T)
    (l : list (Z * Z * T)) : list (Z * Z * T) :=
  match l with
  | [] => [(pos, x)]
  | (p, v) :: l' =>
      if decide (p = pos) then merge_run Tadd pos (Tadd x v) l'
      else (pos, x) :: merge_run Tadd p v l'
  end.

Definition sum_duplicates {T : Type} (Tadd : T -> T -> T) (l : list (Z * Z * T))
  : list (Z * Z * T) :=
  match l with
  | [] => []
  | (p, v) :: l' => merge_run Tadd p v l'
  end.

Definition tocsr {T : Type} (Tadd : T -> T -> T)
    (sort_indices : list (Z * Z * T) -> list (Z * Z * T)) (m : SparseMatrix T)
  : SparseMatrix T :=
  {| shape := shape m;
     triplets := sum_duplicates Tadd (sort_indices (triplets m)) |}.

(** An order that [csr_order] admits, for the examples: the stable merge
    sort by position. *)
Global Instance position_le_dec (p q : Z * Z) : Decision (position_le p q) :=
  decide (p.1 < q.1 ∨ (p.1 = q.1 ∧ p.2 ≤ q.2)).

Definition sort_by_position {T : Type} (l : list (Z * Z * T)) : list (Z * Z * T) :=
  merge_sort (fun t1 t2 => position_le t1.1 t2.1) l.

Definition matrix_entry {T : Type} (Tzero : T) (Tadd : T -> T -> T)
    (m : SparseMatrix T) (r c : Z) : T :=
  foldr Tadd Tzero
    (snd <$> filter (fun t => fst (fst t) = r ∧ snd (fst t) = c) (triplets m)).

(** ** [sparse_assembler.py] *)

(** [a[z]] for a signed index: negative indices count from the end. *)
Definition py_index {A : Type} (a : list A) (z : Z) : result A :=
  if decide (0 ≤ z) then getitem a (Z.to_nat z)
  else if decide (- Z.of_nat (length a) ≤ z) then getitem a (Z.to_nat (Z.of_nat (length a) + z))
  else Raise IndexError.

(** [a[idx]] for an index array. *)
Fixpoint take_at {A : Type} (a : list A) (idx : list Z) : result (list A) :=
  match idx with
  | [] => Ok []
  | z :: idx' => x ← py_index a z; xs ← take_at a idx'; Ok (x :: xs)
  end.

(** [a.ravel()] of a two-dimensional array. *)
Definition ravel {A : Type} (a : list (list A)) : list A := mjoin a.

Record Parameters : Type := {
  quadrature_regular : nat;
  assembly_always_promote_to_double : bool
}.

(** [options] is a dict: setting a key that is there replaces its value. *)
Record OperatorDescriptor : Type := {
  od_identifier : string;
  od_options : gmap string option_value
}.

(** [np.flatnonzero(domain.support * dual_to_range.support).astype("uint32")]. *)
Definition active_elements (domain dual_to_range : LocalisedSpace) : result (list Z) :=
  mask ← np_multiply (ls_support domain) (ls_support dual_to_range);
  Ok ((fun e => uint32 (Z.of_nat e)) <$> flatnonzero mask).

(** Lines 122-137: the row and column index of every entry of the result
    buffer.  [elements * n] is a product of uint32 values; the two operands
    of each sum have one length, number_of_elements x test x trial. *)
Definition index_arrays (elements : list Z)
    (number_of_test_shape_functions number_of_trial_shape_functions : nat)
  : list Z * list Z :=
  let number_of_elements := length elements in
  let irange := arange number_of_test_shape_functions in
  let jrange := arange number_of_trial_shape_functions in
  let i_ind :=
    np_add
      (np_tile (np_repeat irange number_of_trial_shape_functions) number_of_elements)
      (np_repeat ((fun e => uint32 (e * Z.of_nat number_of_test_shape_functions)) <$> elements)
         (number_of_test_shape_functions * number_of_trial_shape_functions)) in
  let j_ind :=
    np_add
      (np_tile (np_tile jrange number_of_test_shape_functions) number_of_elements)
      (np_repeat ((fun e => uint32 (e * Z.of_nat number_of_trial_shape_functions)) <$> elements)
         (number_of_test_shape_functions * number_of_trial_shape_functions)) in
  (i_ind, j_ind).

(** [_prepare_buffers]; returns the size of the result buffer.  The
    quadrature points are a 2 x [number_of_quad_points] array, the weights
    an array of [number_of_quad_points] entries. *)
Definition _prepare_buffers (domain dual_to_range : LocalisedSpace)
    (number_of_quad_points : nat) : Dev nat :=
  from_array "quad_points" (2 * number_of_quad_points) ;;;
  from_array "quad_weights" number_of_quad_points ;;;
  call PushGrid ;;;
  elements ⇐ lift (active_elements domain dual_to_range) ;;;
  from_array "elements" (length elements) ;;;
  let number_of_elements := length elements in
  let result_buffer_size :=
    (number_of_elements *
     (ls_number_of_shape_functions domain *
      ls_number_of_shape_functions dual_to_range))%nat in
  device_buffer result_buffer_size ;;;
  from_array "test_normal_signs" (length (ls_normal_multipliers dual_to_range)) ;;;
  from_array "trial_normal_signs" (length (ls_normal_multipliers domain)) ;;;
  dev_ret result_buffer_size.

Section assembler.
Context {T : Type}.

(** The number of points of the regular quadrature rule of an order. *)
Variable regular_rule : nat -> nat.

(** What the compiled kernel computes for one element, test slot and
    trial slot. *)
Variable kernel : nat -> nat -> nat -> T.

(** [value * multiplier] for a multiplier 0, 1 or -1, and the sum of two
    values. *)
Variable Tscale : T -> Z -> T.
Variable Tadd : T -> T -> T.

(** The order in which [tocsr] arranges the triplets. *)
Variable sort_indices : list (Z * Z * T) -> list (Z * Z * T).

(** Modelled from the spec: the kernels and [run_chunked_kernel] are
    absent.  The kernel writes, for the active element at each position,
    its test-slot x trial-slot block, row-major, into that element's own
    region of the result buffer; [get_host_copy] then returns the buffer. *)
Definition kernel_output (elements : list Z) (ntest ntrial : nat) : list T :=
  e ← elements; i ← seq 0 ntest; j ← seq 0 ntrial; [kernel (Z.to_nat e) i j].

Definition assemble_sparse (domain dual_to_range : LocalisedSpace)
    (parameters : Parameters) (operator_descriptor : OperatorDescriptor)
  : Dev (list Z * list Z * list T) :=
  if grid_ne (ls_grid domain) (ls_grid dual_to_range) then
    dev_raise (ValueError "domain and dual_to_range must be defined on the same grid.")
  else
    let identifier := od_identifier operator_descriptor in
    let options := od_options operator_descriptor in
    let order := quadrature_regular parameters in
    let number_of_quad_points := regular_rule order in
    buffers ⇐ _prepare_buffers domain dual_to_range number_of_quad_points ;;;
    let number_of_test_shape_functions := ls_number_of_shape_functions dual_to_range in
    let number_of_trial_shape_functions := ls_number_of_shape_functions domain in
    let options := <["NUMBER_OF_QUAD_POINTS"%string := OptNat number_of_quad_points]> options in
    let options := <["TEST"%string := OptString (ls_shapeset dual_to_range)]> options in
    let options := <["TRIAL"%string := OptString (ls_shapeset domain)]> options in
    let options :=
      <["NUMBER_OF_TEST_SHAPE_FUNCTIONS"%string :=
          OptNat number_of_test_shape_functions]> options in
    let options :=
      <["NUMBER_OF_TRIAL_SHAPE_FUNCTIONS"%string :=
          OptNat number_of_trial_shape_functions]> options in
    call (KernelBuild (identifier +:+ "_novec") options) ;;;
    call (KernelBuild (identifier +:+ "_novec") options) ;;;
    elements ⇐ lift (active_elements domain dual_to_range) ;;;
    let number_of_elements := length elements in
    call (KernelRun 0 number_of_elements) ;;;
    call HostCopy ;;;
    let result :=
      kernel_output elements number_of_test_shape_functions
        number_of_trial_shape_functions in
    let '(i_ind, j_ind) :=
      index_arrays elements number_of_test_shape_functions
        number_of_trial_shape_functions in
    dev_ret (i_ind, j_ind, result).

(** Widening to double precision keeps every value. *)
Definition promote_to_double_precision (data : list T) : list T := data.

(** [SparseAssembler.assemble] *)
Definition assemble (domain dual_to_range : Space) (parameters : Parameters)
    (operator_descriptor : OperatorDescriptor) : Dev (SparseMatrix T) :=
  let trial_local2global := ravel (local2global domain) in
  let test_local2global := ravel (local2global dual_to_range) in
  let trial_multipliers := ravel (local_multipliers domain) in
  let test_multipliers := ravel (local_multipliers dual_to_range) in
  '(rows, cols, data) ⇐
     assemble_sparse (localised_space domain) (localised_space dual_to_range)
       parameters operator_descriptor ;;;
  new_rows ⇐ lift (take_at test_local2global rows) ;;;
  new_cols ⇐ lift (take_at trial_local2global cols) ;;;
  trial_m ⇐ lift (take_at trial_multipliers cols) ;;;
  test_m ⇐ lift (take_at test_multipliers rows) ;;;
  let new_data := zip_with Tscale (zip_with Tscale data trial_m) test_m in
  let new_data :=
    if assembly_always_promote_to_double parameters
    then promote_to_double_precision new_data else new_data in
  let nrows := global_dof_count dual_to_range in
  let ncols := global_dof_count domain in
  m ⇐ lift (coo_matrix new_data new_rows new_cols (nrows, ncols)) ;;;
  dev_ret (tocsr Tadd sort_indices m).

End assembler.

(** [a[e][i]] of a two-dimensional array, when there is such an entry. *)
Definition entry2 {A : Type} (a : list (list A)) (e i : nat) : option A :=
  a !! e ≫= (.!! i).

(** The elements that lie in both supports, ascending: those at which
    both masks hold [true]. *)
Definition common_elements (support1 support2 : list bool) : list nat :=
  filter (fun e => support1 !! e = Some true ∧ support2 !! e = Some true)
    (seq 0 (length support1)).

(** The sum of the specification, term by term: over the elements that
    lie in both supports and the test and trial slots of each, the local
    contributions whose test slot maps to global row [r] and whose trial
    slot maps to global column [c], each scaled by the trial and the test
    multiplier of its slot. *)
Definition local_contributions {T : Type} (kernel : nat -> nat -> nat -> T)
    (Tscale : T -> Z -> T) (domain dual_to_range : Space) (r c : Z) : list T :=
  e ← common_elements (support domain) (support dual_to_range);
  i ← seq 0 (ls_number_of_shape_functions (localised_space dual_to_range));
  j ← seq 0 (ls_number_of_shape_functions (localised_space domain));
  match entry2 (local2global dual_to_range) e i,
        entry2 (local2global domain) e j,
        entry2 (local_multipliers dual_to_range) e i,
        entry2 (local_multipliers domain) e j with
  | Some r', Some c', Some m_test, Some m_trial =>
      if decide (r' = r ∧ c' = c)
      then [Tscale (Tscale (kernel e i j) m_trial) m_test]
      else []
  | _, _, _, _ => []
  end.

(** What the device needs besides a common element: a quadrature rule
    with a point, shape functions, and orientation signs. *)
Definition buffers_nonempty (number_of_quad_points : nat)
    (domain dual_to_range : LocalisedSpace) : Prop :=
  number_of_quad_points ≠ 0%nat ∧
  ls_number_of_shape_functions domain ≠ 0%nat ∧
  ls_number_of_shape_functions dual_to_range ≠ 0%nat ∧
  ls_normal_multipliers dual_to_range ≠ [] ∧
  ls_normal_multipliers domain ≠ [].

(** A space as the assembler expects it: the localised space shares grid
    and support, the maps have one row per element and one entry per shape
    function, the global ids of the elements of the support are below the
    DOF count, and every flat index fits uint32. *)
Definition wf_space (sp : Space) : Prop :=
  ls_grid (localised_space sp) = grid sp ∧
  ls_support (localised_space sp) = support sp ∧
  length (support sp) = number_of_elements (grid sp) ∧
  length (local2global sp) = number_of_elements (grid sp) ∧
  Forall (fun row => length row = ls_number_of_shape_functions (localised_space sp))
    (local2global sp) ∧
  length (local_multipliers sp) = number_of_elements (grid sp) ∧
  Forall (fun row => length row = ls_number_of_shape_functions (localised_space sp))
    (local_multipliers sp) ∧
  Forall2 (fun (b : bool) row =>
             b = true → Forall (fun v => 0 ≤ v < global_dof_count sp) row)
    (support sp) (local2global sp) ∧
  Z.of_nat (number_of_elements (grid sp)) *
    Z.of_nat (ls_number_of_shape_functions (localised_space sp)) < 2 ^ 32.

(** The layout of the index arrays as the specification words it: the
    block of the active element at position [p] is offset by [p] times
    the slot count. *)
Definition offsets_by_position (rows cols : list Z) (nactive ntest ntrial : nat) : Prop :=
  ∀ p i j, (p < nactive)%nat → (i < ntest)%nat → (j < ntrial)%nat →
    rows !! (p * (ntest * ntrial) + (i * ntrial + j))%nat
      = Some (Z.of_nat i + Z.of_nat p * Z.of_nat ntest) ∧
    cols !! (p * (ntest * ntrial) + (i * ntrial + j))%nat
      = Some (Z.of_nat j + Z.of_nat p * Z.of_nat ntrial).

(** What a test reads off a constructed space: the DOF count, the
    multipliers and the local-to-global map. *)
Definition dof_summary (r : result Space) : option (Z * list (list Z) * list (list Z)) :=
  match r with
  | Ok sp => Some (global_dof_count sp, local_multipliers sp, local2global sp)
  | Raise _ => None
  end.

(** ** Example grids *)

(** One triangle, three boundary edges. *)
Definition single_triangle : Grid := {|
  grid_id := 1;
  number_of_elements := 1;
  number_of_edges := 3;
  element_edges := [[0%nat]; [1%nat]; [2%nat]];
  edge_neighbors := [[0%nat]; [0%nat]; [0%nat]]
|}.

(** Two triangles sharing edge 0. *)
Definition two_triangles : Grid := {|
  grid_id := 2;
  number_of_elements := 2;
  number_of_edges := 5;
  element_edges := [[0%nat; 0%nat]; [1%nat; 3%nat]; [2%nat; 4%nat]];
  edge_neighbors := [[0%nat; 1%nat]; [0%nat]; [0%nat]; [1%nat]; [1%nat]]
|}.

(** The localised space of the second of the two triangles alone. *)
Definition second_triangle_only : LocalisedSpace :=
  Build_LocalisedSpace two_triangles 3 0 "rwg0" 3 "rwg0" [false; true] [1; 1].

(** The spaces the constructor builds on the two triangles, without and
    with boundary DOFs. *)
Definition two_triangles_interior : Space :=
  Build_Space two_triangles 3 1 0 "rwg0"
    [[0; 0; 0]; [0; 0; 0]] [[1; 0; 0]; [-1; 0; 0]] "rwg0" [true; true]
    (Build_LocalisedSpace two_triangles 3 0 "rwg0" 3 "rwg0" [true; true] [1; 1])
    [1; 1].

Definition two_triangles_boundary : Space :=
  Build_Space two_triangles 3 5 0 "rwg0"
    [[0; 1; 2]; [0; 3; 4]] [[1; 1; 1]; [-1; 1; 1]] "rwg0" [true; true]
    (Build_LocalisedSpace two_triangles 3 0 "rwg0" 3 "rwg0" [true; true] [1; 1])
    [1; 1].

(** A space on the single triangle, with its boundary DOFs. *)
Definition single_triangle_boundary : Space :=
  Build_Space single_triangle 3 3 0 "rwg0"
    [[0; 1; 2]] [[1; 1; 1]] "rwg0" [true]
    (Build_LocalisedSpace single_triangle 3 0 "rwg0" 3 "rwg0" [true] [1])
    [1].

(** The boundary of a tetrahedron: four triangles, six edges, closed. *)
Definition tetrahedron : Grid := {|
  grid_id := 3;
  number_of_elements := 4;
  number_of_edges := 6;
  element_edges := [[0%nat; 0%nat; 1%nat; 2%nat];
                    [1%nat; 3%nat; 3%nat; 4%nat];
                    [2%nat; 4%nat; 5%nat; 5%nat]];
  edge_neighbors := [[0%nat; 1%nat]; [0%nat; 2%nat]; [0%nat; 3%nat];
                     [1%nat; 2%nat]; [1%nat; 3%nat]; [2%nat; 3%nat]]
|}.

(** ** Well-formed input of the constructor

    The shapes the grid class guarantees: [element_edges] has three rows of
    [number_of_elements] edge indices, every edge has at least one adjacent
    element, all indices are in range, the support mask has one entry per
    element, and three DOFs per element fit the int32 stores. *)

Definition wf_grid (g : Grid) : Prop :=
  length (element_edges g) = 3%nat ∧
  Forall (fun row => length row = number_of_elements g ∧
                     Forall (fun k => (k < number_of_edges g)%nat) row)
         (element_edges g) ∧
  length (edge_neighbors g) = number_of_edges g ∧
  Forall (fun nb => (1 ≤ length nb)%nat ∧
                    Forall (fun e => (e < number_of_elements g)%nat) nb)
         (edge_neighbors g) ∧
  3 * Z.of_nat (number_of_elements g) < 2 ^ 31.

Definition wf_input (g : Grid) (support : list bool) : Prop :=
  wf_grid g ∧ length support = number_of_elements g.

(** A closed surface: every edge has exactly two adjacent elements, and
    each of them has the edge among its three. *)
Definition closed_grid (g : Grid) : Prop :=
  ∀ k nb, edge_neighbors g !! k = Some nb →
    length nb = 2%nat ∧
    ∀ e, e ∈ nb → ∃ i, (i < 3)%nat ∧ getitem2 (element_edges g) i e = Ok k.

(** ** Neighbours across an edge, read off the grid

    Slot [i] of element [e] lies on the edge [element_edges[i][e]].  The
    slot has a neighbour when that edge has exactly two adjacent elements
    and [e] is one of them: the neighbour is the other one. *)
Definition neighbour_across (g : Grid) (e i : nat) : option nat :=
  k ← entry2 (element_edges g) i e;
  nb ← edge_neighbors g !! k;
  match nb with
  | [a; b] =>
      if decide (a = e) then Some b
      else if decide (b = e) then Some a
      else None
  | _ => None
  end.

(** The slot has a neighbour, and the neighbour is in the support. *)
Definition neighbour_in_support (g : Grid) (support : list bool) (e i : nat) : bool :=
  match neighbour_across g e i with
  | Some o => bool_decide (support !! o = Some true)
  | None => false
  end.

(** The adjacency the grid class guarantees: the edge of every slot has
    one or two adjacent elements, and the element of the slot is one of
    them. *)
Definition slot_adjacency_ok (g : Grid) (e i : nat) : Prop :=
  match entry2 (element_edges g) i e ≫= (edge_neighbors g !!.) with
  | Some nb => e ∈ nb ∧ (length nb = 1%nat ∨ length nb = 2%nat)
  | None => True
  end.

Definition wf_adjacency (g : Grid) : Prop :=
  Forall (fun e => Forall (slot_adjacency_ok g e) (seq 0 3))
    (seq 0 (number_of_elements g)).

(** The elements of a mask, ascending. *)
Definition members (mask : list bool) : list nat :=
  filter (fun e => mask !! e = Some true) (seq 0 (length mask)).

(** What the constructor's loop takes for a boundary slot: the [other] it
    computes for the slot is -1.  The DOF ids held by boundary slots are
    those of these slots, when boundary DOFs are requested. *)
Definition boundary_slot (g : Grid) (support : list bool) (e i : nat) : bool :=
  match Rwg0.slot_topology g support e i with
  | Ok (_, _, other) => bool_decide (other = -1)
  | Raise _ => false
  end.

Definition slot_ids (g : Grid) (support : list bool) (e : nat) (row : list Z)
    (k : nat) : list Z :=
  i ← seq 0 k;
  if boundary_slot g support e i then option_list (row !! i) else [].

Definition boundary_ids_of (g : Grid) (support : list bool)
    (l2g : list (list Z)) (e : nat) : list Z :=
  slot_ids g support e (default [] (l2g !! e)) 3.

Definition boundary_ids (g : Grid) (support : list bool) (include_boundary_dofs : bool)
    (l2g : list (list Z)) (elements : list nat) : list Z :=
  if include_boundary_dofs then e ← elements; boundary_ids_of g support l2g e else [].

(** The DOF ids held by edges. *)
Definition edge_ids (edge_dofs : list Z) : list Z :=
  filter (fun d => d ≠ -1) edge_dofs.

(** The lowest-indexed slot with a nonzero multiplier. *)
Definition first_nonzero (ms : list Z) : option nat :=
  head (flatnonzero ((fun m => negb (Z.eqb m 0)) <$> ms)).

(** A row of the local-to-global map: slots without multiplier take the
    id [df]. *)
Definition alias_row (ms ds : list Z) (df : Z) : list Z :=
  zip_with (fun m d => if Z.eqb m 0 then df else d) ms ds.

(** * Relations and invariants used in the proofs *)

Definition grid_mismatch : exn :=
  ValueError "domain and dual_to_range must be defined on the same grid.".

(** The entries of the result buffer in the order they are stored: for
    each active element, each test slot, each trial slot. *)
Definition block_index {A : Type} (elements : list A) (ntest ntrial : nat)
  : list (A * nat * nat) :=
  e ← elements; i ← seq 0 ntest; j ← seq 0 ntrial; [(e, i, j)].

(** ** One local slot as a step relation

    The four ways through the body of the inner loop: a boundary slot
    without or with a DOF, and an interior slot whose edge is new or has
    been seen from the other side. *)

Definition sign_of (e low : nat) : Z := if decide (e = low) then 1 else -1.

Inductive slot_step (g : Grid) (S0 : list bool) (ibd : bool) (e i : nat)
  : Rwg0.locals * list Z -> Rwg0.locals * list Z -> Prop :=
  | step_boundary_skip st dm edge nbrs row :
      Rwg0.slot_topology g S0 e i = Ok (edge, nbrs, -1) →
      ibd = false →
      Rwg0.local_multipliers st !! e = Some row → (i < length row)%nat →
      slot_step g S0 ibd e i (st, dm)
        (Rwg0.Build_locals (Rwg0.local2global_map st)
           (<[e := <[i := 0]> row]> (Rwg0.local_multipliers st))
           (Rwg0.edge_dofs st) (Rwg0.delete_from_support st) (Rwg0.count st), dm)
  | step_boundary_dof st dm edge nbrs row :
      Rwg0.slot_topology g S0 e i = Ok (edge, nbrs, -1) →
      ibd = true →
      Rwg0.local_multipliers st !! e = Some row → (i < length row)%nat →
      (i < length dm)%nat →
      slot_step g S0 ibd e i (st, dm)
        (Rwg0.Build_locals (Rwg0.local2global_map st)
           (<[e := <[i := 1]> row]> (Rwg0.local_multipliers st))
           (Rwg0.edge_dofs st) (Rwg0.delete_from_support st) (Rwg0.count st + 1),
         <[i := int32 (Rwg0.count st)]> dm)
  | step_edge_new st dm edge nbrs other low row :
      Rwg0.slot_topology g S0 e i = Ok (edge, nbrs, other) →
      other ≠ -1 →
      py_min nbrs = Ok low →
      Rwg0.local_multipliers st !! e = Some row → (i < length row)%nat →
      Rwg0.edge_dofs st !! edge = Some (-1) →
      (i < length dm)%nat →
      slot_step g S0 ibd e i (st, dm)
        (Rwg0.Build_locals (Rwg0.local2global_map st)
           (<[e := <[i := sign_of e low]> row]> (Rwg0.local_multipliers st))
           (<[edge := int32 (Rwg0.count st)]> (Rwg0.edge_dofs st))
           (Rwg0.delete_from_support st) (Rwg0.count st + 1),
         <[i := int32 (Rwg0.count st)]> dm)
  | step_edge_seen st dm edge nbrs other low row d :
      Rwg0.slot_topology g S0 e i = Ok (edge, nbrs, other) →
      other ≠ -1 →
      py_min nbrs = Ok low →
      Rwg0.local_multipliers st !! e = Some row → (i < length row)%nat →
      Rwg0.edge_dofs st !! edge = Some d → d ≠ -1 →
      (i < length dm)%nat →
      slot_step g S0 ibd e i (st, dm)
        (Rwg0.Build_locals (Rwg0.local2global_map st)
           (<[e := <[i := sign_of e low]> row]> (Rwg0.local_multipliers st))
           (Rwg0.edge_dofs st) (Rwg0.delete_from_support st) (Rwg0.count st),
         <[i := d]> dm).

(** ** Invariants of the constructor's loop *)

Section loop_invariants.
Variables (g : Grid) (S0 : list bool) (ibd : bool).

Definition extends (st st' : Rwg0.locals) : Prop :=
  Rwg0.count st ≤ Rwg0.count st' ∧
  ∀ k d, Rwg0.edge_dofs st !! k = Some d → d ≠ -1 →
         Rwg0.edge_dofs st' !! k = Some d.

Definition alloc_ok (st : Rwg0.locals) (n : Z) : Prop :=
  0 ≤ Rwg0.count st ≤ n ∧
  length (Rwg0.edge_dofs st) = number_of_edges g ∧
  Forall (fun d => d = -1 ∨ 0 ≤ d < Rwg0.count st) (Rwg0.edge_dofs st).

(** What one processed slot has got: multiplier [m] and DOF id [d]
    (-1 for none). *)
Definition slot_post (st : Rwg0.locals) (e i : nat) (m d : Z) : Prop :=
  ∃ edge nbrs other,
    Rwg0.slot_topology g S0 e i = Ok (edge, nbrs, other) ∧
    (other = -1 →
       m = (if ibd then 1 else 0) ∧
       (if ibd then 0 ≤ d < Rwg0.count st else d = -1)) ∧
    (other ≠ -1 →
       (∃ low, py_min nbrs = Ok low ∧ m = sign_of e low) ∧
       Rwg0.edge_dofs st !! edge = Some d ∧ 0 ≤ d < Rwg0.count st).

(** What one processed element has got. *)
Definition elem_post (st : Rwg0.locals) (e : nat) : Prop :=
  ∃ ms ds,
    length ms = 3%nat ∧ length ds = 3%nat ∧
    (∀ i m d, ms !! i = Some m → ds !! i = Some d → slot_post st e i m d) ∧
    ((Forall (fun d => d = -1) ds ∧
      e ∈ Rwg0.delete_from_support st ∧
      Rwg0.local_multipliers st !! e = Some [0; 0; 0] ∧
      Rwg0.local2global_map st !! e = Some [0; 0; 0]) ∨
     (∃ f df,
        first_nonzero ms = Some f ∧ ds !! f = Some df ∧
        (e ∉ Rwg0.delete_from_support st) ∧
        Rwg0.local_multipliers st !! e = Some ms ∧
        Rwg0.local2global_map st !! e = Some (alias_row ms ds df))).

Record Inv (done : list nat) (st : Rwg0.locals) : Prop := {
  inv_l2g_len : length (Rwg0.local2global_map st) = number_of_elements g;
  inv_lm_len : length (Rwg0.local_multipliers st) = number_of_elements g;
  inv_alloc : alloc_ok st (3 * Z.of_nat (length done));
  inv_done : ∀ e, e ∈ done → elem_post st e;
  inv_fresh : ∀ e, e ∉ done → (e < number_of_elements g)%nat →
    Rwg0.local_multipliers st !! e = Some [0; 0; 0] ∧
    Rwg0.local2global_map st !! e = Some [0; 0; 0];
  inv_deleted : ∀ e, e ∈ Rwg0.delete_from_support st → e ∈ done;
  inv_perm :
    edge_ids (Rwg0.edge_dofs st) ++
    boundary_ids g S0 ibd (Rwg0.local2global_map st) done
    ≡ₚ seqZ 0 (Rwg0.count st)
}.

Record Inner (st0 : Rwg0.locals) (done : list nat) (e k : nat)
    (st : Rwg0.locals) (dm : list Z) : Prop := {
  in_l2g : Rwg0.local2global_map st = Rwg0.local2global_map st0;
  in_del : Rwg0.delete_from_support st = Rwg0.delete_from_support st0;
  in_lm_len : length (Rwg0.local_multipliers st) = number_of_elements g;
  in_lm_other : ∀ e', e' ≠ e →
    Rwg0.local_multipliers st !! e' = Rwg0.local_multipliers st0 !! e';
  in_alloc : alloc_ok st (3 * Z.of_nat (length done) + Z.of_nat k);
  in_ext : extends st0 st;
  in_dm_len : length dm = 3%nat;
  in_row : ∃ row,
    Rwg0.local_multipliers st !! e = Some row ∧ length row = 3%nat ∧
    (∀ i, (i < k)%nat → ∃ m d,
       row !! i = Some m ∧ dm !! i = Some d ∧ slot_post st e i m d) ∧
    (∀ i, (k ≤ i)%nat → (i < 3)%nat → row !! i = Some 0 ∧ dm !! i = Some (-1));
  in_perm :
    edge_ids (Rwg0.edge_dofs st) ++
    boundary_ids g S0 ibd (Rwg0.local2global_map st0) done ++
    (if ibd then slot_ids g S0 e dm k else [])
    ≡ₚ seqZ 0 (Rwg0.count st)
}.

End loop_invariants.

(** [assigned g S0 ibd st s']: the loop ends in [st], the support becomes
    [s'], and the constructor raises or returns accordingly. *)
Definition assigned (g : Grid) (S0 : list bool) (ibd : bool)
    (st : Rwg0.locals) (s' : list bool) : Prop :=
  Rwg0.assign_dofs g S0 ibd = Ok st ∧
  Rwg0.remove_deleted S0 (Rwg0.delete_from_support st) = Ok s' ∧
  ∀ normal_mult,
    Rwg0.init g S0 normal_mult ibd =
    if decide (count_nonzero s' = 0%nat)
    then Raise (ValueError "The support of the function space is empty.")
    else Ok (Build_Space g 3 (Rwg0.count st) 0 "rwg0"
               (Rwg0.local2global_map st) (Rwg0.local_multipliers st) "rwg0" s'
               (Build_LocalisedSpace g 3 0 "rwg0" 3 "rwg0" s' normal_mult)
               normal_mult).

(** The spaces the constructor builds, with boundary DOFs, on each of the
    two triangles alone. *)
Definition first_triangle_boundary : Space :=
  Build_Space two_triangles 3 3 0 "rwg0"
    [[0; 1; 2]; [0; 0; 0]] [[1; 1; 1]; [0; 0; 0]] "rwg0" [true; false]
    (Build_LocalisedSpace two_triangles 3 0 "rwg0" 3 "rwg0" [true; false] [1; 1])
    [1; 1].

Definition second_triangle_boundary : Space :=
  Build_Space two_triangles 3 3 0 "rwg0"
    [[0; 0; 0]; [0; 1; 2]] [[0; 0; 0]; [1; 1; 1]] "rwg0" [false; true]
    (Build_LocalisedSpace two_triangles 3 0 "rwg0" 3 "rwg0" [false; true] [1; 1])
    [1; 1].

(** ** Notions used to state further properties of the constructor *)

(** The slots of the elements of the support that have no neighbour in
    the support across their edge. *)
Definition boundary_slots (g : Grid) (support : list bool) : list (nat * nat) :=
  e ← members support;
  i ← seq 0 3;
  if neighbour_in_support g support e i then [] else [(e, i)].

(** Edge [k] is interior to the support: it is the edge of a slot of an
    element of the support whose neighbour across it is in the support. *)
Definition interior_edge (g : Grid) (support : list bool) (k : nat) : Prop :=
  ∃ e i,
    support !! e = Some true ∧ (i < 3)%nat ∧
    entry2 (element_edges g) i e = Some k ∧
    neighbour_in_support g support e i = true.

(** Element [e] carries the global DOF [d]: it is kept and one of its
    slots with a nonzero multiplier maps to [d]. *)
Definition carries (st : Rwg0.locals) (support' : list bool) (e : nat) (d : Z) : Prop :=
  support' !! e = Some true ∧
  ∃ i m, getitem2 (Rwg0.local2global_map st) e i = Ok d ∧
         getitem2 (Rwg0.local_multipliers st) e i = Ok m ∧ m ≠ 0.

(** What a run over the elements [xs] leaves alone: the counter never
    decreases, an edge's id once written stays, and the rows of the
    elements outside [xs] are not touched. *)
Definition frame (xs : list nat) (st st' : Rwg0.locals) : Prop :=
  Rwg0.count st ≤ Rwg0.count st' ∧
  (∀ k d, Rwg0.edge_dofs st !! k = Some d → d ≠ -1 →
          Rwg0.edge_dofs st' !! k = Some d) ∧
  ∀ a, a ∉ xs →
    Rwg0.local_multipliers st' !! a = Rwg0.local_multipliers st !! a ∧
    Rwg0.local2global_map st' !! a = Rwg0.local2global_map st !! a.

(** ** Notions used to state further properties of the assembler *)

(** The triplet that the assembler stores for element [e], test slot [i]
    and trial slot [j]: global row, global column, and the kernel's value
    scaled first by the trial and then by the test multiplier. *)
Definition slot_triplet {T : Type} (kernel : nat -> nat -> nat -> T)
    (Tscale : T -> Z -> T) (domain dual_to_range : Space) (x : nat * nat * nat)
  : Z * Z * T :=
  let get := fun (a : list (list Z)) (e i : nat) => default 0 (entry2 a e i) in
  (get (local2global dual_to_range) x.1.1 x.1.2,
   get (local2global domain) x.1.1 x.2,
   Tscale (Tscale (kernel x.1.1 x.1.2 x.2)
             (get (local_multipliers domain) x.1.1 x.2))
     (get (local_multipliers dual_to_range) x.1.1 x.1.2)).

(** The local contributions to entry [(r, c)] that come from slots whose
    test and trial multipliers are both nonzero. *)
Definition local_contributions_nonzero {T : Type} (kernel : nat -> nat -> nat -> T)
    (Tscale : T -> Z -> T) (domain dual_to_range : Space) (r c : Z) : list T :=
  e ← common_elements (support domain) (support dual_to_range);
  i ← seq 0 (ls_number_of_shape_functions (localised_space dual_to_range));
  j ← seq 0 (ls_number_of_shape_functions (localised_space domain));
  match entry2 (local2global dual_to_range) e i,
        entry2 (local2global domain) e j,
        entry2 (local_multipliers dual_to_range) e i,
        entry2 (local_multipliers domain) e j with
  | Some r', Some c', Some m_test, Some m_trial =>
      if decide (r' = r ∧ c' = c ∧ m_test ≠ 0 ∧ m_trial ≠ 0)
      then [Tscale (Tscale (kernel e i j) m_trial) m_test]
      else []
  | _, _, _, _ => []
  end.

(** * Proofs *)

(** ** The exception monad and indexing *)

Lemma bind_Ok {A B : Type} (m : result A) (f : A -> result B) (b : B) :
  (m ≫= f) = Ok b ↔ ∃ a, m = Ok a ∧ f a = Ok b.
Proof.
  destruct m as [a|e]; simpl; split.
  - eauto.
  - intros (a' & Ha & Hf). by injection Ha as ->.
  - discriminate.
  - intros (a' & Ha & Hf). discriminate.
Qed.

Lemma ok_bind {A B : Type} (a : A) (f : A -> result B) : (Ok a ≫= f) = f a.
Proof. done. Qed.

Lemma for_each_cons {A B : Type} (body : A -> B -> result A) (x : B) (xs : list B) (a : A) :
  for_each body (x :: xs) a = (body a x ≫= for_each body xs).
Proof. done. Qed.

Lemma getitem_Ok {A : Type} (l : list A) (i : nat) (x : A) :
  getitem l i = Ok x ↔ l !! i = Some x.
Proof. unfold getitem. destruct (l !! i); naive_solver. Qed.

Lemma setitem_Ok {A : Type} (l l' : list A) (i : nat) (x : A) :
  setitem l i x = Ok l' ↔ (i < length l)%nat ∧ l' = <[i := x]> l.
Proof.
  unfold setitem. case_decide as Hi; split.
  - by intros [= <-].
  - by intros [_ ->].
  - discriminate.
  - by intros [? _].
Qed.

Lemma setitem_lt {A : Type} (l : list A) (i : nat) (x : A) :
  (i < length l)%nat → setitem l i x = Ok (<[i := x]> l).
Proof. intros H. by apply setitem_Ok. Qed.

Lemma getitem2_Ok {A : Type} (a : list (list A)) (i j : nat) (x : A) :
  getitem2 a i j = Ok x ↔ ∃ row, a !! i = Some row ∧ row !! j = Some x.
Proof.
  unfold getitem2. rewrite bind_Ok. setoid_rewrite getitem_Ok. done.
Qed.

Lemma setitem2_Ok {A : Type} (a a' : list (list A)) (i j : nat) (x : A) :
  setitem2 a i j x = Ok a' ↔
  ∃ row, a !! i = Some row ∧ (j < length row)%nat ∧ a' = <[i := <[j := x]> row]> a.
Proof.
  unfold setitem2. rewrite bind_Ok. setoid_rewrite bind_Ok.
  setoid_rewrite getitem_Ok. setoid_rewrite setitem_Ok. split.
  - intros (row & Hrow & row' & [Hj ->] & _ & ->). eauto.
  - intros (row & Hrow & Hj & ->). exists row. split; [done|].
    eexists. split; [done|]. split; [|done]. by eapply lookup_lt_Some.
Qed.

(** Turn [m ≫= f = Ok b] hypotheses into their successful steps. *)
Ltac inv_ok :=
  repeat match goal with
  | H : (_ ≫= _) = Ok _ |- _ => apply bind_Ok in H; destruct H as (? & ? & H)
  | H : Ok _ = Ok _ |- _ => injection H as H
  | H : Raise _ = Ok _ |- _ => discriminate H
  | H : getitem _ _ = Ok _ |- _ => apply getitem_Ok in H
  | H : setitem _ _ _ = Ok _ |- _ => apply setitem_Ok in H; destruct H as [? H]
  | H : setitem2 _ _ _ _ = Ok _ |- _ =>
      apply setitem2_Ok in H; destruct H as (? & ? & ? & H)
  end.

Lemma bool_cases (b : bool) : b = true ∨ b = false.
Proof. destruct b; auto. Qed.

Lemma int32_small (z : Z) : - 2 ^ 31 ≤ z < 2 ^ 31 → int32 z = z.
Proof. intros H. unfold int32. rewrite Z.mod_small; lia. Qed.

Lemma uint32_small (z : Z) : 0 ≤ z < 2 ^ 32 → uint32 z = z.
Proof. intros H. unfold uint32. by rewrite Z.mod_small. Qed.

(** ** [flatnonzero] *)

Lemma elem_of_flatnonzero_from (start : nat) (mask : list bool) (i : nat) :
  i ∈ flatnonzero_from start mask ↔
  (start ≤ i)%nat ∧ mask !! (i - start)%nat = Some true.
Proof.
  revert start. induction mask as [|b mask IH]; intros start; simpl.
  - rewrite elem_of_nil, lookup_nil. split; [done|]. by intros [_ ?].
  - destruct b; rewrite ?elem_of_cons, IH.
    + split.
      * intros [->|[Hle Hl]].
        -- split; [lia|]. by replace (start - start)%nat with 0%nat by lia.
        -- split; [lia|]. by replace (i - start)%nat with (S (i - S start)) by lia.
      * intros [Hle Hl]. destruct (decide (i = start)) as [->|Hne]; [by left|right].
        split; [lia|]. by replace (i - start)%nat with (S (i - S start)) in Hl by lia.
    + split.
      * intros [Hle Hl]. split; [lia|].
        by replace (i - start)%nat with (S (i - S start)) by lia.
      * intros [Hle Hl]. destruct (decide (i = start)) as [->|Hne].
        -- by replace (start - start)%nat with 0%nat in Hl by lia.
        -- split; [lia|].
           by replace (i - start)%nat with (S (i - S start)) in Hl by lia.
Qed.

Lemma elem_of_flatnonzero (mask : list bool) (i : nat) :
  i ∈ flatnonzero mask ↔ mask !! i = Some true.
Proof.
  unfold flatnonzero. rewrite elem_of_flatnonzero_from.
  replace (i - 0)%nat with i by lia. split; [by intros [_ ?]|]. split; [lia|done].
Qed.

Lemma flatnonzero_from_length (start : nat) (mask : list bool) :
  (length (flatnonzero_from start mask) ≤ length mask)%nat.
Proof.
  revert start. induction mask as [|b mask IH]; intros start; simpl; [done|].
  specialize (IH (S start)). destruct b; simpl; lia.
Qed.

Lemma flatnonzero_lt (mask : list bool) (i : nat) :
  i ∈ flatnonzero mask → (i < length mask)%nat.
Proof. rewrite elem_of_flatnonzero. apply lookup_lt_Some. Qed.

Lemma flatnonzero_NoDup (mask : list bool) : NoDup (flatnonzero mask).
Proof.
  unfold flatnonzero. generalize 0%nat. induction mask as [|b mask IH]; intros start; simpl.
  - constructor.
  - destruct b; [|apply IH]. constructor; [|apply IH].
    rewrite elem_of_flatnonzero_from. lia.
Qed.

Lemma assign_slot_step g S0 ibd e i st dm out :
  Rwg0.assign_slot g S0 ibd e (st, dm) i = Ok out ↔ slot_step g S0 ibd e i (st, dm) out.
Proof.
  split.
  - unfold Rwg0.assign_slot. intros H.
    apply bind_Ok in H. destruct H as ([[edge nbrs] other] & Htopo & H).
    case_decide as Hother.
    + subst other. destruct ibd; simpl in H; inv_ok; subst.
      * eapply step_boundary_dof; eauto.
      * eapply step_boundary_skip; eauto.
    + apply bind_Ok in H. destruct H as (low & Hlow & H).
      apply bind_Ok in H. destruct H as (lm & Hlm & H).
      apply bind_Ok in H. destruct H as (dof & Hdof & H).
      apply bind_Ok in H. destruct H as ([ed c] & Hed & H).
      inv_ok. subst. unfold sign_of.
      case_decide as Hd.
      * inv_ok. subst.
        match goal with Hl : <[_:=_]> _ !! _ = Some _ |- _ =>
          rewrite list_lookup_insert_eq in Hl by done; injection Hl as <- end.
        eapply step_edge_new; eauto.
      * inv_ok. simplify_eq. eapply step_edge_seen; eauto.
  - unfold Rwg0.assign_slot. intros Hstep.
    assert (∀ m row, Rwg0.local_multipliers st !! e = Some row → (i < length row)%nat →
      setitem2 (Rwg0.local_multipliers st) e i m =
      Ok (<[e := <[i := m]> row]> (Rwg0.local_multipliers st))) as Hset.
    { intros m row Hrow Hi. apply setitem2_Ok. eauto. }
    inversion Hstep as
      [st' dm' edge nbrs row Htopo Hibd Hrow Hi
      |st' dm' edge nbrs row Htopo Hibd Hrow Hi Hdm
      |st' dm' edge nbrs other low row Htopo Hother Hlow Hrow Hi Hed Hdm
      |st' dm' edge nbrs other low row d Htopo Hother Hlow Hrow Hi Hed Hd Hdm];
      subst; rewrite Htopo; simpl.
    + by rewrite (Hset _ _ Hrow Hi).
    + rewrite (Hset _ _ Hrow Hi). simpl. by rewrite setitem_lt.
    + rewrite (decide_False (P := other = -1)) by done. rewrite Hlow. simpl.
      specialize (Hset (sign_of e low) _ Hrow Hi). unfold sign_of in Hset.
      rewrite Hset. simpl.
      apply getitem_Ok in Hed as Hg. rewrite Hg. simpl.
      apply lookup_lt_Some in Hed as Hlt.
      rewrite (setitem_lt (Rwg0.edge_dofs st)) by done. simpl.
      unfold getitem. rewrite list_lookup_insert_eq by done. simpl.
      by rewrite setitem_lt.
    + rewrite (decide_False (P := other = -1)) by done. rewrite Hlow. simpl.
      specialize (Hset (sign_of e low) _ Hrow Hi). unfold sign_of in Hset.
      rewrite Hset. simpl.
      apply getitem_Ok in Hed as Hg. rewrite Hg. simpl.
      rewrite (decide_False (P := d = -1)) by done.
      simpl. rewrite Hg. simpl. by rewrite setitem_lt.
Qed.

(** ** The topology of a slot on a well-formed grid *)

Lemma py_min_cons (x : nat) (l : list nat) : ∃ low, py_min (x :: l) = Ok low.
Proof. simpl. eauto. Qed.

Lemma slot_topology_total g S0 e i :
  wf_input g S0 → (e < number_of_elements g)%nat → (i < 3)%nat →
  ∃ edge nbrs other low,
    Rwg0.slot_topology g S0 e i = Ok (edge, nbrs, other) ∧
    (edge < number_of_edges g)%nat ∧
    edge_neighbors g !! edge = Some nbrs ∧
    py_min nbrs = Ok low.
Proof.
  intros [(Hrows & Hee & Hlen & Hnb & _) HS] He Hi.
  destruct (lookup_lt_is_Some_2 (element_edges g) i) as [row Hrow]; [lia|].
  pose proof (Forall_lookup_1 _ _ _ _ Hee Hrow) as [Hrl Hrk].
  destruct (lookup_lt_is_Some_2 row e) as [edge Hedge]; [lia|].
  pose proof (Forall_lookup_1 _ _ _ _ Hrk Hedge) as Hk. simpl in Hk.
  destruct (lookup_lt_is_Some_2 (edge_neighbors g) edge) as [nbrs Hnbrs]; [lia|].
  pose proof (Forall_lookup_1 _ _ _ _ Hnb Hnbrs) as [Hnl Hne].
  assert (∃ other, Rwg0.find_other S0 e nbrs = Ok other) as [other Hother].
  { unfold Rwg0.find_other. case_decide as Hl1; [eauto|].
    destruct nbrs as [|n0 [|n1 nbrs]]; simpl in *; [lia|lia|].
    assert (∀ n, n ∈ n0 :: n1 :: nbrs → ∃ b, getitem S0 n = Ok b) as Hin.
    { intros n Hn. rewrite Forall_forall in Hne. apply Hne in Hn.
      destruct (lookup_lt_is_Some_2 S0 n) as [b Hb]; [lia|].
      exists b. by apply getitem_Ok. }
    case_decide; simpl.
    - destruct (Hin n1) as [b ->]; [rewrite !elem_of_cons; auto|]. simpl. eauto.
    - destruct (Hin n0) as [b ->]; [rewrite !elem_of_cons; auto|]. simpl. eauto. }
  destruct nbrs as [|n0 nbrs]; [simpl in Hnl; lia|].
  destruct (py_min_cons n0 nbrs) as [low Hlow].
  exists edge, (n0 :: nbrs), other, low. split_and!; try done.
  unfold Rwg0.slot_topology.
  assert (getitem2 (element_edges g) i e = Ok edge) as ->.
  { apply getitem2_Ok. eauto. }
  simpl. apply getitem_Ok in Hnbrs. rewrite Hnbrs. simpl. by rewrite Hother.
Qed.

Lemma slot_topology_inv g S0 e i k nb other :
  Rwg0.slot_topology g S0 e i = Ok (k, nb, other) →
  getitem2 (element_edges g) i e = Ok k ∧
  edge_neighbors g !! k = Some nb ∧
  Rwg0.find_other S0 e nb = Ok other.
Proof.
  unfold Rwg0.slot_topology. intros H.
  apply bind_Ok in H as (k' & Hk & H).
  apply bind_Ok in H as (nb' & Hnb & H).
  apply bind_Ok in H as (other' & Ho & H).
  injection H as -> -> ->. by apply getitem_Ok in Hnb.
Qed.

(** ** The loop's topology against the grid's adjacency *)

Lemma entry2_getitem2 {A : Type} (a : list (list A)) (i j : nat) (x : A) :
  entry2 a i j = Some x ↔ getitem2 a i j = Ok x.
Proof.
  rewrite getitem2_Ok. unfold entry2. destruct (a !! i) as [row|]; simpl.
  - split; [eauto|]. by intros (row' & [= <-] & ?).
  - split; [done|]. by intros (row' & ? & _).
Qed.

Lemma wf_adjacency_slot g e i k nb :
  wf_adjacency g → (e < number_of_elements g)%nat → (i < 3)%nat →
  getitem2 (element_edges g) i e = Ok k → edge_neighbors g !! k = Some nb →
  e ∈ nb ∧ (length nb = 1%nat ∨ length nb = 2%nat).
Proof.
  intros Hadj He Hi Hk Hnb. unfold wf_adjacency in Hadj.
  rewrite Forall_forall in Hadj.
  assert (e ∈ seq 0 (number_of_elements g)) as Hin by (apply elem_of_seq; lia).
  specialize (Hadj e Hin). rewrite Forall_forall in Hadj.
  assert (i ∈ seq 0 3) as Hin' by (apply elem_of_seq; lia).
  specialize (Hadj i Hin'). unfold slot_adjacency_ok in Hadj.
  apply entry2_getitem2 in Hk. rewrite Hk in Hadj. simpl in Hadj.
  by rewrite Hnb in Hadj.
Qed.

(** On a grid with that adjacency the [other] that the loop computes is
    the neighbour across the edge when it is in the support, and [min]
    of the neighbour list picks the smaller of the two element indices. *)
Lemma topology_neighbour g S0 e i k nb other :
  wf_adjacency g → (e < number_of_elements g)%nat → (i < 3)%nat →
  Rwg0.slot_topology g S0 e i = Ok (k, nb, other) →
  entry2 (element_edges g) i e = Some k ∧
  (other ≠ -1 ↔ neighbour_in_support g S0 e i = true) ∧
  (other ≠ -1 →
   ∃ o, neighbour_across g e i = Some o ∧ S0 !! o = Some true ∧
        ∀ low, py_min nb = Ok low → (e = low ↔ (e ≤ o)%nat)).
Proof.
  intros Hadj He Hi Htopo.
  apply slot_topology_inv in Htopo as (Hk & Hnb & Hother).
  destruct (wf_adjacency_slot _ _ _ _ _ Hadj He Hi Hk Hnb) as [Hin Hlen].
  pose proof (proj2 (entry2_getitem2 _ _ _ _) Hk) as Hk'.
  split; [done|].
  unfold neighbour_in_support, neighbour_across. rewrite Hk'. simpl. rewrite Hnb. simpl.
  unfold Rwg0.find_other in Hother.
  destruct nb as [|a [|b [|c nb]]]; simpl in Hlen; [lia| | |lia].
  - rewrite decide_True in Hother by done. injection Hother as <-.
    split; [done|]. done.
  - rewrite decide_False in Hother by (simpl; lia).
    assert (a = e ∨ (a ≠ e ∧ b = e)) as Hcase.
    { apply elem_of_cons in Hin as [Hin|Hin]; [by left|].
      apply list_elem_of_singleton in Hin.
      destruct (decide (a = e)); auto. }
    cbn [getitem lookup list_lookup] in Hother. rewrite !ok_bind in Hother.
    destruct Hcase as [Ha|[Hne Hb]].
    + rewrite (decide_True (P := e = a)) in Hother by done.
      rewrite (decide_True (P := a = e)) by done.
      cbn [getitem lookup list_lookup] in Hother. rewrite ok_bind in Hother.
      apply bind_Ok in Hother as (inside & Hins & Hother). apply getitem_Ok in Hins.
      injection Hother as <-. destruct inside.
      * split; [split; [intros _; by apply bool_decide_eq_true_2|lia]|].
        intros _. exists b. split_and!; try done. intros low [= <-]. lia.
      * split; [|done]. split; [done|].
        intros H%bool_decide_eq_true_1. congruence.
    + rewrite (decide_False (P := e = a)) in Hother by done.
      rewrite (decide_False (P := a = e)), (decide_True (P := b = e)) by done.
      rewrite ok_bind in Hother.
      apply bind_Ok in Hother as (inside & Hins & Hother). apply getitem_Ok in Hins.
      injection Hother as <-. destruct inside.
      * split; [split; [intros _; by apply bool_decide_eq_true_2|lia]|].
        intros _. exists a. split_and!; try done. intros low [= <-]. lia.
      * split; [|done]. split; [done|].
        intros H%bool_decide_eq_true_1. congruence.
Qed.

Lemma boundary_slot_neighbour g S0 e i :
  wf_input g S0 → wf_adjacency g → (e < number_of_elements g)%nat → (i < 3)%nat →
  boundary_slot g S0 e i = negb (neighbour_in_support g S0 e i).
Proof.
  intros Hwf Hadj He Hi.
  destruct (slot_topology_total g S0 e i Hwf He Hi) as (k & nb & other & low & Htopo & _).
  destruct (topology_neighbour _ _ _ _ _ _ _ Hadj He Hi Htopo) as (_ & Hiff & _).
  unfold boundary_slot. rewrite Htopo.
  destruct (neighbour_in_support g S0 e i); simpl.
  - apply bool_decide_eq_false_2. by apply Hiff.
  - apply bool_decide_eq_true_2. destruct (decide (other = -1)) as [|Hne]; [done|].
    by apply Hiff in Hne.
Qed.

Lemma filter_ext_in {A : Type} (P Q : A -> Prop) `{!∀ x, Decision (P x)}
    `{!∀ x, Decision (Q x)} (l : list A) :
  (∀ x, x ∈ l → P x ↔ Q x) → filter P l = filter Q l.
Proof.
  induction l as [|x l IH]; intros HPQ; [done|]. rewrite !filter_cons.
  rewrite IH by (intros y Hy; apply HPQ; by right).
  destruct (decide (P x)) as [HP|HP], (decide (Q x)) as [HQ|HQ]; try done.
  - by apply HPQ in HP; [|by left].
  - by apply HPQ in HQ; [|by left].
Qed.

Lemma flatnonzero_from_filter (mask : list bool) : ∀ start,
  flatnonzero_from start mask
  = filter (fun e => mask !! (e - start)%nat = Some true) (seq start (length mask)).
Proof.
  induction mask as [|b mask IH]; intros start; [done|].
  cbn [flatnonzero_from length seq]. rewrite filter_cons.
  replace (start - start)%nat with 0%nat by lia.
  rewrite IH.
  rewrite (filter_ext_in (fun e => (b :: mask) !! (e - start)%nat = Some true)
             (fun e => mask !! (e - S start)%nat = Some true)).
  - destruct b; [by rewrite decide_True|by rewrite decide_False].
  - intros e He. apply elem_of_seq in He.
    replace (e - start)%nat with (S (e - S start)) by lia. done.
Qed.

Lemma flatnonzero_members (mask : list bool) : flatnonzero mask = members mask.
Proof.
  unfold flatnonzero, members. rewrite flatnonzero_from_filter.
  apply filter_ext_in. intros e _. by replace (e - 0)%nat with e by lia.
Qed.

Lemma elem_of_members (mask : list bool) (e : nat) :
  e ∈ members mask ↔ mask !! e = Some true.
Proof. by rewrite <- flatnonzero_members, elem_of_flatnonzero. Qed.

(** ** Lists of DOF ids *)

Lemma slot_ids_S g S0 e row k :
  slot_ids g S0 e row (S k) =
  slot_ids g S0 e row k ++
  (if boundary_slot g S0 e k then option_list (row !! k) else []).
Proof.
  unfold slot_ids. rewrite seq_S, bind_app. simpl. by rewrite app_nil_r.
Qed.

Lemma slot_ids_insert_ge g S0 e row k i x :
  (k ≤ i)%nat → slot_ids g S0 e (<[i := x]> row) k = slot_ids g S0 e row k.
Proof.
  induction k as [|k IH]; intros Hle; [done|].
  rewrite !slot_ids_S, IH by lia.
  by rewrite list_lookup_insert_ne by lia.
Qed.

Lemma edge_ids_insert_new (ed : list Z) (k : nat) (x : Z) :
  ed !! k = Some (-1) → x ≠ -1 → edge_ids (<[k := x]> ed) ≡ₚ x :: edge_ids ed.
Proof.
  unfold edge_ids. revert k. induction ed as [|d ed IH]; intros k Hk Hx; [done|].
  destruct k as [|k]; simpl in *.
  - injection Hk as ->. rewrite filter_cons_True by done.
    by rewrite (filter_cons_False _ (-1)) by (intros ?; done).
  - rewrite !filter_cons. case_decide.
    + rewrite IH by done. apply Permutation_swap.
    + by apply IH.
Qed.

Lemma seqZ_snoc (c : Z) : 0 ≤ c → seqZ 0 (c + 1) = seqZ 0 c ++ [c].
Proof.
  intros H. by rewrite (seqZ_app 0 c 1) by lia.
Qed.

Lemma edge_ids_replicate (n : nat) : edge_ids (replicate n (-1)) = [].
Proof.
  unfold edge_ids. induction n as [|n IH]; [done|]. simpl.
  by rewrite filter_cons_False by (intros ?; done).
Qed.

Lemma boundary_ids_app g S0 ibd l2g xs ys :
  boundary_ids g S0 ibd l2g (xs ++ ys) =
  boundary_ids g S0 ibd l2g xs ++ boundary_ids g S0 ibd l2g ys.
Proof. unfold boundary_ids. destruct ibd; [apply bind_app|done]. Qed.

Lemma boundary_ids_insert_fresh g S0 ibd l2g e row elements :
  e ∉ elements →
  boundary_ids g S0 ibd (<[e := row]> l2g) elements = boundary_ids g S0 ibd l2g elements.
Proof.
  unfold boundary_ids. destruct ibd; [|done]. intros He.
  induction elements as [|x xs IH]; [done|]. simpl.
  apply not_elem_of_cons in He as [Hx Hxs]. f_equal; [|by apply IH].
  unfold boundary_ids_of. by rewrite list_lookup_insert_ne by done.
Qed.

(** ** Finishing a row of three slots *)

Lemma finish_row_spec (ms ds : list Z) :
  length ms = 3%nat → length ds = 3%nat →
  (∃ i m, ms !! i = Some m ∧ m ≠ 0) →
  ∃ f df mf,
    py_min (flatnonzero ((fun m => negb (Z.eqb m 0)) <$> ms)) = Ok f ∧
    first_nonzero ms = Some f ∧
    ds !! f = Some df ∧ ms !! f = Some mf ∧ mf ≠ 0 ∧
    setitems ds (flatnonzero ((fun m => Z.eqb m 0) <$> ms)) df
      = Ok (alias_row ms ds df).
Proof.
  intros Hms Hds (i & m & Hi & Hm).
  destruct ms as [|m0 [|m1 [|m2 [|]]]]; try done.
  destruct ds as [|d0 [|d1 [|d2 [|]]]]; try done.
  unfold first_nonzero, flatnonzero, alias_row, setitems. simpl.
  destruct (Z.eqb_spec m0 0) as [->|H0]; simpl.
  2:{ exists 0%nat, d0, m0. split_and!; try done.
      - by destruct (m1 =? 0), (m2 =? 0).
      - destruct (m1 =? 0), (m2 =? 0); done. }
  destruct (Z.eqb_spec m1 0) as [->|H1]; simpl.
  2:{ exists 1%nat, d1, m1. split_and!; try done.
      - by destruct (m2 =? 0).
      - destruct (m2 =? 0); done. }
  destruct (Z.eqb_spec m2 0) as [->|H2]; simpl.
  2:{ exists 2%nat, d2, m2. split_and!; done. }
  destruct i as [|[|[|i]]]; simplify_eq/=.
Qed.

Lemma alias_row_nonzero (ms ds : list Z) (df : Z) :
  length ms = length ds → Forall (fun m => m ≠ 0) ms → alias_row ms ds df = ds.
Proof.
  unfold alias_row. revert ds. induction ms as [|m ms IH]; intros [|d ds] Hlen Hnz;
    simpl in *; try done.
  apply Forall_cons in Hnz as [Hm Hnz].
  destruct (Z.eqb_spec m 0); [done|]. f_equal. apply IH; [lia|done].
Qed.

Lemma alias_row_lookup (ms ds : list Z) (df : Z) (i : nat) (m d : Z) :
  ms !! i = Some m → ds !! i = Some d →
  alias_row ms ds df !! i = Some (if Z.eqb m 0 then df else d).
Proof.
  intros Hm Hd. unfold alias_row. rewrite lookup_zip_with, Hm. simpl. by rewrite Hd.
Qed.

Lemma first_nonzero_least (ms : list Z) (f : nat) :
  first_nonzero ms = Some f →
  (∃ m, ms !! f = Some m ∧ m ≠ 0) ∧
  ∀ j, (j < f)%nat → ms !! j = Some 0.
Proof.
  assert (∀ start, head (flatnonzero_from start ((λ m, negb (m =? 0)) <$> ms)) = Some f →
    (start ≤ f)%nat ∧ (∃ m, ms !! (f - start)%nat = Some m ∧ m ≠ 0) ∧
    ∀ j, (j < f - start)%nat → ms !! j = Some 0) as H.
  { induction ms as [|m ms IH]; intros start; simpl; [done|].
    destruct (Z.eqb_spec m 0) as [->|Hm]; simpl.
    - intros Hh. destruct (IH _ Hh) as (Hle & (m & Hm & Hnz) & Hlow).
      split; [lia|]. replace (f - start)%nat with (S (f - S start)) by lia.
      split; [eauto|]. intros [|j] Hj; [done|]. simpl. apply Hlow. lia.
    - intros [= ->]. split; [lia|]. replace (f - f)%nat with 0%nat by lia.
      split; [eauto|]. intros j Hj. lia. }
  intros Hh. destruct (H 0%nat Hh) as (_ & Hex & Hlow).
  replace (f - 0)%nat with f in * by lia. done.
Qed.

(** ** Invariants of the loop *)

Section invariants.
Variables (g : Grid) (S0 : list bool) (ibd : bool).
Hypothesis Hwf : wf_input g S0.

Local Abbreviation slot_post := (slot_post g S0 ibd).
Local Abbreviation elem_post := (elem_post g S0 ibd).
Local Abbreviation Inv := (Inv g S0 ibd).
Local Abbreviation Inner := (Inner g S0 ibd).
Local Abbreviation inv_l2g_len := (inv_l2g_len g S0 ibd).
Local Abbreviation inv_lm_len := (inv_lm_len g S0 ibd).
Local Abbreviation inv_alloc := (inv_alloc g S0 ibd).
Local Abbreviation inv_done := (inv_done g S0 ibd).
Local Abbreviation inv_fresh := (inv_fresh g S0 ibd).
Local Abbreviation inv_deleted := (inv_deleted g S0 ibd).
Local Abbreviation inv_perm := (inv_perm g S0 ibd).
Local Abbreviation in_l2g := (in_l2g g S0 ibd).
Local Abbreviation in_del := (in_del g S0 ibd).
Local Abbreviation in_lm_len := (in_lm_len g S0 ibd).
Local Abbreviation in_lm_other := (in_lm_other g S0 ibd).
Local Abbreviation in_alloc := (in_alloc g S0 ibd).
Local Abbreviation in_ext := (in_ext g S0 ibd).
Local Abbreviation in_dm_len := (in_dm_len g S0 ibd).
Local Abbreviation in_row := (in_row g S0 ibd).
Local Abbreviation in_perm := (in_perm g S0 ibd).

Lemma extends_refl st : extends st st.
Proof. split; [lia|auto]. Qed.

Lemma extends_trans st1 st2 st3 : extends st1 st2 → extends st2 st3 → extends st1 st3.
Proof. intros [H1 H1'] [H2 H2']. split; [lia|]. auto. Qed.

Lemma slot_post_mono st st' e i m d :
  extends st st' → slot_post st e i m d → slot_post st' e i m d.
Proof.
  intros [Hc Hed] (edge & nbrs & other & Htopo & Hb & Hi).
  exists edge, nbrs, other. split; [done|]. split.
  - intros Ho. destruct (Hb Ho) as [Hm Hd]. split; [done|].
    destruct ibd; [lia|done].
  - intros Ho. destruct (Hi Ho) as (Hlow & Hl & Hd). split; [done|].
    split; [|lia]. apply Hed; [done|lia].
Qed.

Lemma elem_post_frame st st' e :
  extends st st' →
  Rwg0.local_multipliers st' !! e = Rwg0.local_multipliers st !! e →
  Rwg0.local2global_map st' !! e = Rwg0.local2global_map st !! e →
  (e ∈ Rwg0.delete_from_support st ↔ e ∈ Rwg0.delete_from_support st') →
  elem_post st e → elem_post st' e.
Proof.
  intros Hext Hlm Hl2g Hdel (ms & ds & Hms & Hds & Hslots & Hcase).
  exists ms, ds. split_and!; try done.
  - intros i m d Hm Hd. eapply slot_post_mono; eauto.
  - rewrite Hlm, Hl2g. destruct Hcase as [(? & ? & ? & ?)|(f & df & ? & ? & ? & ? & ?)].
    + left. split_and!; try done. by apply Hdel.
    + right. exists f, df. split_and!; try done. by rewrite <-Hdel.
Qed.

Lemma inner_start st done e :
  Inv done st → e ∉ done → (e < number_of_elements g)%nat →
  Inner st done e 0 st (replicate 3 (int32 (-1))).
Proof.
  intros HI He Hlt. destruct (inv_fresh _ _ HI e He Hlt) as [Hlm Hl2g].
  constructor.
  - done.
  - done.
  - apply HI.
  - done.
  - destruct (inv_alloc _ _ HI) as (? & ? & ?). split_and!; try done; lia.
  - apply extends_refl.
  - done.
  - exists [0; 0; 0]. split_and!; try done.
    + intros i Hi. lia.
    + intros i _ Hi. destruct i as [|[|[|i]]]; try done. lia.
  - replace (if ibd then slot_ids g S0 e (replicate 3 (int32 (-1))) 0 else [])
      with (@nil Z) by (by destruct ibd).
    rewrite app_nil_r. apply HI.
Qed.

Lemma inner_intro st0 done e k st dm st' row m d :
  Inner st0 done e k st dm → (k < 3)%nat →
  Rwg0.local_multipliers st !! e = Some row →
  Rwg0.local2global_map st' = Rwg0.local2global_map st →
  Rwg0.delete_from_support st' = Rwg0.delete_from_support st →
  Rwg0.local_multipliers st' = <[e := <[k := m]> row]> (Rwg0.local_multipliers st) →
  extends st st' →
  alloc_ok g st' (3 * Z.of_nat (length done) + Z.of_nat (S k)) →
  slot_post st' e k m d →
  edge_ids (Rwg0.edge_dofs st') ++
    boundary_ids g S0 ibd (Rwg0.local2global_map st0) done ++
    (if ibd then slot_ids g S0 e (<[k := d]> dm) (S k) else [])
    ≡ₚ seqZ 0 (Rwg0.count st') →
  Inner st0 done e (S k) st' (<[k := d]> dm).
Proof.
  intros HI Hk Hrow Hl2g Hdel Hlm Hext Halloc Hpost Hperm.
  destruct (in_row _ _ _ _ _ _ HI) as (row0 & Hrow0 & Hrowlen & Hprev & Hrest).
  assert (row0 = row) as -> by congruence.
  pose proof (lookup_lt_Some _ _ _ Hrow) as Helt.
  constructor.
  - rewrite Hl2g. apply HI.
  - rewrite Hdel. apply HI.
  - rewrite Hlm, length_insert. apply HI.
  - intros e' Hne. rewrite Hlm, list_lookup_insert_ne by done.
    by apply (in_lm_other _ _ _ _ _ _ HI).
  - done.
  - eapply extends_trans; [apply HI|done].
  - rewrite length_insert. apply HI.
  - exists (<[k := m]> row). split_and!.
    + rewrite Hlm. by rewrite list_lookup_insert_eq.
    + by rewrite length_insert.
    + intros i Hi. destruct (decide (i = k)) as [->|Hne].
      * exists m, d. rewrite !list_lookup_insert_eq; [done| |lia].
        rewrite (in_dm_len _ _ _ _ _ _ HI). lia.
      * destruct (Hprev i) as (m' & d' & Hm' & Hd' & Hp'); [lia|].
        exists m', d'. rewrite !list_lookup_insert_ne by done.
        split_and!; try done. by eapply slot_post_mono.
    + intros i Hki Hi. rewrite !list_lookup_insert_ne by lia. apply Hrest; lia.
  - done.
Qed.

Lemma inner_step st0 done e k st dm :
  Inner st0 done e k st dm → (k < 3)%nat → (e < number_of_elements g)%nat →
  (length done < number_of_elements g)%nat →
  ∃ st' dm',
    Rwg0.assign_slot g S0 ibd e (st, dm) k = Ok (st', dm') ∧
    Inner st0 done e (S k) st' dm'.
Proof.
  intros HI Hk He Hdone.
  destruct (slot_topology_total g S0 e k Hwf He Hk)
    as (edge & nbrs & other & low & Htopo & Hedge & Hnbrs & Hlow).
  destruct (in_row _ _ _ _ _ _ HI) as (row & Hrow & Hrowlen & Hprev & Hrest).
  destruct (in_alloc _ _ _ _ _ _ HI) as ((Hc0 & Hcn) & Hedlen & Hedrange).
  pose proof (in_dm_len _ _ _ _ _ _ HI) as Hdmlen.
  destruct (Hrest k) as [_ Hdmk]; [lia..|].
  assert (0 ≤ Rwg0.count st < 2 ^ 31 - 1) as Hc31.
  { destruct Hwf as [(_ & _ & _ & _ & Hsz) _]. lia. }
  assert (int32 (Rwg0.count st) = Rwg0.count st) as Hint.
  { apply int32_small. lia. }
  assert (boundary_slot g S0 e k = bool_decide (other = -1)) as Hbs.
  { unfold boundary_slot. by rewrite Htopo. }
  destruct (decide (other = -1)) as [->|Hother].
  - rewrite bool_decide_eq_true_2 in Hbs by done.
    destruct (bool_cases ibd) as [Hibd|Hibd].
    + eexists _, _. split.
      { apply assign_slot_step. eapply step_boundary_dof; eauto; lia. }
      rewrite Hint. eapply inner_intro; eauto; unfold extends, alloc_ok; simpl.
      * split; [lia|]. done.
      * split_and!; [lia|lia|done|].
        eapply Forall_impl; [done|]. simpl. lia.
      * exists edge, nbrs, (-1). split; [done|]. rewrite Hibd. simpl.
        split; [intros _; split; [done|lia]|done].
      * rewrite Hibd, slot_ids_S, Hbs, slot_ids_insert_ge by lia.
        rewrite list_lookup_insert_eq by lia. simpl.
        rewrite seqZ_snoc by lia.
        rewrite !app_assoc. apply Permutation_app; [|done].
        rewrite <-app_assoc. pose proof (in_perm _ _ _ _ _ _ HI) as Hp.
        by rewrite Hibd in Hp.
    + eexists _, _. split.
      { apply assign_slot_step. eapply step_boundary_skip; eauto; lia. }
      rewrite <-(list_insert_id dm k (-1)) by done.
      eapply inner_intro; eauto; unfold extends, alloc_ok; simpl.
      * apply extends_refl.
      * split_and!; [lia|lia|done|done].
      * exists edge, nbrs, (-1). split; [done|]. rewrite Hibd. simpl.
        split; [intros _; done|done].
      * rewrite Hibd. pose proof (in_perm _ _ _ _ _ _ HI) as Hp.
        by rewrite Hibd in Hp.
  - rewrite bool_decide_eq_false_2 in Hbs by done.
    destruct (lookup_lt_is_Some_2 (Rwg0.edge_dofs st) edge) as [d0 Hd0]; [lia|].
    destruct (decide (d0 = -1)) as [->|Hd0ne].
    + eexists _, _. split.
      { apply assign_slot_step. eapply step_edge_new; eauto; lia. }
      rewrite Hint. eapply inner_intro; eauto; unfold extends, alloc_ok; simpl.
      * split; simpl; [lia|]. intros k' d Hk' Hd.
        rewrite list_lookup_insert_ne; [done|]. intros <-. congruence.
      * split_and!; [lia|lia|by rewrite length_insert|].
        apply Forall_insert; [|right; lia].
        eapply Forall_impl; [done|]. simpl. lia.
      * exists edge, nbrs, other. split; [done|].
        split; [done|]. intros _. split; [eauto|]. simpl.
        rewrite list_lookup_insert_eq by lia. split; [done|lia].
      * rewrite edge_ids_insert_new by (done || lia).
        rewrite seqZ_snoc by lia.
        replace (if ibd then slot_ids g S0 e (<[k:=Rwg0.count st]> dm) (S k) else [])
          with (if ibd then slot_ids g S0 e dm k else []).
        2:{ destruct ibd; [|done].
            by rewrite slot_ids_S, Hbs, slot_ids_insert_ge, app_nil_r by lia. }
        simpl. rewrite (in_perm _ _ _ _ _ _ HI).
        apply Permutation_cons_append.
    + assert (0 ≤ d0 < Rwg0.count st) as Hd0r.
      { pose proof (Forall_lookup_1 _ _ _ _ Hedrange Hd0) as Hr. simpl in Hr. lia. }
      eexists _, _. split.
      { apply assign_slot_step. eapply step_edge_seen; eauto; lia. }
      eapply inner_intro; eauto; unfold extends, alloc_ok; simpl.
      * apply extends_refl.
      * split_and!; [lia|lia|done|done].
      * exists edge, nbrs, other. split; [done|].
        split; [done|]. intros _. split; [eauto|]. done.
      * replace (if ibd then slot_ids g S0 e (<[k:=d0]> dm) (S k) else [])
          with (if ibd then slot_ids g S0 e dm k else []).
        2:{ destruct ibd; [|done].
            by rewrite slot_ids_S, Hbs, slot_ids_insert_ge, app_nil_r by lia. }
        apply HI.
Qed.

Lemma slot_post_cases st e i m d :
  slot_post st e i m d →
  (m = 0 ∧ d = -1 ∧ ibd = false) ∨ ((m = 1 ∨ m = -1) ∧ 0 ≤ d < Rwg0.count st).
Proof.
  intros (edge & nbrs & other & Htopo & Hb & Hi).
  destruct (decide (other = -1)) as [Ho|Ho].
  - destruct (Hb Ho) as [Hm Hd]. destruct ibd; [right|left]; auto.
  - destruct (Hi Ho) as ((low & _ & ->) & _ & Hd). right. split; [|done].
    unfold sign_of. case_decide; auto.
Qed.

Lemma inner_loop st0 done e st dm :
  Inner st0 done e 0 st dm → (e < number_of_elements g)%nat →
  (length done < number_of_elements g)%nat →
  ∃ st' dm',
    for_each (Rwg0.assign_slot g S0 ibd e) (seq 0 3) (st, dm) = Ok (st', dm') ∧
    Inner st0 done e 3 st' dm'.
Proof.
  intros H0 He Hd.
  destruct (inner_step _ _ _ _ _ _ H0) as (st1 & dm1 & E1 & H1); [lia|done|done|].
  destruct (inner_step _ _ _ _ _ _ H1) as (st2 & dm2 & E2 & H2); [lia|done|done|].
  destruct (inner_step _ _ _ _ _ _ H2) as (st3 & dm3 & E3 & H3); [lia|done|done|].
  exists st3, dm3. split; [|done]. change (seq 0 3) with [0; 1; 2]%nat.
  rewrite for_each_cons, E1, ok_bind.
  rewrite for_each_cons, E2, ok_bind.
  by rewrite for_each_cons, E3, ok_bind.
Qed.

Lemma inv_frame_done st0 st' done e :
  Inv done st0 → e ∉ done →
  extends st0 st' →
  (∀ e', e' ≠ e →
     Rwg0.local_multipliers st' !! e' = Rwg0.local_multipliers st0 !! e' ∧
     Rwg0.local2global_map st' !! e' = Rwg0.local2global_map st0 !! e') →
  (∀ e', e' ≠ e →
     e' ∈ Rwg0.delete_from_support st0 ↔ e' ∈ Rwg0.delete_from_support st') →
  ∀ e', e' ∈ done → elem_post st' e'.
Proof.
  intros HI He Hext Hrows Hdel e' He'.
  assert (e' ≠ e) as Hne by (intros ->; done).
  destruct (Hrows e' Hne) as [Hlm Hl2g].
  eapply elem_post_frame; eauto. by apply (inv_done _ _ HI).
Qed.

Lemma inner_finish st0 done e st dm :
  Inv done st0 → e ∉ done → (e < number_of_elements g)%nat →
  (length done < number_of_elements g)%nat →
  Inner st0 done e 3 st dm →
  ∃ st', Rwg0.finish_element st dm e = Ok st' ∧ Inv (done ++ [e]) st'.
Proof.
  intros HI0 He Hlt Hdone HI.
  destruct (in_row _ _ _ _ _ _ HI) as (row & Hrow & Hrowlen & Hslots & _).
  pose proof (in_dm_len _ _ _ _ _ _ HI) as Hdmlen.
  destruct (inv_fresh _ _ HI0 e He Hlt) as [_ Hl2g0].
  assert (Rwg0.local2global_map st !! e = Some [0; 0; 0]) as Hl2g.
  { by rewrite (in_l2g _ _ _ _ _ _ HI). }
  assert (∀ i m d, row !! i = Some m → dm !! i = Some d → slot_post st e i m d) as Hall.
  { intros i m d Hm Hd. destruct (Hslots i) as (m' & d' & ? & ? & ?); [|congruence].
    apply lookup_lt_Some in Hm. lia. }
  destruct (in_alloc _ _ _ _ _ _ HI) as ((Hc0 & Hcn) & Hedlen & Hedrange).
  assert (alloc_ok g st (3 * Z.of_nat (length (done ++ [e])))) as Halloc.
  { rewrite length_app. simpl. split_and!; try done; lia. }
  assert (∀ e', e' ∈ Rwg0.delete_from_support st → e' ∈ done) as Hdel.
  { rewrite (in_del _ _ _ _ _ _ HI). apply HI0. }
  pose proof (lookup_lt_Some _ _ _ Hrow) as Helm.
  pose proof (lookup_lt_Some _ _ _ Hl2g) as Hel2g.
  destruct (forallb (λ d, d =? -1) dm) eqn:Hfa.
  - assert (∀ i d, dm !! i = Some d → d = -1) as Hd1.
    { intros i d Hd. rewrite forallb_forall in Hfa. apply Z.eqb_eq, Hfa.
      apply list_elem_of_In. by eapply list_elem_of_lookup_2. }
    assert (ibd = false ∧ ∀ i m, row !! i = Some m → m = 0) as [Hibd Hm0].
    { assert (∀ i m, row !! i = Some m → m = 0 ∧ ibd = false) as Hm.
      { intros i m Hm. destruct (lookup_lt_is_Some_2 dm i) as [d Hd].
        { apply lookup_lt_Some in Hm. lia. }
        pose proof (Hd1 _ _ Hd) as ->.
        destruct (slot_post_cases _ _ _ _ _ (Hall _ _ _ Hm Hd)) as [(? & ? & ?)|[_ ?]];
          [done|lia]. }
      split; [|intros i m Him; by apply (Hm i m)].
      destruct row as [|m0 row]; [done|]. by apply (Hm 0%nat m0). }
    assert (row = [0; 0; 0]) as ->.
    { destruct row as [|m0 [|m1 [|m2 [|]]]]; try done.
      by rewrite (Hm0 0%nat m0), (Hm0 1%nat m1), (Hm0 2%nat m2). }
    eexists. split.
    { unfold Rwg0.finish_element. rewrite Hfa.
      rewrite (proj2 (getitem_Ok _ _ _) Hrow). simpl.
      rewrite setitem_lt by done. simpl.
      rewrite (proj2 (getitem_Ok _ _ _) Hl2g). simpl.
      rewrite setitem_lt by done. simpl. done. }
    constructor; simpl.
    + rewrite length_insert. rewrite (in_l2g _ _ _ _ _ _ HI). apply HI0.
    + rewrite length_insert. apply HI.
    + done.
    + intros e' He'. apply elem_of_app in He' as [He'|He'].
      * eapply (inv_frame_done st0 _ done e); eauto; simpl.
        -- apply HI.
        -- intros e'' Hne. rewrite !list_lookup_insert_ne by done.
           split; [by apply (in_lm_other _ _ _ _ _ _ HI)|].
           by rewrite (in_l2g _ _ _ _ _ _ HI).
        -- intros e'' Hne. rewrite (in_del _ _ _ _ _ _ HI), elem_of_app, list_elem_of_singleton.
           split; [by left|]. by intros [?|?].
      * apply list_elem_of_singleton in He' as ->.
        exists [0; 0; 0], dm. split_and!; try done.
        left. simpl. split_and!.
        -- apply Forall_forall. intros d Hd.
           apply list_elem_of_lookup in Hd as [i Hd]. by eapply Hd1.
        -- apply elem_of_app. right. by apply list_elem_of_singleton.
        -- by rewrite list_lookup_insert_eq.
        -- by rewrite list_lookup_insert_eq.
    + intros e' He' Hlt'. rewrite not_elem_of_app, list_elem_of_singleton in He'.
      destruct He' as [He'1 He'2].
      rewrite !list_lookup_insert_ne by done.
      rewrite (in_lm_other _ _ _ _ _ _ HI) by done.
      rewrite (in_l2g _ _ _ _ _ _ HI). by apply (inv_fresh _ _ HI0).
    + intros e' He'. rewrite elem_of_app in *. rewrite list_elem_of_singleton in *.
      destruct He' as [He'|He']; auto.
    + pose proof (in_perm _ _ _ _ _ _ HI) as Hp. rewrite Hibd in *.
      unfold boundary_ids in *. by rewrite !app_nil_r in *.
  - assert (∃ i m, row !! i = Some m ∧ m ≠ 0) as Hnz.
    { assert (¬ Forall (λ d, d = -1) dm) as Hnot.
      { intros HF. assert (forallb (λ d, d =? -1) dm = true); [|congruence].
        apply forallb_forall. intros d Hd. apply Z.eqb_eq.
        rewrite Forall_forall in HF. apply HF. by apply list_elem_of_In. }
      apply not_Forall_Exists in Hnot; [|intros d; apply _].
      apply Exists_exists in Hnot as (d & Hd & Hdne).
      apply list_elem_of_lookup in Hd as [i Hd].
      destruct (lookup_lt_is_Some_2 row i) as [m Hm].
      { apply lookup_lt_Some in Hd. lia. }
      exists i, m. split; [done|].
      destruct (slot_post_cases _ _ _ _ _ (Hall _ _ _ Hm Hd)) as [(? & ? & ?)|[[?|?] _]];
        [done|lia|lia]. }
    destruct (finish_row_spec row dm Hrowlen Hdmlen Hnz)
      as (f & df & mf & Hmin & Hfirst & Hdf & Hmf & Hmfnz & Hset).
    assert (0 ≤ df < Rwg0.count st) as Hdfr.
    { destruct (slot_post_cases _ _ _ _ _ (Hall _ _ _ Hmf Hdf)) as [(? & ? & ?)|[_ ?]];
        done. }
    assert (Rwg0.count st < 2 ^ 31) as Hc31.
    { destruct Hwf as [(_ & _ & _ & _ & Hsz) _]. lia. }
    assert (uint32 <$> alias_row row dm df = alias_row row dm df) as Hu.
    { apply list_eq. intros i. rewrite list_lookup_fmap.
      destruct (alias_row row dm df !! i) as [x|] eqn:Hx; [|done]. simpl. f_equal.
      apply uint32_small.
      assert (i < 3)%nat as Hi3.
      { apply lookup_lt_Some in Hx. unfold alias_row in Hx.
        rewrite length_zip_with in Hx. lia. }
      destruct (lookup_lt_is_Some_2 row i) as [m Hm]; [lia|].
      destruct (lookup_lt_is_Some_2 dm i) as [d Hd]; [lia|].
      rewrite (alias_row_lookup _ _ _ _ _ _ Hm Hd) in Hx. injection Hx as <-.
      destruct (Z.eqb_spec m 0) as [->|Hm0]; [lia|].
      destruct (slot_post_cases _ _ _ _ _ (Hall _ _ _ Hm Hd)) as [(? & ? & ?)|[_ ?]];
        [done|lia]. }
    eexists. split.
    { unfold Rwg0.finish_element. rewrite Hfa.
      rewrite (proj2 (getitem_Ok _ _ _) Hrow). simpl.
      rewrite Hmin. simpl.
      rewrite (proj2 (getitem_Ok _ _ _) Hdf). simpl.
      rewrite Hset. simpl. rewrite Hu.
      rewrite setitem_lt by done. simpl. done. }
    assert (e ∉ Rwg0.delete_from_support st) as Hnd by (intros Hin; by apply He, Hdel).
    constructor; simpl.
    + rewrite length_insert. rewrite (in_l2g _ _ _ _ _ _ HI). apply HI0.
    + apply HI.
    + done.
    + intros e' He'. apply elem_of_app in He' as [He'|He'].
      * eapply (inv_frame_done st0 _ done e); eauto; simpl.
        -- apply HI.
        -- intros e'' Hne. rewrite !list_lookup_insert_ne by done.
           split; [by apply (in_lm_other _ _ _ _ _ _ HI)|].
           by rewrite (in_l2g _ _ _ _ _ _ HI).
        -- intros e'' Hne. by rewrite (in_del _ _ _ _ _ _ HI).
      * apply list_elem_of_singleton in He' as ->.
        exists row, dm. split_and!; try done.
        right. exists f, df. simpl. split_and!; try done.
        by rewrite list_lookup_insert_eq.
    + intros e' He' Hlt'. rewrite not_elem_of_app, list_elem_of_singleton in He'.
      destruct He' as [He'1 He'2].
      rewrite !list_lookup_insert_ne by done.
      rewrite (in_lm_other _ _ _ _ _ _ HI) by done.
      rewrite (in_l2g _ _ _ _ _ _ HI). by apply (inv_fresh _ _ HI0).
    + intros e' He'. rewrite elem_of_app. left. by apply Hdel.
    + pose proof (in_perm _ _ _ _ _ _ HI) as Hp.
      rewrite boundary_ids_app, boundary_ids_insert_fresh by done.
      rewrite (in_l2g _ _ _ _ _ _ HI).
      replace (boundary_ids g S0 ibd
                 (<[e:=alias_row row dm df]> (Rwg0.local2global_map st0)) [e])
        with (if ibd then slot_ids g S0 e dm 3 else []); [done|].
      unfold boundary_ids.
      destruct (bool_cases ibd) as [Hibd|Hibd]; rewrite Hibd; [|done]. simpl.
      rewrite app_nil_r. unfold boundary_ids_of.
      rewrite list_lookup_insert_eq by (by rewrite <-(in_l2g _ _ _ _ _ _ HI)).
      simpl. f_equal. symmetry. apply alias_row_nonzero; [lia|].
      apply Forall_forall. intros m Hm.
      apply list_elem_of_lookup in Hm as [i Hm].
      destruct (lookup_lt_is_Some_2 dm i) as [d Hd].
      { apply lookup_lt_Some in Hm. lia. }
      destruct (slot_post_cases _ _ _ _ _ (Hall _ _ _ Hm Hd)) as [(? & ? & ?)|[[?|?] _]];
        [congruence|lia|lia].
Qed.

Lemma assign_element_inv st done e :
  Inv done st → e ∉ done → (e < number_of_elements g)%nat →
  (length done < number_of_elements g)%nat →
  ∃ st', Rwg0.assign_element g S0 ibd st e = Ok st' ∧ Inv (done ++ [e]) st'.
Proof.
  intros HI He Hlt Hdone.
  pose proof (inner_start _ _ _ HI He Hlt) as H0.
  destruct (inner_loop _ _ _ _ _ H0 Hlt Hdone) as (st3 & dm3 & Hloop & H3).
  destruct (inner_finish _ _ _ _ _ HI He Hlt Hdone H3) as (st' & Hfin & HI').
  exists st'. split; [|done].
  unfold Rwg0.assign_element. by rewrite Hloop, ok_bind.
Qed.

Lemma loop_inv rest : ∀ done st,
  Inv done st → NoDup (done ++ rest) →
  Forall (fun e => (e < number_of_elements g)%nat) rest →
  (length (done ++ rest) ≤ number_of_elements g)%nat →
  ∃ st', for_each (Rwg0.assign_element g S0 ibd) rest st = Ok st' ∧
         Inv (done ++ rest) st'.
Proof.
  induction rest as [|e rest IH]; intros done st HI Hnd Hlt Hlen.
  - exists st. rewrite app_nil_r. done.
  - apply Forall_cons in Hlt as [He Hrest].
    assert (e ∉ done) as Hfresh.
    { apply NoDup_app in Hnd as (_ & Hdis & _). intros Hin.
      apply (Hdis e Hin). by left. }
    rewrite length_app in Hlen. simpl in Hlen.
    destruct (assign_element_inv st done e HI Hfresh He) as (st1 & Hstep & HI1); [lia|].
    destruct (IH (done ++ [e]) st1 HI1) as (st' & Hloop & HI'); try done.
    + by rewrite <-app_assoc.
    + rewrite !length_app. simpl. lia.
    + exists st'. rewrite for_each_cons, Hstep, ok_bind.
      split; [done|]. by rewrite <-app_assoc in HI'.
Qed.

Lemma initial_inv : Inv [] (Rwg0.initial g).
Proof.
  constructor; simpl.
  - by rewrite length_replicate.
  - by rewrite length_replicate.
  - split_and!; simpl; [lia|lia|by rewrite length_replicate|].
    apply Forall_replicate. by left.
  - intros e He. by apply elem_of_nil in He.
  - intros e _ He. by rewrite lookup_replicate_2.
  - intros e He. by apply elem_of_nil in He.
  - change (int32 (-1)) with (-1). rewrite edge_ids_replicate.
    unfold boundary_ids. by destruct ibd.
Qed.

Lemma assign_dofs_inv :
  ∃ st, Rwg0.assign_dofs g S0 ibd = Ok st ∧ Inv (flatnonzero S0) st.
Proof.
  destruct Hwf as [_ HS].
  apply (loop_inv (flatnonzero S0) [] (Rwg0.initial g) initial_inv).
  - apply flatnonzero_NoDup.
  - apply Forall_forall. intros e He. apply flatnonzero_lt in He. lia.
  - simpl. rewrite <-HS. apply flatnonzero_from_length.
Qed.
End invariants.

(** ** The support after the loop *)

Lemma remove_deleted_spec (deleted : list nat) : ∀ support : list bool,
  Forall (fun e => (e < length support)%nat) deleted →
  ∃ s', Rwg0.remove_deleted support deleted = Ok s' ∧
        length s' = length support ∧
        ∀ e, s' !! e = Some true ↔ support !! e = Some true ∧ e ∉ deleted.
Proof.
  unfold Rwg0.remove_deleted.
  induction deleted as [|x deleted IH]; intros support Hlt.
  - exists support. split_and!; try done. intros e. rewrite elem_of_nil.
    split; [|by intros [? _]]. intros He. split; [done|]. by intros [].
  - apply Forall_cons in Hlt as [Hx Hlt].
    destruct (IH (<[x := false]> support)) as (s' & Hs' & Hlen & Hlook).
    { by rewrite length_insert. }
    exists s'. rewrite for_each_cons, setitem_lt, ok_bind by done.
    split; [done|]. split; [by rewrite Hlen, length_insert|].
    intros e. rewrite Hlook, not_elem_of_cons.
    destruct (decide (e = x)) as [->|Hne].
    + rewrite list_lookup_insert_eq by done. split.
      * by intros [? _].
      * by intros (_ & ? & _).
    + rewrite list_lookup_insert_ne by done. split.
      * by intros [? ?].
      * by intros (? & _ & ?).
Qed.

Lemma assigned_total g S0 ibd :
  wf_input g S0 →
  ∃ st s',
    assigned g S0 ibd st s' ∧
    Inv g S0 ibd (flatnonzero S0) st ∧
    length s' = number_of_elements g ∧
    ∀ e, s' !! e = Some true ↔
         S0 !! e = Some true ∧ e ∉ Rwg0.delete_from_support st.
Proof.
  intros Hwf. destruct (assign_dofs_inv g S0 ibd Hwf) as (st & Hst & HI).
  destruct (remove_deleted_spec (Rwg0.delete_from_support st) S0) as (s' & Hs' & Hlen & Hlook).
  { apply Forall_forall. intros e He. apply (inv_deleted _ _ _ _ _ HI) in He.
    by apply flatnonzero_lt. }
  exists st, s'. split_and!; try done.
  - split_and!; try done. intros nm. unfold Rwg0.init.
    rewrite Hst, ok_bind, Hs', ok_bind. done.
  - rewrite Hlen. apply Hwf.
Qed.

Lemma count_nonzero_0 (mask : list bool) :
  count_nonzero mask = 0%nat ↔ ∀ e, mask !! e ≠ Some true.
Proof.
  unfold count_nonzero. induction mask as [|b mask IH]; simpl.
  - split; [intros _ e; by rewrite lookup_nil|done].
  - rewrite filter_cons. destruct b.
    + rewrite decide_True by done. simpl. split; [lia|]. intros H.
      by specialize (H 0%nat).
    + rewrite decide_False by done. rewrite IH. split.
      * intros H [|e]; [done|]. apply H.
      * intros H e. apply (H (S e)).
Qed.

(** A kept element and its rows. *)
Lemma kept_rows g S0 ibd st (s' : list bool) e :
  Inv g S0 ibd (flatnonzero S0) st →
  (∀ e, s' !! e = Some true ↔
        S0 !! e = Some true ∧ e ∉ Rwg0.delete_from_support st) →
  s' !! e = Some true →
  ∃ ms ds f df,
    length ms = 3%nat ∧ length ds = 3%nat ∧
    (∀ i m d, ms !! i = Some m → ds !! i = Some d → slot_post g S0 ibd st e i m d) ∧
    first_nonzero ms = Some f ∧ ds !! f = Some df ∧
    Rwg0.local_multipliers st !! e = Some ms ∧
    Rwg0.local2global_map st !! e = Some (alias_row ms ds df).
Proof.
  intros HI Hlook He. apply Hlook in He as [He Hnd].
  apply elem_of_flatnonzero in He.
  destruct (inv_done _ _ _ _ _ HI e He) as (ms & ds & Hms & Hds & Hslots & Hcase).
  destruct Hcase as [(_ & Hin & _)|(f & df & Hf & Hdf & _ & Hlm & Hl2g)]; [done|].
  exists ms, ds, f, df. split_and!; done.
Qed.

Global Instance wf_grid_dec (g : Grid) : Decision (wf_grid g).
Proof. unfold wf_grid. apply _. Defined.

Global Instance wf_input_dec (g : Grid) (S0 : list bool) : Decision (wf_input g S0).
Proof. unfold wf_input. apply _. Defined.

Lemma wf_single_triangle : wf_input single_triangle [true].
Proof. by apply (bool_decide_unpack _). Qed.

Lemma wf_two_triangles : wf_input two_triangles [true; true].
Proof. by apply (bool_decide_unpack _). Qed.

Lemma wf_tetrahedron : wf_input tetrahedron [true; true; true; true].
Proof. by apply (bool_decide_unpack _). Qed.

(** * The constructor: empty support *)

(** C6.  On a well-formed grid the loop and the support update run to
    their end; the constructor then raises the empty-support [ValueError]
    when no element is left in the support, and returns a space carrying
    the reduced support when some element is.  Without boundary DOFs a
    support none of whose elements has a neighbour in the support across
    any of its edges (a single isolated triangle, say) ends up empty. *)
Theorem init_empty_support (g : Grid) (S0 : list bool) (ibd : bool) :
  wf_input g S0 →
  ∃ st s',
    Rwg0.assign_dofs g S0 ibd = Ok st ∧
    Rwg0.remove_deleted S0 (Rwg0.delete_from_support st) = Ok s' ∧
    (∀ nm, (∀ e, s' !! e ≠ Some true) →
       Rwg0.init g S0 nm ibd =
       Raise (ValueError "The support of the function space is empty.")) ∧
    (∀ nm, (∃ e, s' !! e = Some true) →
       ∃ sp, Rwg0.init g S0 nm ibd = Ok sp ∧ support sp = s') ∧
    (ibd = false → wf_adjacency g →
     (∀ e i, S0 !! e = Some true → (i < 3)%nat →
             neighbour_in_support g S0 e i = false) →
     ∀ e, s' !! e ≠ Some true).
Proof.
  intros Hwf.
  destruct (assigned_total g S0 ibd Hwf) as (st & s' & (Hst & Hs' & Hinit) & HI & Hlen & Hlook).
  exists st, s'. split_and!; try done.
  - intros nm H0. rewrite Hinit, decide_True; [done|]. by apply count_nonzero_0.
  - intros nm [e He]. rewrite Hinit, decide_False; [eauto|].
    rewrite count_nonzero_0. intros Hnone. by apply (Hnone e).
  - intros -> Hadj Hiso e He.
    destruct (kept_rows _ _ _ _ _ _ HI Hlook He)
      as (ms & ds & f & df & Hms & Hds & Hslots & Hf & Hdf & _).
    apply Hlook in He as [He _].
    apply first_nonzero_least in Hf as [(m & Hm & Hnz) _].
    assert (f < 3)%nat as Hf3 by (apply lookup_lt_Some in Hm; lia).
    assert (e < number_of_elements g)%nat as Hlt.
    { destruct Hwf as [_ <-]. by eapply lookup_lt_Some. }
    destruct (Hslots f m df Hm Hdf) as (edge & nbrs & other & Htopo & Hb & _).
    destruct (topology_neighbour _ _ _ _ _ _ _ Hadj Hlt Hf3 Htopo) as (_ & Hiff & _).
    destruct (decide (other = -1)) as [Ho|Ho].
    + destruct (Hb Ho) as [Hm0 _]. done.
    + apply Hiff in Ho. rewrite (Hiso e f He Hf3) in Ho. done.
Qed.

Global Instance slot_adjacency_ok_dec (g : Grid) (e i : nat) :
  Decision (slot_adjacency_ok g e i).
Proof.
  unfold slot_adjacency_ok.
  destruct (entry2 (element_edges g) i e ≫= (edge_neighbors g !!.)); apply _.
Defined.

Global Instance wf_adjacency_dec (g : Grid) : Decision (wf_adjacency g).
Proof. unfold wf_adjacency. apply _. Defined.

(** Both halves at work: the isolated triangle is rejected, the two
    triangles sharing an edge are accepted with both elements kept. *)
Lemma init_empty_support_witness :
  (∀ nm, Rwg0.init single_triangle [true] nm false =
         Raise (ValueError "The support of the function space is empty.")) ∧
  (∀ nm, ∃ sp, Rwg0.init two_triangles [true; true] nm false = Ok sp ∧
               support sp = [true; true]).
Proof.
  split.
  - destruct (init_empty_support single_triangle [true] false)
      as (st & s' & _ & _ & Hraise & _ & Hempty).
    { refine (bool_decide_unpack _ _). vm_compute. exact I. }
    intros nm. apply Hraise. apply Hempty.
    + reflexivity.
    + refine (bool_decide_unpack _ _). vm_compute. exact I.
    + intros [|e] [|[|[|i]]] He Hi; try lia; try discriminate He; reflexivity.
  - destruct (init_empty_support two_triangles [true; true] false)
      as (st & s' & Hst & Hs' & _ & Hok & _).
    { refine (bool_decide_unpack _ _). vm_compute. exact I. }
    vm_compute in Hst. injection Hst as <-.
    vm_compute in Hs'. injection Hs' as <-.
    intros nm. apply Hok. by exists 0%nat.
Defined.

(** Scenario 1 of the specification, evaluated. *)
Example single_triangle_is_rejected (nm : list Z) :
  Rwg0.init single_triangle [true] nm false =
  Raise (ValueError "The support of the function space is empty.").
Proof. vm_compute. reflexivity. Qed.

(** * The constructor: invariants of the DOF assignment *)

Lemma alias_row_range g S0 ibd st e ms ds f df i v :
  (∀ i m d, ms !! i = Some m → ds !! i = Some d → slot_post g S0 ibd st e i m d) →
  length ms = length ds →
  first_nonzero ms = Some f → ds !! f = Some df →
  alias_row ms ds df !! i = Some v →
  0 ≤ v < Rwg0.count st.
Proof.
  intros Hslots Hlen Hf Hdf Hv.
  apply first_nonzero_least in Hf as [(mf & Hmf & Hnz) _].
  assert (0 ≤ df < Rwg0.count st) as Hdfr.
  { destruct (slot_post_cases _ _ _ _ _ _ _ _ (Hslots _ _ _ Hmf Hdf)) as [(? & ? & ?)|[_ ?]];
      done. }
  assert (i < length ms)%nat as Hi.
  { apply lookup_lt_Some in Hv. unfold alias_row in Hv.
    rewrite length_zip_with in Hv. lia. }
  destruct (lookup_lt_is_Some_2 ms i) as [m Hm]; [lia|].
  destruct (lookup_lt_is_Some_2 ds i) as [d Hd]; [lia|].
  rewrite (alias_row_lookup _ _ _ _ _ _ Hm Hd) in Hv. injection Hv as <-.
  destruct (Z.eqb_spec m 0) as [->|Hm0]; [lia|].
  destruct (slot_post_cases _ _ _ _ _ _ _ _ (Hslots _ _ _ Hm Hd)) as [(? & ? & ?)|[_ ?]];
    [done|lia].
Qed.

Lemma count_bound g S0 ibd st :
  wf_input g S0 → Inv g S0 ibd (flatnonzero S0) st →
  0 ≤ Rwg0.count st < 2 ^ 31.
Proof.
  intros [(_ & _ & _ & _ & Hsz) HS] HI.
  destruct (inv_alloc _ _ _ _ _ HI) as ((Hc0 & Hcn) & _).
  pose proof (flatnonzero_from_length 0 S0) as Hl. fold (flatnonzero S0) in Hl. lia.
Qed.

(** C9.  With boundary DOFs requested, the loop marks no element for
    removal, the support comes back unchanged, and every slot of every
    element of the support has multiplier 1 or -1. *)
Theorem boundary_dofs_keep_support (g : Grid) (S0 : list bool) :
  wf_input g S0 →
  ∃ st,
    Rwg0.assign_dofs g S0 true = Ok st ∧
    Rwg0.delete_from_support st = [] ∧
    Rwg0.remove_deleted S0 (Rwg0.delete_from_support st) = Ok S0 ∧
    (∀ nm sp, Rwg0.init g S0 nm true = Ok sp →
       support sp = S0 ∧ local_multipliers sp = Rwg0.local_multipliers st) ∧
    ∀ e i, S0 !! e = Some true → (i < 3)%nat →
      getitem2 (Rwg0.local_multipliers st) e i = Ok 1 ∨
      getitem2 (Rwg0.local_multipliers st) e i = Ok (-1).
Proof.
  intros Hwf.
  destruct (assigned_total g S0 true Hwf)
    as (st & s' & (Hst & Hs' & Hinit) & HI & Hlen & Hlook).
  assert (Rwg0.delete_from_support st = []) as Hdel.
  { destruct (Rwg0.delete_from_support st) as [|x l] eqn:Hd; [done|]. exfalso.
    assert (x ∈ Rwg0.delete_from_support st) as Hx by (rewrite Hd; by left).
    pose proof (inv_deleted _ _ _ _ _ HI x Hx) as Hdone.
    destruct (inv_done _ _ _ _ _ HI x Hdone) as (ms & ds & Hms & Hds & Hslots & Hcase).
    destruct Hcase as [(Hall & _)|(f & df & _ & _ & Hnd & _)]; [|done].
    destruct (lookup_lt_is_Some_2 ms 0) as [m Hm]; [lia|].
    destruct (lookup_lt_is_Some_2 ds 0) as [d Hd0]; [lia|].
    pose proof (Forall_lookup_1 _ _ _ _ Hall Hd0) as Hd1. simpl in Hd1.
    destruct (slot_post_cases _ _ _ _ _ _ _ _ (Hslots _ _ _ Hm Hd0)) as [(? & ? & ?)|[_ ?]];
      [done|lia]. }
  rewrite Hdel in Hs'. assert (s' = S0) as -> by (by injection Hs').
  exists st. rewrite Hdel. split_and!; try done.
  - intros nm sp Hsp. rewrite Hinit in Hsp. case_decide; [done|].
    by injection Hsp as <-.
  - intros e i He Hi.
    destruct (kept_rows _ _ _ _ _ _ HI Hlook He)
      as (ms & ds & f & df & Hms & Hds & Hslots & Hf & Hdf & Hlm & _).
    destruct (lookup_lt_is_Some_2 ms i) as [m Hm]; [lia|].
    destruct (lookup_lt_is_Some_2 ds i) as [d Hd]; [lia|].
    assert (getitem2 (Rwg0.local_multipliers st) e i = Ok m) as ->.
    { apply getitem2_Ok. eauto. }
    destruct (slot_post_cases _ _ _ _ _ _ _ _ (Hslots _ _ _ Hm Hd)) as [(? & ? & ?)|[[->| ->] _]];
      [done|by left|by right].
Qed.

Lemma boundary_dofs_keep_support_witness :
  ∃ st,
    Rwg0.assign_dofs two_triangles [true; false] true = Ok st ∧
    Rwg0.delete_from_support st = [] ∧
    Rwg0.remove_deleted [true; false] (Rwg0.delete_from_support st)
      = Ok [true; false] ∧
    (∀ nm sp, Rwg0.init two_triangles [true; false] nm true = Ok sp →
       support sp = [true; false] ∧
       local_multipliers sp = Rwg0.local_multipliers st) ∧
    ∀ e i, [true; false] !! e = Some true → (i < 3)%nat →
      getitem2 (Rwg0.local_multipliers st) e i = Ok 1 ∨
      getitem2 (Rwg0.local_multipliers st) e i = Ok (-1).
Proof.
  apply (boundary_dofs_keep_support two_triangles [true; false]).
  refine (bool_decide_unpack _ _). vm_compute. exact I.
Defined.

(** C4.  After the loop and the support update: (1) an element left in
    the support has a nonzero multiplier; (2) an element whose multipliers
    are all zero is outside the support and its row of the local-to-global
    map is zero; (3) in an element of the support a slot with multiplier 0
    carries the id of the lowest-indexed slot with a nonzero multiplier;
    (4) every entry of the map is a DOF id below the count for elements of
    the support and 0 elsewhere, so the stored image of the sentinel -1
    does not occur. *)
Theorem kept_elements_have_dofs (g : Grid) (S0 : list bool) (ibd : bool) :
  wf_input g S0 →
  ∃ st s',
    assigned g S0 ibd st s' ∧
    (∀ e, s' !! e = Some true →
       ∃ i m, getitem2 (Rwg0.local_multipliers st) e i = Ok m ∧ m ≠ 0) ∧
    (∀ e ms, Rwg0.local_multipliers st !! e = Some ms →
       Forall (fun m => m = 0) ms →
       s' !! e = Some false ∧
       Rwg0.local2global_map st !! e = Some [0; 0; 0]) ∧
    (∀ e ms ls i, s' !! e = Some true →
       Rwg0.local_multipliers st !! e = Some ms →
       Rwg0.local2global_map st !! e = Some ls →
       ms !! i = Some 0 →
       ∃ f mf v, first_nonzero ms = Some f ∧
                 ms !! f = Some mf ∧ mf ≠ 0 ∧
                 (∀ j, (j < f)%nat → ms !! j = Some 0) ∧
                 ls !! f = Some v ∧ ls !! i = Some v) ∧
    (∀ e i v, getitem2 (Rwg0.local2global_map st) e i = Ok v →
       v ≠ uint32 (-1) ∧
       (s' !! e = Some true → 0 ≤ v < Rwg0.count st) ∧
       (s' !! e ≠ Some true → v = 0)).
Proof.
  intros Hwf.
  destruct (assigned_total g S0 ibd Hwf) as (st & s' & Has & HI & Hlen & Hlook).
  pose proof (count_bound _ _ _ _ Hwf HI) as Hcb.
  exists st, s'. split; [done|]. split_and!.
  - intros e He.
    destruct (kept_rows _ _ _ _ _ _ HI Hlook He)
      as (ms & ds & f & df & Hms & Hds & Hslots & Hf & Hdf & Hlm & _).
    apply first_nonzero_least in Hf as [(m & Hm & Hnz) _].
    exists f, m. split; [|done]. apply getitem2_Ok. eauto.
  - intros e ms Hms Hzero.
    pose proof (lookup_lt_Some _ _ _ Hms) as Hlt.
    rewrite (inv_lm_len _ _ _ _ _ HI) in Hlt.
    assert (s' !! e ≠ Some true ∧ Rwg0.local2global_map st !! e = Some [0; 0; 0])
      as [Hnt Hl2g].
    { destruct (decide (e ∈ flatnonzero S0)) as [Hin|Hnin].
      - destruct (inv_done _ _ _ _ _ HI e Hin) as (ms' & ds & _ & _ & _ & Hcase).
        destruct Hcase as [(_ & Hd & _ & Hl)|(f & df & Hf & _ & _ & Hlm & _)].
        + split; [|done]. rewrite Hlook. by intros [_ ?].
        + assert (ms' = ms) as -> by congruence.
          apply first_nonzero_least in Hf as [(m & Hm & Hnz) _].
          by pose proof (Forall_lookup_1 _ _ _ _ Hzero Hm).
      - destruct (inv_fresh _ _ _ _ _ HI e Hnin Hlt) as [_ Hl]. split; [|done].
        rewrite Hlook, <-elem_of_flatnonzero. by intros [? _]. }
    split; [|done].
    destruct (lookup_lt_is_Some_2 s' e) as [[|] Hb]; [lia|done|done].
  - intros e ms ls i He Hms Hls Hi.
    destruct (kept_rows _ _ _ _ _ _ HI Hlook He)
      as (ms' & ds & f & df & Hmslen & Hdslen & Hslots & Hf & Hdf & Hlm & Hl2g).
    assert (ms' = ms) as -> by congruence.
    assert (ls = alias_row ms ds df) as -> by congruence.
    destruct (first_nonzero_least _ _ Hf) as [(mf & Hmf & Hnz) Hleast].
    exists f, mf, df. split_and!; try done.
    + rewrite (alias_row_lookup _ _ _ _ _ _ Hmf Hdf).
      by destruct (Z.eqb_spec mf 0).
    + destruct (lookup_lt_is_Some_2 ds i) as [d Hd].
      { apply lookup_lt_Some in Hi. lia. }
      by rewrite (alias_row_lookup _ _ _ _ _ _ Hi Hd).
  - intros e i v Hv. apply getitem2_Ok in Hv as (ls & Hls & Hv).
    assert ((s' !! e = Some true → 0 ≤ v < Rwg0.count st) ∧
            (s' !! e ≠ Some true → v = 0)) as [H1 H2].
    { split.
      - intros He.
        destruct (kept_rows _ _ _ _ _ _ HI Hlook He)
          as (ms & ds & f & df & Hmslen & Hdslen & Hslots & Hf & Hdf & Hlm & Hl2g).
        assert (ls = alias_row ms ds df) as -> by congruence.
        eapply alias_row_range; eauto. lia.
      - intros Hne.
        pose proof (lookup_lt_Some _ _ _ Hls) as Hlt.
        rewrite (inv_l2g_len _ _ _ _ _ HI) in Hlt.
        assert (Rwg0.local2global_map st !! e = Some [0; 0; 0]) as Hz.
        { destruct (decide (e ∈ flatnonzero S0)) as [Hin|Hnin].
          - destruct (inv_done _ _ _ _ _ HI e Hin) as (ms' & ds & _ & _ & _ & Hcase).
            destruct Hcase as [(_ & _ & _ & Hl)|(f & df & _ & _ & Hnd & _)]; [done|].
            exfalso. apply Hne, Hlook. split; [|done]. by apply elem_of_flatnonzero.
          - by destruct (inv_fresh _ _ _ _ _ HI e Hnin Hlt). }
        assert (ls = [0; 0; 0]) as -> by congruence.
        destruct i as [|[|[|i]]]; simplify_eq/=; done. }
    split; [|done]. change (uint32 (-1)) with 4294967295.
    destruct (decide (s' !! e = Some true)) as [He|He].
    + specialize (H1 He). lia.
    + specialize (H2 He). lia.
Qed.

Lemma kept_elements_have_dofs_witness :
  ∃ st s',
    assigned two_triangles [true; true] false st s' ∧
    (∀ e, s' !! e = Some true →
       ∃ i m, getitem2 (Rwg0.local_multipliers st) e i = Ok m ∧ m ≠ 0) ∧
    (∀ e ms, Rwg0.local_multipliers st !! e = Some ms →
       Forall (fun m => m = 0) ms →
       s' !! e = Some false ∧
       Rwg0.local2global_map st !! e = Some [0; 0; 0]) ∧
    (∀ e ms ls i, s' !! e = Some true →
       Rwg0.local_multipliers st !! e = Some ms →
       Rwg0.local2global_map st !! e = Some ls →
       ms !! i = Some 0 →
       ∃ f mf v, first_nonzero ms = Some f ∧
                 ms !! f = Some mf ∧ mf ≠ 0 ∧
                 (∀ j, (j < f)%nat → ms !! j = Some 0) ∧
                 ls !! f = Some v ∧ ls !! i = Some v) ∧
    (∀ e i v, getitem2 (Rwg0.local2global_map st) e i = Ok v →
       v ≠ uint32 (-1) ∧
       (s' !! e = Some true → 0 ≤ v < Rwg0.count st) ∧
       (s' !! e ≠ Some true → v = 0)).
Proof.
  apply (kept_elements_have_dofs two_triangles [true; true] false).
  refine (bool_decide_unpack _ _). vm_compute. exact I.
Defined.

(** The slot of [a] on an edge shared with [b], both in the support. *)
Lemma shared_edge_topology g (S0 : list bool) a b k i nbrs :
  getitem2 (element_edges g) i a = Ok k →
  edge_neighbors g !! k = Some nbrs →
  nbrs = [a; b] ∨ nbrs = [b; a] →
  a ≠ b →
  S0 !! b = Some true →
  Rwg0.slot_topology g S0 a i = Ok (k, nbrs, Z.of_nat b).
Proof.
  intros Hk Hnb Hcase Hne Hb. unfold Rwg0.slot_topology.
  rewrite Hk, ok_bind. rewrite (proj2 (getitem_Ok _ _ _) Hnb), ok_bind.
  assert (Rwg0.find_other S0 a nbrs = Ok (Z.of_nat b)) as ->; [|done].
  unfold Rwg0.find_other.
  destruct Hcase as [-> | ->]; simpl.
  - rewrite decide_True by done. simpl.
    by rewrite (proj2 (getitem_Ok _ _ _) Hb).
  - rewrite decide_False by done. simpl.
    by rewrite (proj2 (getitem_Ok _ _ _) Hb).
Qed.

Lemma kept_in_initial_support (S0 : list bool) st (s' : list bool) e :
  (∀ e, s' !! e = Some true ↔
        S0 !! e = Some true ∧ e ∉ Rwg0.delete_from_support st) →
  s' !! e = Some true → S0 !! e = Some true.
Proof. intros Hlook He. by apply Hlook in He as [? _]. Qed.

(** What a kept element holds at a slot whose neighbour is in the
    support: the sign by the lowest adjacent index, and the id of the
    edge. *)
Lemma kept_interior_slot g S0 ibd st (s' : list bool) e i k nbrs other low :
  Inv g S0 ibd (flatnonzero S0) st →
  (∀ e, s' !! e = Some true ↔
        S0 !! e = Some true ∧ e ∉ Rwg0.delete_from_support st) →
  s' !! e = Some true → (i < 3)%nat →
  Rwg0.slot_topology g S0 e i = Ok (k, nbrs, other) → other ≠ -1 →
  py_min nbrs = Ok low →
  ∃ d, getitem2 (Rwg0.local_multipliers st) e i = Ok (sign_of e low) ∧
       getitem2 (Rwg0.local2global_map st) e i = Ok d ∧
       Rwg0.edge_dofs st !! k = Some d ∧ 0 ≤ d < Rwg0.count st.
Proof.
  intros HI Hlook He Hi Htopo Hother Hlow.
  destruct (kept_rows _ _ _ _ _ _ HI Hlook He)
    as (ms & ds & f & df & Hms & Hds & Hslots & Hf & Hdf & Hlm & Hl2g).
  destruct (lookup_lt_is_Some_2 ms i) as [m Hm]; [lia|].
  destruct (lookup_lt_is_Some_2 ds i) as [d Hd]; [lia|].
  destruct (Hslots i m d Hm Hd) as (k' & nbrs' & other' & Htopo' & _ & Hint).
  rewrite Htopo in Htopo'. injection Htopo' as <- <- <-.
  destruct (Hint Hother) as ((low' & Hlow' & ->) & Hed & Hdr).
  assert (low' = low) as -> by congruence.
  exists d. split; [|split; [|done]].
  - apply getitem2_Ok. eauto.
  - apply getitem2_Ok. exists (alias_row ms ds df). split; [done|].
    rewrite (alias_row_lookup _ _ _ _ _ _ Hm Hd).
    unfold sign_of. by case_decide.
Qed.

(** C2.  Let edge [k] have the two adjacent elements [a < b], at slot [i]
    of [a] and slot [j] of [b], both elements being in the support that
    the constructor ends with.  Then the multiplier is 1 at slot [i] of
    [a] and -1 at slot [j] of [b], and both slots carry one global DOF id,
    the one allocated to the edge. *)
Theorem shared_edge_opposite_signs (g : Grid) (S0 : list bool) (ibd : bool) :
  wf_input g S0 →
  ∃ st s',
    assigned g S0 ibd st s' ∧
    ∀ k a b i j,
      (a < b)%nat →
      edge_neighbors g !! k = Some [a; b] ∨ edge_neighbors g !! k = Some [b; a] →
      getitem2 (element_edges g) i a = Ok k →
      getitem2 (element_edges g) j b = Ok k →
      s' !! a = Some true → s' !! b = Some true →
      getitem2 (Rwg0.local_multipliers st) a i = Ok 1 ∧
      getitem2 (Rwg0.local_multipliers st) b j = Ok (-1) ∧
      ∃ d, getitem2 (Rwg0.local2global_map st) a i = Ok d ∧
           getitem2 (Rwg0.local2global_map st) b j = Ok d ∧
           Rwg0.edge_dofs st !! k = Some d ∧
           0 ≤ d < Rwg0.count st.
Proof.
  intros Hwf.
  destruct (assigned_total g S0 ibd Hwf) as (st & s' & Has & HI & Hlen & Hlook).
  exists st, s'. split; [done|].
  intros k a b i j Hab Hnb Hia Hjb Ha Hb.
  assert (∃ nbrs, edge_neighbors g !! k = Some nbrs ∧
                  (nbrs = [a; b] ∨ nbrs = [b; a])) as (nbrs & Hnbrs & Hcase).
  { destruct Hnb; eauto. }
  assert (py_min nbrs = Ok a) as Hlow.
  { destruct Hcase as [-> | ->]; simpl; f_equal; lia. }
  assert (∀ x (l : list (list nat)) r, getitem2 l x r = Ok k → (x < length l)%nat) as Hrow.
  { intros x l r Hx. apply getitem2_Ok in Hx as (row & Hrow & _).
    by eapply lookup_lt_Some. }
  assert (length (element_edges g) = 3%nat) as H3 by apply Hwf.
  pose proof (Hrow _ _ _ Hia) as Hi. pose proof (Hrow _ _ _ Hjb) as Hj.
  rewrite H3 in Hi, Hj.
  pose proof (kept_in_initial_support _ _ _ _ Hlook Ha) as Ha0.
  pose proof (kept_in_initial_support _ _ _ _ Hlook Hb) as Hb0.
  assert (Rwg0.slot_topology g S0 a i = Ok (k, nbrs, Z.of_nat b)) as Hta.
  { eapply shared_edge_topology; eauto. lia. }
  assert (Rwg0.slot_topology g S0 b j = Ok (k, nbrs, Z.of_nat a)) as Htb.
  { eapply shared_edge_topology; eauto; [|lia]. destruct Hcase; auto. }
  destruct (kept_interior_slot _ _ _ _ _ _ _ _ _ _ a HI Hlook Ha Hi Hta)
    as (d & Hma & Hla & Hed & Hdr); [lia|done|].
  destruct (kept_interior_slot _ _ _ _ _ _ _ _ _ _ a HI Hlook Hb Hj Htb)
    as (d' & Hmb & Hlb & Hed' & _); [lia|done|].
  assert (d' = d) as -> by congruence.
  unfold sign_of in Hma, Hmb.
  rewrite decide_True in Hma by done. rewrite decide_False in Hmb by lia.
  split_and!; try done. exists d. done.
Qed.

Lemma shared_edge_opposite_signs_witness :
  ∃ st s',
    assigned two_triangles [true; true] false st s' ∧
    ∀ k a b i j,
      (a < b)%nat →
      edge_neighbors two_triangles !! k = Some [a; b] ∨
      edge_neighbors two_triangles !! k = Some [b; a] →
      getitem2 (element_edges two_triangles) i a = Ok k →
      getitem2 (element_edges two_triangles) j b = Ok k →
      s' !! a = Some true → s' !! b = Some true →
      getitem2 (Rwg0.local_multipliers st) a i = Ok 1 ∧
      getitem2 (Rwg0.local_multipliers st) b j = Ok (-1) ∧
      ∃ d, getitem2 (Rwg0.local2global_map st) a i = Ok d ∧
           getitem2 (Rwg0.local2global_map st) b j = Ok d ∧
           Rwg0.edge_dofs st !! k = Some d ∧
           0 ≤ d < Rwg0.count st.
Proof.
  apply (shared_edge_opposite_signs two_triangles [true; true] false).
  refine (bool_decide_unpack _ _). vm_compute. exact I.
Defined.

(** Scenario 2 of the specification, evaluated. *)
Example two_triangles_shared_edge :
  dof_summary (Rwg0.init two_triangles [true; true] [1; 1] false)
  = Some (1, [[1; 0; 0]; [-1; 0; 0]], [[0; 0; 0]; [0; 0; 0]]).
Proof. vm_compute. reflexivity. Qed.

(** * The constructor: the ids that are handed out *)

(** C10.  When the loop ends, the ids held by the edges together with the
    ids held by the boundary slots are, up to order, 0, 1, ...,
    count - 1, each once: every allocation took the next integer and no
    id was handed out twice.  Hence every entry of the local-to-global
    map of an element of the final support is below the DOF count that
    the constructor returns. *)
Theorem dof_ids_contiguous (g : Grid) (S0 : list bool) (ibd : bool) :
  wf_input g S0 →
  ∃ st s',
    assigned g S0 ibd st s' ∧
    0 ≤ Rwg0.count st ∧
    edge_ids (Rwg0.edge_dofs st) ++
      boundary_ids g S0 ibd (Rwg0.local2global_map st) (flatnonzero S0)
      ≡ₚ seqZ 0 (Rwg0.count st) ∧
    (∀ e i v, s' !! e = Some true →
       getitem2 (Rwg0.local2global_map st) e i = Ok v →
       0 ≤ v < Rwg0.count st) ∧
    (∀ nm sp, Rwg0.init g S0 nm ibd = Ok sp →
       global_dof_count sp = Rwg0.count st ∧
       local2global sp = Rwg0.local2global_map st ∧
       support sp = s' ∧
       ∀ e i v, support sp !! e = Some true →
         getitem2 (local2global sp) e i = Ok v → 0 ≤ v < global_dof_count sp).
Proof.
  intros Hwf.
  destruct (assigned_total g S0 ibd Hwf) as (st & s' & Has & HI & Hlen & Hlook).
  pose proof (count_bound _ _ _ _ Hwf HI) as Hcb.
  assert (∀ e i v, s' !! e = Some true →
            getitem2 (Rwg0.local2global_map st) e i = Ok v →
            0 ≤ v < Rwg0.count st) as Hrange.
  { intros e i v He Hv. apply getitem2_Ok in Hv as (ls & Hls & Hv).
    destruct (kept_rows _ _ _ _ _ _ HI Hlook He)
      as (ms & ds & f & df & Hmslen & Hdslen & Hslots & Hf & Hdf & Hlm & Hl2g).
    assert (ls = alias_row ms ds df) as -> by congruence.
    eapply alias_row_range; eauto. lia. }
  exists st, s'. split; [done|]. split; [lia|]. split; [apply HI|]. split; [done|].
  intros nm sp Hsp. destruct Has as (_ & _ & Hinit). rewrite Hinit in Hsp.
  case_decide; [done|]. injection Hsp as <-. simpl. done.
Qed.

Lemma dof_ids_contiguous_witness :
  ∃ st s',
    assigned two_triangles [true; true] true st s' ∧
    0 ≤ Rwg0.count st ∧
    edge_ids (Rwg0.edge_dofs st) ++
      boundary_ids two_triangles [true; true] true (Rwg0.local2global_map st)
        (flatnonzero [true; true])
      ≡ₚ seqZ 0 (Rwg0.count st) ∧
    (∀ e i v, s' !! e = Some true →
       getitem2 (Rwg0.local2global_map st) e i = Ok v →
       0 ≤ v < Rwg0.count st) ∧
    (∀ nm sp, Rwg0.init two_triangles [true; true] nm true = Ok sp →
       global_dof_count sp = Rwg0.count st ∧
       local2global sp = Rwg0.local2global_map st ∧
       support sp = s' ∧
       ∀ e i v, support sp !! e = Some true →
         getitem2 (local2global sp) e i = Ok v → 0 ≤ v < global_dof_count sp).
Proof.
  apply (dof_ids_contiguous two_triangles [true; true] true).
  refine (bool_decide_unpack _ _). vm_compute. exact I.
Defined.

(** Scenario 3 of the specification, evaluated: one DOF for the shared
    edge and one for each of the four boundary edges. *)
Example two_triangles_boundary_dofs :
  dof_summary (Rwg0.init two_triangles [true; true] [1; 1] true)
  = Some (5, [[1; 1; 1]; [-1; 1; 1]], [[0; 1; 2]; [0; 3; 4]]).
Proof. vm_compute. reflexivity. Qed.

(** ** Closed grids *)

Lemma find_other_full (n e : nat) (nb : list nat) (other : Z) :
  length nb = 2%nat →
  Rwg0.find_other (replicate n true) e nb = Ok other → other ≠ -1.
Proof.
  intros Hlen. destruct nb as [|x [|y [|]]]; try done.
  unfold Rwg0.find_other. simpl. intros H.
  apply bind_Ok in H as (o & Ho & H).
  apply bind_Ok in H as (inside & Hin & H).
  apply getitem_Ok in Hin. apply lookup_replicate in Hin as [-> _].
  injection H as <-. lia.
Qed.

Lemma edge_ids_all (ed : list Z) : Forall (fun d => d ≠ -1) ed → edge_ids ed = ed.
Proof.
  unfold edge_ids. induction 1 as [|d ed Hd _ IH]; [done|].
  by rewrite filter_cons_True, IH.
Qed.

(** C5.  On a closed grid (every edge with exactly two adjacent
    elements), with every element in the support and no boundary DOFs, the
    loop ends with a count equal to the number of edges, and the ids of
    the edges are 0 .. number_of_edges - 1, each edge holding one and no
    two edges the same.  When the grid has an element the constructor
    returns a space with that DOF count. *)
Theorem closed_grid_dof_count (g : Grid) :
  wf_grid g → closed_grid g →
  ∃ st s',
    assigned g (replicate (number_of_elements g) true) false st s' ∧
    Rwg0.count st = Z.of_nat (number_of_edges g) ∧
    Rwg0.edge_dofs st ≡ₚ seqZ 0 (Z.of_nat (number_of_edges g)) ∧
    ((0 < number_of_elements g)%nat → ∀ nm, ∃ sp,
       Rwg0.init g (replicate (number_of_elements g) true) nm false = Ok sp ∧
       global_dof_count sp = Z.of_nat (number_of_edges g)).
Proof.
  intros Hwfg Hclosed.
  set (S0 := replicate (number_of_elements g) true).
  assert (wf_input g S0) as Hwf.
  { split; [done|]. unfold S0. by rewrite length_replicate. }
  destruct (assigned_total g S0 false Hwf) as (st & s' & Has & HI & Hlen & Hlook).
  pose proof (count_bound _ _ _ _ Hwf HI) as Hcb.
  assert (∀ e, (e < number_of_elements g)%nat → S0 !! e = Some true) as Hfull.
  { intros e He. unfold S0. by apply lookup_replicate_2. }
  (* every slot of every element sees a neighbour in the support *)
  assert (∀ e i m d, (e < number_of_elements g)%nat →
            slot_post g S0 false st e i m d →
            ∃ k, getitem2 (element_edges g) i e = Ok k ∧
                 Rwg0.edge_dofs st !! k = Some d ∧ 0 ≤ d) as Hint.
  { intros e i m d He (k & nb & other & Htopo & _ & Hi).
    destruct (slot_topology_inv _ _ _ _ _ _ _ Htopo) as (Hk & Hnb & Hother).
    destruct (Hclosed k nb Hnb) as [Hlen2 _].
    pose proof (find_other_full _ _ _ _ Hlen2 Hother) as Hne.
    destruct (Hi Hne) as (_ & Hed & Hd). exists k. split_and!; [done|done|lia]. }
  assert (∀ e, (e < number_of_elements g)%nat →
            ∃ ms ds, length ms = 3%nat ∧ length ds = 3%nat ∧
              (∀ i m d, ms !! i = Some m → ds !! i = Some d →
                        slot_post g S0 false st e i m d) ∧
              e ∉ Rwg0.delete_from_support st) as Helem.
  { intros e He.
    assert (e ∈ flatnonzero S0) as Hin by (apply elem_of_flatnonzero; auto).
    destruct (inv_done _ _ _ _ _ HI e Hin) as (ms & ds & Hms & Hds & Hslots & Hcase).
    exists ms, ds. split_and!; try done.
    destruct Hcase as [(Hall & _)|(f & df & _ & _ & Hnd & _)]; [|done].
    destruct (lookup_lt_is_Some_2 ms 0) as [m Hm]; [lia|].
    destruct (lookup_lt_is_Some_2 ds 0) as [d Hd0]; [lia|].
    pose proof (Forall_lookup_1 _ _ _ _ Hall Hd0) as Hd1. simpl in Hd1.
    destruct (Hint e 0%nat m d He (Hslots _ _ _ Hm Hd0)) as (_ & _ & _ & ?). lia. }
  (* every edge has its id *)
  destruct Hwfg as (Hrows & Hee & Hnblen & Hnb & Hsz).
  destruct (inv_alloc _ _ _ _ _ HI) as (_ & Hedlen & _).
  assert (Forall (fun d => d ≠ -1) (Rwg0.edge_dofs st)) as Hall.
  { apply Forall_lookup. intros k d Hd.
    pose proof (lookup_lt_Some _ _ _ Hd) as Hk. rewrite Hedlen, <-Hnblen in Hk.
    destruct (lookup_lt_is_Some_2 _ _ Hk) as [nb Hnbk].
    destruct (Hclosed k nb Hnbk) as [Hlen2 Hslots].
    destruct nb as [|x nb]; [done|].
    destruct (Hslots x) as (i & Hi & Hix); [by left|].
    pose proof (Forall_lookup_1 _ _ _ _ Hnb Hnbk) as [_ Hlt].
    apply Forall_cons in Hlt as [Hx _].
    destruct (Helem x Hx) as (ms & ds & Hms & Hds & Hsl & _).
    destruct (lookup_lt_is_Some_2 ms i) as [m Hm]; [lia|].
    destruct (lookup_lt_is_Some_2 ds i) as [d' Hd']; [lia|].
    destruct (Hint x i m d' Hx (Hsl _ _ _ Hm Hd')) as (k' & Hk' & Hed & Hpos).
    assert (k' = k) as -> by congruence.
    assert (d' = d) as -> by congruence. lia. }
  pose proof (inv_perm _ _ _ _ _ HI) as Hperm.
  rewrite edge_ids_all in Hperm by done.
  unfold boundary_ids in Hperm. rewrite app_nil_r in Hperm.
  assert (Rwg0.count st = Z.of_nat (number_of_edges g)) as Hcount.
  { apply Permutation_length in Hperm. rewrite length_seqZ, Hedlen in Hperm. lia. }
  exists st, s'. split; [done|]. split; [done|]. split; [by rewrite <-Hcount|].
  intros Hpos nm. destruct Has as (_ & _ & Hinit). rewrite Hinit.
  rewrite decide_False; [eauto|].
  rewrite count_nonzero_0. intros Hnone. apply (Hnone 0%nat), Hlook.
  split; [by apply Hfull|]. by destruct (Helem 0%nat Hpos) as (_ & _ & _ & _ & _ & ?).
Qed.

Lemma closed_tetrahedron : closed_grid tetrahedron.
Proof.
  intros k nb Hk.
  assert (∀ e (l : list nat), e ∈ l → In e l) as Hin.
  { intros e l. apply list_elem_of_In. }
  destruct k as [|[|[|[|[|[|k]]]]]]; simpl in Hk; simplify_eq; (split; [done|]);
    intros e He; apply Hin in He; simpl in He;
    destruct He as [<-|[<-|[]]];
    first [ exists 0%nat; split; [lia|reflexivity]
          | exists 1%nat; split; [lia|reflexivity]
          | exists 2%nat; split; [lia|reflexivity] ].
Qed.

Lemma closed_grid_dof_count_witness :
  ∃ st s',
    assigned tetrahedron (replicate (number_of_elements tetrahedron) true) false st s' ∧
    Rwg0.count st = Z.of_nat (number_of_edges tetrahedron) ∧
    Rwg0.edge_dofs st ≡ₚ seqZ 0 (Z.of_nat (number_of_edges tetrahedron)) ∧
    ((0 < number_of_elements tetrahedron)%nat → ∀ nm, ∃ sp,
       Rwg0.init tetrahedron (replicate (number_of_elements tetrahedron) true) nm false
         = Ok sp ∧
       global_dof_count sp = Z.of_nat (number_of_edges tetrahedron)).
Proof.
  apply (closed_grid_dof_count tetrahedron).
  - refine (bool_decide_unpack _ _). vm_compute. exact I.
  - exact closed_tetrahedron.
Defined.

(** * The sparse assembler *)

(** ** Blocks of the result buffer *)

Lemma fmap_bind_list {A B C : Type} (f : B -> C) (g : A -> list B) (l : list A) :
  f <$> (l ≫= g) = l ≫= (fun x => f <$> g x).
Proof.
  induction l as [|x l IH]; [done|].
  by rewrite !bind_cons, fmap_app, IH.
Qed.

Lemma replicate_bind_seq {A : Type} (k start : nat) (x : A) :
  replicate k x = (seq start k ≫= fun _ => [x]).
Proof.
  revert start. induction k as [|k IH]; intros start; [done|].
  simpl. f_equal. apply IH.
Qed.

Lemma np_tile_bind_seq {A : Type} (X : list A) (k start : nat) :
  np_tile X k = (seq start k ≫= fun _ => X).
Proof.
  unfold np_tile. revert start. induction k as [|k IH]; intros start; [done|].
  simpl. f_equal. apply IH.
Qed.

Lemma length_bind_const {A B : Type} (f : A -> list B) (n : nat) (l : list A) :
  (∀ x, length (f x) = n) → length (l ≫= f) = (length l * n)%nat.
Proof.
  intros Hf. induction l as [|x l IH]; [done|].
  rewrite bind_cons, length_app, Hf, IH. simpl. lia.
Qed.

(** In a concatenation of blocks of one length [n], entry [p * n + q] is
    entry [q] of block [p]. *)
Lemma lookup_bind_block {A B : Type} (f : A -> list B) (n : nat) (l : list A) (p q : nat) :
  (∀ x, length (f x) = n) → (q < n)%nat →
  (l ≫= f) !! (p * n + q)%nat = l !! p ≫= fun x => f x !! q.
Proof.
  intros Hf Hq. revert p. induction l as [|x l IH]; intros p.
  - by rewrite lookup_nil.
  - rewrite bind_cons. destruct p as [|p]; simpl.
    + rewrite lookup_app_l by (rewrite Hf; lia). done.
    + rewrite lookup_app_r by (rewrite Hf; lia). rewrite Hf.
      replace (n + p * n + q - n)%nat with (p * n + q)%nat by lia. apply IH.
Qed.

Lemma np_add_tile_repeat (X els : list Z) (k : nat) :
  length X = k →
  np_add (np_tile X (length els)) (np_repeat els k)
  = (els ≫= fun e => (fun x => x + e) <$> X).
Proof.
  intros HX. induction els as [|e els IH]; [done|].
  change (np_tile X (length (e :: els))) with (X ++ np_tile X (length els)).
  change (np_repeat (e :: els) k) with (replicate k e ++ np_repeat els k).
  unfold np_add in *. rewrite bind_cons.
  rewrite zip_with_app by (by rewrite length_replicate).
  rewrite IH. f_equal. rewrite zip_with_replicate_r_eq by done. done.
Qed.

Lemma index_arrays_blocks (elements : list Z) (ntest ntrial : nat) :
  index_arrays elements ntest ntrial =
  ((fun '(e, i, j) => Z.of_nat i + uint32 (e * Z.of_nat ntest))
     <$> block_index elements ntest ntrial,
   (fun '(e, i, j) => Z.of_nat j + uint32 (e * Z.of_nat ntrial))
     <$> block_index elements ntest ntrial).
Proof.
  unfold index_arrays, block_index, arange.
  assert (np_repeat (Z.of_nat <$> seq 0 ntest) ntrial
          = (seq 0 ntest ≫= fun i => seq 0 ntrial ≫= fun _ => [Z.of_nat i])) as HX.
  { unfold np_repeat. rewrite list_fmap_bind. apply list_bind_ext; [|done].
    intros i. simpl. apply replicate_bind_seq. }
  assert (np_tile (Z.of_nat <$> seq 0 ntrial) ntest
          = (seq 0 ntest ≫= fun _ => seq 0 ntrial ≫= fun j => [Z.of_nat j])) as HY.
  { rewrite (np_tile_bind_seq _ _ 0). apply list_bind_ext; [|done].
    intros _. induction (seq 0 ntrial) as [|j l IH]; [done|].
    rewrite fmap_cons, bind_cons. simpl. by f_equal. }
  f_equal.
  - rewrite <-(length_fmap (fun e => uint32 (e * Z.of_nat ntest)) elements) at 1.
    rewrite np_add_tile_repeat.
    2:{ rewrite HX. rewrite (length_bind_const _ ntrial), length_seq; [done|].
        intros i. rewrite (length_bind_const _ 1), length_seq; [lia|done]. }
    rewrite list_fmap_bind, HX, fmap_bind_list. apply list_bind_ext; [|done].
    intros e. simpl. rewrite !fmap_bind_list. apply list_bind_ext; [|done].
    intros i. rewrite !fmap_bind_list. apply list_bind_ext; [|done]. done.
  - rewrite <-(length_fmap (fun e => uint32 (e * Z.of_nat ntrial)) elements) at 1.
    rewrite np_add_tile_repeat.
    2:{ rewrite HY. rewrite (length_bind_const _ ntrial), length_seq; [done|].
        intros i. rewrite (length_bind_const _ 1), length_seq; [lia|done]. }
    rewrite list_fmap_bind, HY, fmap_bind_list. apply list_bind_ext; [|done].
    intros e. simpl. rewrite !fmap_bind_list. apply list_bind_ext; [|done].
    intros i. rewrite !fmap_bind_list. apply list_bind_ext; [|done]. done.
Qed.

Lemma bind_singleton_fmap {A B : Type} (g : A -> B) (l : list A) :
  (l ≫= fun x => [g x]) = g <$> l.
Proof. induction l as [|x l IH]; [done|]. rewrite bind_cons, fmap_cons. by f_equal. Qed.

Lemma length_block_index {A : Type} (elements : list A) (ntest ntrial : nat) :
  length (block_index elements ntest ntrial) = (length elements * (ntest * ntrial))%nat.
Proof.
  unfold block_index. apply length_bind_const. intros e.
  rewrite (length_bind_const _ ntrial), length_seq; [done|].
  intros i. by rewrite bind_singleton_fmap, length_fmap, length_seq.
Qed.

Lemma lookup_block_index {A : Type} (elements : list A) (ntest ntrial p i j : nat) (e : A) :
  elements !! p = Some e → (i < ntest)%nat → (j < ntrial)%nat →
  block_index elements ntest ntrial !! (p * (ntest * ntrial) + (i * ntrial + j))%nat
  = Some (e, i, j).
Proof.
  intros He Hi Hj. unfold block_index.
  assert (∀ (e' : A) (i' : nat),
            length (seq 0 ntrial ≫= fun j' => [(e', i', j')]) = ntrial) as Hin.
  { intros e' i'. by rewrite bind_singleton_fmap, length_fmap, length_seq. }
  rewrite (lookup_bind_block _ (ntest * ntrial)).
  - rewrite He. simpl. rewrite (lookup_bind_block _ ntrial) by done.
    rewrite lookup_seq_lt by done. simpl.
    rewrite bind_singleton_fmap, list_lookup_fmap, lookup_seq_lt by done. done.
  - intros e'. rewrite (length_bind_const _ ntrial), length_seq; done.
  - nia.
Qed.

(** ** The common elements of two supports *)

Lemma np_multiply_same_length (a b : list bool) :
  length a = length b → np_multiply a b = Ok (zip_with andb a b).
Proof. intros Hlen. unfold np_multiply. by rewrite decide_True. Qed.

Lemma np_multiply_raise (a b : list bool) (e : exn) :
  np_multiply a b = Raise e →
  length a ≠ length b ∧ e = ValueError (broadcast_message (length a) (length b)).
Proof.
  unfold np_multiply. case_decide as Hlen; [done|]. intros H. split; [done|].
  destruct a as [|x [|x' a]], b as [|y [|y' b]]; simpl in *; congruence.
Qed.

Lemma lookup_zip_andb (a b : list bool) (e : nat) :
  zip_with andb a b !! e = Some true ↔ a !! e = Some true ∧ b !! e = Some true.
Proof.
  rewrite lookup_zip_with_Some. split.
  - intros (x & y & Hxy & Hx & Hy). symmetry in Hxy.
    apply andb_true_iff in Hxy as [-> ->]. done.
  - intros [Hx Hy]. by exists true, true.
Qed.

Lemma common_elements_flatnonzero (a b : list bool) :
  length a = length b →
  flatnonzero (zip_with andb a b) = common_elements a b.
Proof.
  intros Hlen. rewrite flatnonzero_members. unfold members, common_elements.
  rewrite length_zip_with, <- Hlen, Nat.min_id.
  apply filter_ext_in. intros e _. apply lookup_zip_andb.
Qed.

Lemma elem_of_common_elements (a b : list bool) (e : nat) :
  e ∈ common_elements a b ↔ a !! e = Some true ∧ b !! e = Some true.
Proof.
  unfold common_elements. rewrite list_elem_of_filter, elem_of_seq. split.
  - by intros [? _].
  - intros [Ha Hb]. split; [done|]. apply lookup_lt_Some in Ha. lia.
Qed.

Lemma active_elements_common (domain dual_to_range : LocalisedSpace) :
  length (ls_support domain) = length (ls_support dual_to_range) →
  active_elements domain dual_to_range
  = Ok ((fun e => uint32 (Z.of_nat e)) <$>
        common_elements (ls_support domain) (ls_support dual_to_range)).
Proof.
  intros Hlen. unfold active_elements.
  by rewrite (np_multiply_same_length _ _ Hlen), ok_bind, common_elements_flatnonzero.
Qed.

Lemma active_elements_raise (domain dual_to_range : LocalisedSpace) (e : exn) :
  active_elements domain dual_to_range = Raise e →
  length (ls_support domain) ≠ length (ls_support dual_to_range) ∧
  e = ValueError (broadcast_message (length (ls_support domain))
                    (length (ls_support dual_to_range))).
Proof.
  unfold active_elements.
  destruct (np_multiply (ls_support domain) (ls_support dual_to_range)) as [mask|e']
    eqn:Hmul; [done|].
  intros [= <-]. by apply np_multiply_raise.
Qed.

(** ** What [_prepare_buffers] and [assemble_sparse] return *)

Lemma invalid_buffer_size_device_error : device_error invalid_buffer_size.
Proof. by eexists. Qed.

Lemma ready_device_accepts : accepts_every_call ready_device.
Proof. by intros log c. Qed.

Lemma call_inv (c : device_call) (device : Device) (log log1 : list device_call)
    (r : result unit) :
  call c device log = (r, log1) →
  (r = Ok tt ∧ log1 = log ++ [c] ∧ device log c = None) ∨
  (∃ e, r = Raise (ClError e) ∧ log1 = log ∧ device log c = Some e).
Proof.
  unfold call. destruct (device log c) as [e|]; intros [= <- <-].
  - right. by exists e.
  - by left.
Qed.

Lemma from_array_inv (array : string) (size : nat) (device : Device)
    (log log1 : list device_call) (r : result unit) :
  from_array array size device log = (r, log1) →
  (r = Ok tt ∧ size ≠ 0%nat ∧ log1 = log ++ [BufferFromArray array size]) ∨
  (∃ e, r = Raise e ∧ device_error e ∧ log1 = log).
Proof.
  unfold from_array. destruct (decide (size = 0%nat)) as [->|Hs].
  - intros [= <- <-]. right. eexists. split; [done|].
    split; [apply invalid_buffer_size_device_error|done].
  - intros H. apply call_inv in H as [(-> & -> & _)|(e & -> & -> & _)].
    + by left.
    + right. eexists. split; [done|]. split; [by eexists|done].
Qed.

Lemma device_buffer_inv (size : nat) (device : Device)
    (log log1 : list device_call) (r : result unit) :
  device_buffer size device log = (r, log1) →
  (r = Ok tt ∧ size ≠ 0%nat ∧ log1 = log ++ [BufferAlloc size]) ∨
  (∃ e, r = Raise e ∧ device_error e ∧ log1 = log).
Proof.
  unfold device_buffer. destruct (decide (size = 0%nat)) as [->|Hs].
  - intros [= <- <-]. right. eexists. split; [done|].
    split; [apply invalid_buffer_size_device_error|done].
  - intros H. apply call_inv in H as [(-> & -> & _)|(e & -> & -> & _)].
    + by left.
    + right. eexists. split; [done|]. split; [by eexists|done].
Qed.

Lemma dev_bind_inv {A B : Type} (m : Dev A) (f : A -> Dev B) (device : Device)
    (log log2 : list device_call) (r : result B) :
  dev_bind m f device log = (r, log2) →
  (∃ a log1, m device log = (Ok a, log1) ∧ f a device log1 = (r, log2)) ∨
  (∃ e, m device log = (Raise e, log2) ∧ r = Raise e).
Proof.
  unfold dev_bind. destruct (m device log) as [[a|e] log1].
  - intros H. left. by exists a, log1.
  - intros [= <- <-]. right. by exists e.
Qed.

Lemma dev_bind_raise {A B : Type} (m : Dev A) (f : A -> Dev B) (device : Device)
    (log log2 : list device_call) (e : exn) :
  dev_bind m f device log = (Raise e, log2) →
  (∃ a log1, m device log = (Ok a, log1) ∧ f a device log1 = (Raise e, log2)) ∨
  m device log = (Raise e, log2).
Proof.
  intros H. apply dev_bind_inv in H as [H|(e' & H & [= ->])]; [by left|by right].
Qed.

Lemma call_raise (c : device_call) (device : Device) (log log1 : list device_call)
    (e : exn) :
  call c device log = (Raise e, log1) → device_error e.
Proof.
  intros H. apply call_inv in H as [(? & _)|(c' & [= ->] & _)]; [done|by eexists].
Qed.

Lemma from_array_raise (array : string) (size : nat) (device : Device)
    (log log1 : list device_call) (e : exn) :
  from_array array size device log = (Raise e, log1) → device_error e.
Proof.
  intros H. by apply from_array_inv in H as [(? & _)|(e' & [= ->] & ? & _)].
Qed.

Lemma device_buffer_raise (size : nat) (device : Device)
    (log log1 : list device_call) (e : exn) :
  device_buffer size device log = (Raise e, log1) → device_error e.
Proof.
  intros H. by apply device_buffer_inv in H as [(? & _)|(e' & [= ->] & ? & _)].
Qed.

Lemma from_array_ready (array : string) (size : nat) (device : Device)
    (log : list device_call) :
  accepts_every_call device → size ≠ 0%nat →
  from_array array size device log = (Ok tt, log ++ [BufferFromArray array size]).
Proof.
  intros Hdev Hs. unfold from_array, call. by rewrite decide_False, Hdev.
Qed.

Lemma device_buffer_ready (size : nat) (device : Device) (log : list device_call) :
  accepts_every_call device → size ≠ 0%nat →
  device_buffer size device log = (Ok tt, log ++ [BufferAlloc size]).
Proof.
  intros Hdev Hs. unfold device_buffer, call. by rewrite decide_False, Hdev.
Qed.

Lemma call_ready (c : device_call) (device : Device) (log : list device_call) :
  accepts_every_call device → call c device log = (Ok tt, log ++ [c]).
Proof. intros Hdev. unfold call. by rewrite Hdev. Qed.

Lemma prepare_buffers_ok (domain dual_to_range : LocalisedSpace) (nquad : nat)
    (elements : list Z) (device : Device) (log : list device_call) :
  accepts_every_call device →
  active_elements domain dual_to_range = Ok elements → elements ≠ [] →
  buffers_nonempty nquad domain dual_to_range →
  ∃ log',
    _prepare_buffers domain dual_to_range nquad device log
    = (Ok (length elements *
           (ls_number_of_shape_functions domain *
            ls_number_of_shape_functions dual_to_range))%nat, log ++ log').
Proof.
  intros Hdev Hact Hne (Hq & Hd & Hr & Hnr & Hnd).
  assert (length elements ≠ 0%nat) as Hl by (by destruct elements).
  assert (length (ls_normal_multipliers dual_to_range) ≠ 0%nat) as Hlr
    by (by destruct (ls_normal_multipliers dual_to_range)).
  assert (length (ls_normal_multipliers domain) ≠ 0%nat) as Hld
    by (by destruct (ls_normal_multipliers domain)).
  unfold _prepare_buffers, dev_bind, lift, dev_ret.
  rewrite (from_array_ready "quad_points") by (done || lia).
  rewrite (from_array_ready "quad_weights") by done.
  rewrite call_ready by done. rewrite Hact.
  rewrite (from_array_ready "elements") by done.
  rewrite device_buffer_ready by (done || nia).
  rewrite (from_array_ready "test_normal_signs") by done.
  rewrite (from_array_ready "trial_normal_signs") by done.
  rewrite <- !app_assoc. eexists. reflexivity.
Qed.

(** Taking one step of a run of device calls apart: the run goes on
    after a call that succeeded, and a call that failed ends it. *)
Ltac dev_step H :=
  apply dev_bind_inv in H as [(? & ? & ?Hstep & H)|(? & ?Hstep & ?)].

Lemma prepare_buffers_inv (domain dual_to_range : LocalisedSpace) (nquad n : nat)
    (device : Device) (log log1 : list device_call) :
  _prepare_buffers domain dual_to_range nquad device log = (Ok n, log1) →
  ∃ elements,
    active_elements domain dual_to_range = Ok elements ∧ elements ≠ [] ∧
    buffers_nonempty nquad domain dual_to_range.
Proof.
  unfold _prepare_buffers. intros H.
  dev_step H; [|done].
  apply from_array_inv in Hstep as [(_ & Hq2 & _)|(? & ? & _)]; [|done].
  dev_step H; [|done].
  apply from_array_inv in Hstep as [(_ & Hq & _)|(? & ? & _)]; [|done].
  dev_step H; [|done]. clear Hstep.
  dev_step H; [|done]. rename x5 into elements.
  unfold lift in Hstep. injection Hstep as Hact _.
  dev_step H; [|done].
  apply from_array_inv in Hstep as [(_ & Hl & _)|(? & ? & _)]; [|done].
  dev_step H; [|done].
  apply device_buffer_inv in Hstep as [(_ & Hsz & _)|(? & ? & _)]; [|done].
  dev_step H; [|done].
  apply from_array_inv in Hstep as [(_ & Hlr & _)|(? & ? & _)]; [|done].
  dev_step H; [|done].
  apply from_array_inv in Hstep as [(_ & Hld & _)|(? & ? & _)]; [|done].
  exists elements. split; [done|]. split; [by intros ->|].
  unfold buffers_nonempty. split_and!; try done.
  - intros Hz. rewrite Hz in Hsz. lia.
  - intros Hz. rewrite Hz in Hsz. lia.
  - by intros Hz; rewrite Hz in Hlr.
  - by intros Hz; rewrite Hz in Hld.
Qed.

(** One step of a run that ends in an exception: either the call at hand
    raised it, and it is an error of the device, or the run went on. *)
Ltac dev_raise_step H :=
  apply dev_bind_raise in H as [(? & ? & _ & H)|H];
  [|left; first [by eapply from_array_raise | by eapply device_buffer_raise
                | by eapply call_raise]].

Lemma prepare_buffers_raise (domain dual_to_range : LocalisedSpace) (nquad : nat)
    (e : exn) (device : Device) (log log1 : list device_call) :
  _prepare_buffers domain dual_to_range nquad device log = (Raise e, log1) →
  device_error e ∨
  (length (ls_support domain) ≠ length (ls_support dual_to_range) ∧
   e = ValueError (broadcast_message (length (ls_support domain))
                     (length (ls_support dual_to_range)))).
Proof.
  unfold _prepare_buffers. intros H.
  do 3 dev_raise_step H.
  apply dev_bind_raise in H as [(? & ? & _ & H)|H].
  2:{ unfold lift in H. injection H as Hact _.
      right. by apply active_elements_raise in Hact. }
  do 4 dev_raise_step H. discriminate H.
Qed.

Lemma assemble_sparse_ok {T : Type} (regular_rule : nat -> nat)
    (kernel : nat -> nat -> nat -> T) (domain dual_to_range : LocalisedSpace)
    (parameters : Parameters) (od : OperatorDescriptor) (elements : list Z)
    (device : Device) (log : list device_call) :
  accepts_every_call device →
  grid_id (ls_grid domain) = grid_id (ls_grid dual_to_range) →
  active_elements domain dual_to_range = Ok elements → elements ≠ [] →
  buffers_nonempty (regular_rule (quadrature_regular parameters)) domain dual_to_range →
  let ntest := ls_number_of_shape_functions dual_to_range in
  let ntrial := ls_number_of_shape_functions domain in
  ∃ log',
    assemble_sparse regular_rule kernel domain dual_to_range parameters od device log
    = (Ok (fst (index_arrays elements ntest ntrial),
           snd (index_arrays elements ntest ntrial),
           kernel_output kernel elements ntest ntrial), log ++ log').
Proof.
  intros Hdev Hid Hact Hne Hbuf. simpl. unfold assemble_sparse, grid_ne.
  rewrite Hid, Nat.eqb_refl. cbn [negb].
  destruct (prepare_buffers_ok domain dual_to_range _ elements device log Hdev Hact
              Hne Hbuf) as (log' & Hprep).
  unfold dev_bind at 1. rewrite Hprep.
  unfold index_arrays, dev_bind, lift, dev_ret. rewrite !call_ready by done.
  rewrite Hact. rewrite !call_ready by done.
  cbn [fst snd]. rewrite <-!app_assoc. eexists. reflexivity.
Qed.

Lemma assemble_sparse_inv {T : Type} (regular_rule : nat -> nat)
    (kernel : nat -> nat -> nat -> T) (domain dual_to_range : LocalisedSpace)
    (parameters : Parameters) (od : OperatorDescriptor)
    (x : list Z * list Z * list T) (device : Device) (log log1 : list device_call) :
  assemble_sparse regular_rule kernel domain dual_to_range parameters od device log
  = (Ok x, log1) →
  let ntest := ls_number_of_shape_functions dual_to_range in
  let ntrial := ls_number_of_shape_functions domain in
  grid_id (ls_grid domain) = grid_id (ls_grid dual_to_range) ∧
  ∃ elements,
    active_elements domain dual_to_range = Ok elements ∧ elements ≠ [] ∧
    buffers_nonempty (regular_rule (quadrature_regular parameters)) domain
      dual_to_range ∧
    x = (fst (index_arrays elements ntest ntrial),
         snd (index_arrays elements ntest ntrial),
         kernel_output kernel elements ntest ntrial).
Proof.
  intros H. cbv zeta. unfold assemble_sparse, grid_ne in H.
  destruct (Nat.eqb_spec (grid_id (ls_grid domain)) (grid_id (ls_grid dual_to_range)))
    as [Hid|Hid]; [|discriminate H].
  split; [done|]. cbn [negb] in H.
  dev_step H; [|done].
  apply prepare_buffers_inv in Hstep as (elements & Hact & Hne & Hbuf).
  exists elements. split_and!; [done..|].
  dev_step H; [|done]. clear Hstep.
  dev_step H; [|done]. clear Hstep.
  dev_step H; [|done].
  unfold lift in Hstep. rewrite Hact in Hstep. injection Hstep as <- _.
  dev_step H; [|done]. clear Hstep.
  dev_step H; [|done]. clear Hstep.
  unfold index_arrays, dev_ret in H. by injection H as <- _.
Qed.

Lemma assemble_sparse_raise {T : Type} (regular_rule : nat -> nat)
    (kernel : nat -> nat -> nat -> T) (domain dual_to_range : LocalisedSpace)
    (parameters : Parameters) (od : OperatorDescriptor) (e : exn)
    (device : Device) (log log1 : list device_call) :
  grid_id (ls_grid domain) = grid_id (ls_grid dual_to_range) →
  assemble_sparse regular_rule kernel domain dual_to_range parameters od device log
  = (Raise e, log1) →
  device_error e ∨
  (length (ls_support domain) ≠ length (ls_support dual_to_range) ∧
   e = ValueError (broadcast_message (length (ls_support domain))
                     (length (ls_support dual_to_range)))).
Proof.
  intros Hid. unfold assemble_sparse, grid_ne.
  rewrite Hid, Nat.eqb_refl. cbn [negb]. intros H.
  apply dev_bind_raise in H as [(? & ? & Hprep & H)|H];
    [|by eapply prepare_buffers_raise].
  apply prepare_buffers_inv in Hprep as (elements & Hact & _).
  do 2 dev_raise_step H.
  apply dev_bind_raise in H as [(? & ? & Hstep & H)|H].
  2:{ unfold lift in H. rewrite Hact in H. discriminate H. }
  do 2 dev_raise_step H.
  unfold dev_ret in H. destruct (index_arrays _ _ _). discriminate H.
Qed.

Lemma assemble_sparse_other_grid {T : Type} (regular_rule : nat -> nat)
    (kernel : nat -> nat -> nat -> T) (domain dual_to_range : LocalisedSpace)
    (parameters : Parameters) (od : OperatorDescriptor)
    (device : Device) (log : list device_call) :
  grid_id (ls_grid domain) ≠ grid_id (ls_grid dual_to_range) →
  assemble_sparse regular_rule kernel domain dual_to_range parameters od device log
  = (Raise grid_mismatch, log).
Proof.
  intros Hid. unfold assemble_sparse, grid_ne.
  apply Nat.eqb_neq in Hid. by rewrite Hid.
Qed.

Lemma kernel_output_blocks {T : Type} (kernel : nat -> nat -> nat -> T)
    (elements : list Z) (ntest ntrial : nat) :
  kernel_output kernel elements ntest ntrial
  = (fun '(e, i, j) => kernel (Z.to_nat e) i j) <$> block_index elements ntest ntrial.
Proof.
  unfold kernel_output, block_index. rewrite fmap_bind_list.
  apply list_bind_ext; [|done]. intros e. rewrite fmap_bind_list.
  apply list_bind_ext; [|done]. intros i. by rewrite fmap_bind_list.
Qed.

(** ** The layout of the index arrays *)

(** C3, as the code has it.  When both spaces are on one grid and their
    masks have one entry per element, the three arrays that
    [assemble_sparse] returns have one length, one entry per (common
    element, test slot, trial slot), stored element by element and
    row-major within an element.  For the common element at position
    [p], whose element index is [e], the row indices are the test slots
    plus [e * test_slot_count] and the column indices are the trial slots
    plus [e * trial_slot_count] (element index and products taken in
    uint32): the offset is the element index, not the position.  The
    arrays are returned when some element lies in both supports, no
    device buffer is empty and the device carries out every call. *)
Theorem index_arrays_by_element {T : Type} (regular_rule : nat -> nat)
    (kernel : nat -> nat -> nat -> T) (domain dual_to_range : LocalisedSpace)
    (parameters : Parameters) (od : OperatorDescriptor)
    (device : Device) (log : list device_call) :
  ls_grid domain = ls_grid dual_to_range →
  length (ls_support domain) = number_of_elements (ls_grid domain) →
  length (ls_support dual_to_range) = number_of_elements (ls_grid dual_to_range) →
  (accepts_every_call device →
   buffers_nonempty (regular_rule (quadrature_regular parameters)) domain
     dual_to_range →
   common_elements (ls_support domain) (ls_support dual_to_range) ≠ [] →
   ∃ rows cols data log',
     assemble_sparse regular_rule kernel domain dual_to_range parameters od device log
     = (Ok (rows, cols, data), log ++ log')) ∧
  ∀ rows cols data log1,
    assemble_sparse regular_rule kernel domain dual_to_range parameters od device log
    = (Ok (rows, cols, data), log1) →
    length rows = length data ∧ length cols = length data ∧
    ∀ p e i j,
      common_elements (ls_support domain) (ls_support dual_to_range) !! p = Some e →
      (i < ls_number_of_shape_functions dual_to_range)%nat →
      (j < ls_number_of_shape_functions domain)%nat →
      let ntest := ls_number_of_shape_functions dual_to_range in
      let ntrial := ls_number_of_shape_functions domain in
      let k := (p * (ntest * ntrial) + (i * ntrial + j))%nat in
      rows !! k = Some (Z.of_nat i + uint32 (uint32 (Z.of_nat e) * Z.of_nat ntest)) ∧
      cols !! k = Some (Z.of_nat j + uint32 (uint32 (Z.of_nat e) * Z.of_nat ntrial)) ∧
      data !! k = Some (kernel (Z.to_nat (uint32 (Z.of_nat e))) i j).
Proof.
  intros Hgrid Hld Hlr.
  assert (length (ls_support domain) = length (ls_support dual_to_range)) as Hlen
    by congruence.
  pose proof (active_elements_common domain dual_to_range Hlen) as Hact.
  split.
  - intros Hdev Hbuf Hcommon.
    destruct (assemble_sparse_ok regular_rule kernel domain dual_to_range
                parameters od _ device log Hdev (f_equal grid_id Hgrid) Hact)
      as (log' & Hrun).
    { by destruct (common_elements _ _). }
    { done. }
    cbv zeta in Hrun. by eexists _, _, _, log'.
  - intros rows cols data log1 Hrun.
    apply assemble_sparse_inv in Hrun as (_ & elements & Hel & _ & _ & Hx).
    rewrite Hact in Hel. injection Hel as <-.
    rewrite index_arrays_blocks, kernel_output_blocks in Hx. cbn [fst snd] in Hx.
    injection Hx as -> -> ->.
    split; [by rewrite !length_fmap|]. split; [by rewrite !length_fmap|].
    intros p e i j He Hi Hj. cbv zeta.
    rewrite !list_lookup_fmap.
    rewrite (lookup_block_index _ _ _ _ _ _ (uint32 (Z.of_nat e))); [done| |done|done].
    by rewrite list_lookup_fmap, He.
Qed.

Global Instance buffers_nonempty_dec (n : nat) (domain dual_to_range : LocalisedSpace) :
  Decision (buffers_nonempty n domain dual_to_range).
Proof. unfold buffers_nonempty. apply _. Defined.

Lemma index_arrays_by_element_witness :
  ∃ rows cols data log',
    assemble_sparse (fun _ => 3%nat) (fun e i j => (e, i, j))
      second_triangle_only second_triangle_only
      (Build_Parameters 4 false) (Build_OperatorDescriptor "laplace" ∅)
      ready_device []
      = (Ok (rows, cols, data), [] ++ log') ∧
    length rows = length data ∧ length cols = length data ∧
    ∀ p e i j,
      common_elements (ls_support second_triangle_only)
        (ls_support second_triangle_only) !! p = Some e →
      (i < ls_number_of_shape_functions second_triangle_only)%nat →
      (j < ls_number_of_shape_functions second_triangle_only)%nat →
      let ntest := ls_number_of_shape_functions second_triangle_only in
      let ntrial := ls_number_of_shape_functions second_triangle_only in
      let k := (p * (ntest * ntrial) + (i * ntrial + j))%nat in
      rows !! k = Some (Z.of_nat i + uint32 (uint32 (Z.of_nat e) * Z.of_nat ntest)) ∧
      cols !! k = Some (Z.of_nat j + uint32 (uint32 (Z.of_nat e) * Z.of_nat ntrial)) ∧
      data !! k = Some (Z.to_nat (uint32 (Z.of_nat e)), i, j).
Proof.
  destruct (index_arrays_by_element (fun _ => 3%nat) (fun e i j => (e, i, j))
              second_triangle_only second_triangle_only
              (Build_Parameters 4 false) (Build_OperatorDescriptor "laplace" ∅)
              ready_device [])
    as [Hrun Hlayout].
  - reflexivity.
  - reflexivity.
  - reflexivity.
  - destruct Hrun as (rows & cols & data & log' & Hrun).
    + intros log c. reflexivity.
    + refine (bool_decide_unpack _ _). vm_compute. exact I.
    + vm_compute. discriminate.
    + exists rows, cols, data, log'. split; [exact Hrun|].
      exact (Hlayout rows cols data _ Hrun).
Defined.

(** The run behind the counterexample below. *)
Example index_arrays_by_element_blocks_example :
  ∃ log',
    assemble_sparse (fun _ => 3%nat) (fun e i j => (e, i, j))
      second_triangle_only second_triangle_only
      (Build_Parameters 4 false) (Build_OperatorDescriptor "laplace" ∅)
      ready_device []
    = (Ok ([3; 3; 3; 4; 4; 4; 5; 5; 5], [3; 4; 5; 3; 4; 5; 3; 4; 5],
           [(1, 0, 0); (1, 0, 1); (1, 0, 2); (1, 1, 0); (1, 1, 1); (1, 1, 2);
            (1, 2, 0); (1, 2, 1); (1, 2, 2)]%nat), log').
Proof.
  destruct (assemble_sparse_ok (fun _ => 3%nat) (fun e i j => (e, i, j))
              second_triangle_only second_triangle_only
              (Build_Parameters 4 false) (Build_OperatorDescriptor "laplace" ∅)
              [uint32 1] ready_device []) as (log' & Hrun); [done|done|done|done| |].
  { refine (bool_decide_unpack _ _). vm_compute. exact I. }
  exists ([] ++ log'). exact Hrun.
Qed.

(** C3, as the specification words it, fails when the common elements are
    not a prefix of the grid: with only element 1 in the supports, the
    block at position 0 starts at row 3, not at row 0. *)
Lemma offsets_by_position_counterexample :
  ∃ rows cols data log',
    assemble_sparse (fun _ => 3%nat) (fun e i j => (e, i, j))
      second_triangle_only second_triangle_only
      (Build_Parameters 4 false) (Build_OperatorDescriptor "laplace" ∅)
      ready_device []
      = (Ok (rows, cols, data), log') ∧
    rows = [3; 3; 3; 4; 4; 4; 5; 5; 5] ∧
    cols = [3; 4; 5; 3; 4; 5; 3; 4; 5] ∧
    ¬ offsets_by_position rows cols
        (length (common_elements (ls_support second_triangle_only)
                   (ls_support second_triangle_only))) 3 3.
Proof.
  destruct (index_arrays_by_element_blocks_example) as (log' & Hrun).
  eexists _, _, _, log'. split; [exact Hrun|].
  split; [done|]. split; [done|].
  intros H. destruct (H 0%nat 0%nat 0%nat) as [Hrow _]; [vm_compute; lia|lia|lia|].
  vm_compute in Hrow. discriminate Hrow.
Qed.

(** ** Errors *)

Lemma py_index_raise {A : Type} (a : list A) (z : Z) (e : exn) :
  py_index a z = Raise e → e = IndexError.
Proof.
  unfold py_index, getitem. repeat case_decide; repeat case_match; congruence.
Qed.

Lemma take_at_raise {A : Type} (a : list A) (idx : list Z) (e : exn) :
  take_at a idx = Raise e → e = IndexError.
Proof.
  induction idx as [|z idx IH]; simpl; [done|].
  destruct (py_index a z) eqn:Hz; simpl.
  - destruct (take_at a idx); simpl; [done|]. intros [= <-]. by apply IH.
  - intros [= <-]. by eapply py_index_raise.
Qed.

Lemma coo_matrix_raise {T : Type} (data : list T) (rows cols : list Z) (shp : Z * Z) (e : exn) :
  coo_matrix data rows cols shp = Raise e → e ≠ grid_mismatch.
Proof.
  unfold coo_matrix, grid_mismatch. repeat case_match; intros [= <-]; discriminate.
Qed.

Lemma device_errors_differ (e : exn) (n m : nat) :
  device_error e ∨ e = ValueError (broadcast_message n m) →
  e ≠ grid_mismatch.
Proof.
  unfold grid_mismatch, broadcast_message.
  intros [[c ->]| ->]; simpl; discriminate.
Qed.

(** C7.  When the grids of the two spaces are different instances,
    [assemble_sparse], and with it [SparseAssembler.assemble], raises the
    same-grid [ValueError] and the device log is what it was: no buffer
    has been created and no kernel built or run.  When they are one
    instance, neither raises that error. *)
Theorem grid_mismatch_is_fatal {T : Type} (regular_rule : nat -> nat)
    (kernel : nat -> nat -> nat -> T) (Tscale : T -> Z -> T) (Tadd : T -> T -> T)
    (sort_indices : list (Z * Z * T) -> list (Z * Z * T))
    (domain dual_to_range : Space)
    (parameters : Parameters) (od : OperatorDescriptor)
    (device : Device) (log : list device_call) :
  (grid_id (ls_grid (localised_space domain))
     ≠ grid_id (ls_grid (localised_space dual_to_range)) →
   assemble_sparse regular_rule kernel (localised_space domain)
     (localised_space dual_to_range) parameters od device log
     = (Raise grid_mismatch, log) ∧
   assemble regular_rule kernel Tscale Tadd sort_indices domain dual_to_range
     parameters od device log
     = (Raise grid_mismatch, log)) ∧
  (grid_id (ls_grid (localised_space domain))
     = grid_id (ls_grid (localised_space dual_to_range)) →
   fst (assemble_sparse regular_rule kernel (localised_space domain)
          (localised_space dual_to_range) parameters od device log) ≠ Raise grid_mismatch ∧
   fst (assemble regular_rule kernel Tscale Tadd sort_indices domain dual_to_range
          parameters od device log)
     ≠ Raise grid_mismatch).
Proof.
  split.
  - intros Hid.
    pose proof (assemble_sparse_other_grid regular_rule kernel _ _ parameters od device
                  log Hid)
      as Hrun.
    split; [done|]. unfold assemble, dev_bind. by rewrite Hrun.
  - intros Hid.
    unfold assemble, dev_bind.
    destruct (assemble_sparse regular_rule kernel (localised_space domain)
                (localised_space dual_to_range) parameters od device log)
      as [[[[rows cols] data]|e] log1] eqn:Hrun.
    + split; [simpl; discriminate|]. unfold lift, dev_ret.
      repeat match goal with
      | |- context [take_at ?a ?idx] =>
          let H := fresh "Htake" in
          destruct (take_at a idx) eqn:H;
          [|apply take_at_raise in H; subst; simpl; discriminate]
      end.
      match goal with
      | |- context [coo_matrix ?d ?r ?c ?s] =>
          let H := fresh "Hcoo" in
          destruct (coo_matrix d r c s) eqn:H;
          [simpl; discriminate|apply coo_matrix_raise in H; simpl; congruence]
      end.
    + apply (assemble_sparse_raise _ _ _ _ _ _ _ _ _ _ Hid) in Hrun.
      assert (e ≠ grid_mismatch) as Hne.
      { eapply device_errors_differ. destruct Hrun as [Hdev|[_ Hval]]; [by left|by right]. }
      simpl. split; congruence.
Qed.

(** * Surface gradients *)

(** C8.  Both the [numba_surface_gradient] property and the
    [surface_gradient] method raise [NotImplementedError] whatever they
    are given; neither returns a value. *)
Theorem surface_gradient_unsupported (A E C : Type) (self : Space)
    (element : E) (local_coordinates : C) :
  Rwg0.surface_gradient (A := A) self element local_coordinates
    = Raise NotImplementedError ∧
  Rwg0.numba_surface_gradient (A := A) self = Raise NotImplementedError ∧
  ∀ v : A,
    Rwg0.surface_gradient self element local_coordinates ≠ Ok v ∧
    Rwg0.numba_surface_gradient self ≠ Ok v.
Proof. split_and!; [done|done|]. intros v. split; discriminate. Qed.

(** ** Gathering through the flattened maps *)

Lemma block_index_fmap {A B : Type} (f : A -> B) (elements : list A) (ntest ntrial : nat) :
  block_index (f <$> elements) ntest ntrial
  = (fun '(e, i, j) => (f e, i, j)) <$> block_index elements ntest ntrial.
Proof.
  unfold block_index. rewrite list_fmap_bind, fmap_bind_list.
  apply list_bind_ext; [|done]. intros e. simpl. rewrite fmap_bind_list.
  apply list_bind_ext; [|done]. intros i. by rewrite fmap_bind_list.
Qed.

Lemma elem_of_block_index {A : Type} (elements : list A) (ntest ntrial : nat) e i j :
  (e, i, j) ∈ block_index elements ntest ntrial ↔
  e ∈ elements ∧ (i < ntest)%nat ∧ (j < ntrial)%nat.
Proof.
  unfold block_index. rewrite list_elem_of_bind. split.
  - intros (e' & Hin & He'). apply list_elem_of_bind in Hin as (i' & Hin & Hi').
    apply list_elem_of_bind in Hin as (j' & Hin & Hj').
    apply list_elem_of_singleton in Hin. injection Hin as -> -> ->.
    apply elem_of_seq in Hi', Hj'. split_and!; [done|lia|lia].
  - intros (He & Hi & Hj). exists e. split; [|done].
    apply list_elem_of_bind. exists i. split; [|apply elem_of_seq; lia].
    apply list_elem_of_bind. exists j. split; [|apply elem_of_seq; lia].
    by apply list_elem_of_singleton.
Qed.

Lemma lookup_ravel {A : Type} (a : list (list A)) (n e i : nat) (row : list A) (v : A) :
  Forall (fun row => length row = n) a →
  a !! e = Some row → row !! i = Some v →
  ravel a !! (e * n + i)%nat = Some v.
Proof.
  intros Hall. revert e. unfold ravel.
  induction Hall as [|r a Hr Hall IH]; intros e He Hv; [done|].
  simpl. destruct e as [|e]; simpl in *.
  - injection He as ->. by apply lookup_app_l_Some.
  - rewrite lookup_app_r by lia.
    replace (n + e * n + i - length r)%nat with (e * n + i)%nat by lia. by apply IH.
Qed.

Lemma take_at_fmap {A B : Type} (a : list A) (f : B -> Z) (g : B -> A) (l : list B) :
  (∀ x, x ∈ l → py_index a (f x) = Ok (g x)) →
  take_at a (f <$> l) = Ok (g <$> l).
Proof.
  induction l as [|x l IH]; intros H; [done|].
  rewrite fmap_cons. simpl. rewrite H by (by left). simpl.
  rewrite IH; [done|]. intros y Hy. apply H. by right.
Qed.

Lemma zip_with_fmap_same {A B C D : Type} (f : B -> C -> D) (g : A -> B) (h : A -> C)
    (l : list A) :
  zip_with f (g <$> l) (h <$> l) = (fun x => f (g x) (h x)) <$> l.
Proof. by rewrite zip_with_fmap_l, zip_with_fmap_r, zip_with_diag. Qed.

Lemma filter_fmap_bind {A B C : Type} (P : B -> Prop) `{∀ x, Decision (P x)}
    (t : A -> B) (s : B -> C) (l : list A) :
  s <$> filter P (t <$> l) = (l ≫= fun x => if decide (P (t x)) then [s (t x)] else []).
Proof.
  induction l as [|x l IH]; [done|].
  rewrite fmap_cons, filter_cons, bind_cons.
  case_decide; [rewrite fmap_cons|]; by rewrite IH.
Qed.

Lemma block_index_bind {A B : Type} (F : A * nat * nat -> list B)
    (elements : list A) (ntest ntrial : nat) :
  (block_index elements ntest ntrial ≫= F)
  = (e ← elements; i ← seq 0 ntest; j ← seq 0 ntrial; F (e, i, j)).
Proof.
  unfold block_index.
  induction elements as [|e elements IH]; [done|].
  rewrite !bind_cons, bind_app, IH. f_equal.
  generalize (seq 0 ntest). intros li. induction li as [|i li IHi]; [done|].
  rewrite !bind_cons, bind_app, IHi. f_equal.
  generalize (seq 0 ntrial). intros lj. induction lj as [|j lj IHj]; [done|].
  rewrite !bind_cons, bind_app, IHj. f_equal. simpl. by rewrite app_nil_r.
Qed.

Lemma gather_entry {A : Type} (a : list (list A)) (n ne e i : nat) :
  length a = ne → Forall (fun row => length row = n) a →
  (e < ne)%nat → (i < n)%nat →
  Z.of_nat ne * Z.of_nat n < 2 ^ 32 →
  ∃ v, entry2 a e i = Some v ∧
       py_index (ravel a) (Z.of_nat i + uint32 (uint32 (Z.of_nat e) * Z.of_nat n)) = Ok v.
Proof.
  intros Hlen Hrows He Hi Hsz.
  destruct (lookup_lt_is_Some_2 a e) as [row Hrow]; [lia|].
  pose proof (Forall_lookup_1 _ _ _ _ Hrows Hrow) as Hrl. simpl in Hrl.
  destruct (lookup_lt_is_Some_2 row i) as [v Hv]; [lia|].
  exists v. split.
  { unfold entry2. rewrite Hrow. done. }
  assert (Z.of_nat e < Z.of_nat ne * Z.of_nat n) as He1 by nia.
  assert (Z.of_nat e * Z.of_nat n < Z.of_nat ne * Z.of_nat n) as He2 by nia.
  rewrite (uint32_small (Z.of_nat e)) by lia.
  rewrite uint32_small by lia.
  unfold py_index. rewrite decide_True by lia.
  replace (Z.to_nat (Z.of_nat i + Z.of_nat e * Z.of_nat n)) with (e * n + i)%nat by lia.
  apply getitem_Ok. by eapply lookup_ravel.
Qed.

Lemma active_in_both (s1 s2 : list bool) (e : nat) :
  e ∈ flatnonzero (zip_with andb s1 s2) →
  s1 !! e = Some true ∧ s2 !! e = Some true.
Proof.
  rewrite elem_of_flatnonzero, lookup_zip_with.
  destruct (s1 !! e) as [b1|]; [|done]. destruct (s2 !! e) as [b2|]; [|done].
  simpl. intros [= Hb]. apply andb_true_iff in Hb as [-> ->]. done.
Qed.

(** The four gathers of [SparseAssembler.assemble] at one entry of the
    result buffer. *)
Lemma gather_slot (domain dual_to_range : Space) (e i j : nat) :
  wf_space domain → wf_space dual_to_range → grid domain = grid dual_to_range →
  e ∈ flatnonzero (zip_with andb (support domain) (support dual_to_range)) →
  (i < ls_number_of_shape_functions (localised_space dual_to_range))%nat →
  (j < ls_number_of_shape_functions (localised_space domain))%nat →
  let ntest := ls_number_of_shape_functions (localised_space dual_to_range) in
  let ntrial := ls_number_of_shape_functions (localised_space domain) in
  let row := Z.of_nat i + uint32 (uint32 (Z.of_nat e) * Z.of_nat ntest) in
  let col := Z.of_nat j + uint32 (uint32 (Z.of_nat e) * Z.of_nat ntrial) in
  ∃ r c m_test m_trial,
    entry2 (local2global dual_to_range) e i = Some r ∧
    entry2 (local2global domain) e j = Some c ∧
    entry2 (local_multipliers dual_to_range) e i = Some m_test ∧
    entry2 (local_multipliers domain) e j = Some m_trial ∧
    py_index (ravel (local2global dual_to_range)) row = Ok r ∧
    py_index (ravel (local2global domain)) col = Ok c ∧
    py_index (ravel (local_multipliers dual_to_range)) row = Ok m_test ∧
    py_index (ravel (local_multipliers domain)) col = Ok m_trial ∧
    0 ≤ r < global_dof_count dual_to_range ∧
    0 ≤ c < global_dof_count domain ∧
    Z.to_nat (uint32 (Z.of_nat e)) = e.
Proof.
  intros (_ & _ & HsD & HlD & HrD & HmD & HmrD & HbD & HszD)
         (_ & _ & HsR & HlR & HrR & HmR & HmrR & HbR & HszR) Hgrid He Hi Hj.
  cbv zeta.
  destruct (active_in_both _ _ _ He) as [HeD HeR].
  pose proof (lookup_lt_Some _ _ _ HeD) as HltD. rewrite HsD in HltD.
  pose proof (lookup_lt_Some _ _ _ HeR) as HltR. rewrite HsR in HltR.
  destruct (gather_entry _ _ _ e i HlR HrR HltR Hi HszR) as (r & Hr & Hpr).
  destruct (gather_entry _ _ _ e j HlD HrD HltD Hj HszD) as (c & Hc & Hpc).
  destruct (gather_entry _ _ _ e i HmR HmrR HltR Hi HszR) as (mt & Hmt & Hpmt).
  destruct (gather_entry _ _ _ e j HmD HmrD HltD Hj HszD) as (md & Hmd & Hpmd).
  exists r, c, mt, md. split_and!; try done.
  - unfold entry2 in Hr. destruct (local2global dual_to_range !! e) as [row|] eqn:Hrow;
      [|done]. simpl in Hr.
    pose proof (Forall2_lookup_lr _ _ _ _ _ _ HbR HeR Hrow eq_refl) as Hb.
    by apply (Forall_lookup_1 _ _ _ _ Hb Hr).
  - unfold entry2 in Hr. destruct (local2global dual_to_range !! e) as [row|] eqn:Hrow;
      [|done]. simpl in Hr.
    pose proof (Forall2_lookup_lr _ _ _ _ _ _ HbR HeR Hrow eq_refl) as Hb.
    by apply (Forall_lookup_1 _ _ _ _ Hb Hr).
  - unfold entry2 in Hc. destruct (local2global domain !! e) as [row|] eqn:Hrow;
      [|done]. simpl in Hc.
    pose proof (Forall2_lookup_lr _ _ _ _ _ _ HbD HeD Hrow eq_refl) as Hb.
    by apply (Forall_lookup_1 _ _ _ _ Hb Hc).
  - unfold entry2 in Hc. destruct (local2global domain !! e) as [row|] eqn:Hrow;
      [|done]. simpl in Hc.
    pose proof (Forall2_lookup_lr _ _ _ _ _ _ HbD HeD Hrow eq_refl) as Hb.
    by apply (Forall_lookup_1 _ _ _ _ Hb Hc).
  - rewrite uint32_small; [lia|]. nia.
Qed.

(** ** What [tocsr] keeps *)

Section csr.
Context {T : Type} (Tzero : T) (Tadd : T -> T -> T).
Hypothesis Tadd_assoc : ∀ x y z, Tadd x (Tadd y z) = Tadd (Tadd x y) z.

Local Abbreviation at_position r c :=
  (fun t : Z * Z * T => fst (fst t) = r ∧ snd (fst t) = c).
Local Abbreviation total l := (foldr Tadd Tzero (snd <$> l)).

Lemma merge_run_sum (r c : Z) (l : list (Z * Z * T)) : ∀ pos x,
  total (filter (at_position r c) (merge_run Tadd pos x l))
  = total (filter (at_position r c) ((pos, x) :: l)).
Proof.
  induction l as [|[p v] l IH]; intros pos x; [done|]. simpl.
  destruct (decide (p = pos)) as [->|Hne].
  - rewrite IH, !filter_cons. simpl.
    destruct (decide (pos.1 = r ∧ pos.2 = c)); simpl; [|done].
    by rewrite Tadd_assoc.
  - rewrite (filter_cons _ (pos, x)), (filter_cons _ (pos, x) ((p, v) :: l)). simpl.
    destruct (decide (pos.1 = r ∧ pos.2 = c)); simpl; by rewrite IH.
Qed.

Lemma sum_duplicates_sum (r c : Z) (l : list (Z * Z * T)) :
  total (filter (at_position r c) (sum_duplicates Tadd l))
  = total (filter (at_position r c) l).
Proof. destruct l as [|[p v] l]; [done|]. apply merge_run_sum. Qed.

Lemma merge_run_positions (l : list (Z * Z * T)) : ∀ pos x t,
  t ∈ merge_run Tadd pos x l → t.1 = pos ∨ ∃ t', t' ∈ l ∧ t'.1 = t.1.
Proof.
  induction l as [|[p v] l IH]; intros pos x t Ht; simpl in Ht.
  - apply list_elem_of_singleton in Ht as ->. by left.
  - destruct (decide (p = pos)) as [->|Hne].
    + destruct (IH _ _ _ Ht) as [?|(t' & Ht' & Heq)]; [by left|].
      right. exists t'. split; [by right|done].
    + apply elem_of_cons in Ht as [->|Ht]; [by left|].
      right. destruct (IH _ _ _ Ht) as [Hp|(t' & Ht' & Heq)].
      * exists (p, v). split; [by left|done].
      * exists t'. split; [by right|done].
Qed.

Lemma sum_duplicates_positions (l : list (Z * Z * T)) (t : Z * Z * T) :
  t ∈ sum_duplicates Tadd l → ∃ t', t' ∈ l ∧ t'.1 = t.1.
Proof.
  destruct l as [|[p v] l]; simpl; [by intros ?%elem_of_nil|]. intros Ht.
  destruct (merge_run_positions _ _ _ _ Ht) as [Hp|(t' & Ht' & Heq)].
  - exists (p, v). split; [by left|done].
  - exists t'. split; [by right|done].
Qed.

Lemma merge_run_length (l : list (Z * Z * T)) : ∀ pos x,
  (length (merge_run Tadd pos x l) ≤ S (length l))%nat.
Proof.
  induction l as [|[p v] l IH]; intros pos x; simpl; [lia|].
  destruct (decide (p = pos)); simpl.
  - specialize (IH pos (Tadd x v)). lia.
  - specialize (IH p v). lia.
Qed.

Lemma sum_duplicates_length (l : list (Z * Z * T)) :
  (length (sum_duplicates Tadd l) ≤ length l)%nat.
Proof. destruct l as [|[p v] l]; simpl; [lia|]. apply merge_run_length. Qed.

Hypothesis Tadd_comm : ∀ x y, Tadd x y = Tadd y x.

Lemma total_Permutation (l1 l2 : list T) :
  l1 ≡ₚ l2 → foldr Tadd Tzero l1 = foldr Tadd Tzero l2.
Proof.
  induction 1 as [|x l1 l2 _ IH|x y l|l1 l2 l3 _ IH1 _ IH2]; simpl.
  - done.
  - by rewrite IH.
  - by rewrite !Tadd_assoc, (Tadd_comm y x).
  - by rewrite IH1.
Qed.

(** The entry of the compressed matrix is the sum of the values that the
    triplets hold for its position, whatever order [tocsr] puts them in. *)
Lemma tocsr_entry (sort_indices : list (Z * Z * T) -> list (Z * Z * T))
    (m : SparseMatrix T) (r c : Z) :
  csr_order sort_indices →
  matrix_entry Tzero Tadd (tocsr Tadd sort_indices m) r c
  = matrix_entry Tzero Tadd m r c.
Proof.
  intros Hsort. unfold matrix_entry, tocsr. cbn [triplets].
  rewrite sum_duplicates_sum. apply total_Permutation.
  destruct (Hsort (triplets m)) as [Hperm _]. by rewrite Hperm.
Qed.

End csr.

Lemma tocsr_no_triplet {T : Type} (Tadd : T -> T -> T)
    (sort_indices : list (Z * Z * T) -> list (Z * Z * T))
    (m : SparseMatrix T) (r c : Z) :
  csr_order sort_indices →
  filter (fun t => fst (fst t) = r ∧ snd (fst t) = c) (triplets m) = [] →
  filter (fun t => fst (fst t) = r ∧ snd (fst t) = c)
    (triplets (tocsr Tadd sort_indices m)) = [].
Proof.
  intros Hsort Hnone. apply elem_of_nil_inv. intros t Ht.
  apply list_elem_of_filter in Ht as [Hpos Ht]. cbn [tocsr triplets] in Ht.
  apply sum_duplicates_positions in Ht as (t' & Ht' & Heq).
  destruct (Hsort (triplets m)) as [Hperm _]. rewrite Hperm in Ht'.
  assert (t' ∈ filter (fun t => fst (fst t) = r ∧ snd (fst t) = c) (triplets m)) as Hin.
  { apply list_elem_of_filter. split; [|done]. by rewrite Heq. }
  rewrite Hnone in Hin. by apply elem_of_nil in Hin.
Qed.

Lemma tocsr_length {T : Type} (Tadd : T -> T -> T)
    (sort_indices : list (Z * Z * T) -> list (Z * Z * T)) (m : SparseMatrix T) :
  csr_order sort_indices →
  (length (triplets (tocsr Tadd sort_indices m)) ≤ length (triplets m))%nat.
Proof.
  intros Hsort. cbn [tocsr triplets].
  destruct (Hsort (triplets m)) as [Hperm _].
  rewrite <- (Permutation_length Hperm). apply sum_duplicates_length.
Qed.

Lemma sort_by_position_order {T : Type} : csr_order (@sort_by_position T).
Proof.
  intros l. unfold sort_by_position. split; [apply merge_sort_Permutation|].
  apply Sorted_merge_sort. intros [[r1 c1] v1] [[r2 c2] v2].
  unfold position_le. simpl. lia.
Qed.

(** ** The assembled matrix *)

(** What [assemble] returns on well-formed spaces of one grid that have a
    common element, when no device buffer is empty: the compressed form
    of one triplet per entry of the result buffer. *)
Lemma assemble_run {T : Type} (regular_rule : nat -> nat)
    (kernel : nat -> nat -> nat -> T) (Tscale : T -> Z -> T) (Tadd : T -> T -> T)
    (sort_indices : list (Z * Z * T) -> list (Z * Z * T))
    (domain dual_to_range : Space)
    (parameters : Parameters) (od : OperatorDescriptor)
    (device : Device) (log : list device_call) :
  wf_space domain → wf_space dual_to_range → grid domain = grid dual_to_range →
  let act := common_elements (support domain) (support dual_to_range) in
  let ntest := ls_number_of_shape_functions (localised_space dual_to_range) in
  let ntrial := ls_number_of_shape_functions (localised_space domain) in
  let matrix :=
    tocsr Tadd sort_indices
      {| shape := (global_dof_count dual_to_range, global_dof_count domain);
         triplets := slot_triplet kernel Tscale domain dual_to_range
                       <$> block_index act ntest ntrial |} in
  (accepts_every_call device →
   buffers_nonempty (regular_rule (quadrature_regular parameters))
     (localised_space domain) (localised_space dual_to_range) →
   act ≠ [] →
   ∃ log',
     assemble regular_rule kernel Tscale Tadd sort_indices domain dual_to_range
       parameters od device log
     = (Ok matrix, log ++ log')) ∧
  (∀ M log1,
     assemble regular_rule kernel Tscale Tadd sort_indices domain dual_to_range
       parameters od device log = (Ok M, log1) →
     buffers_nonempty (regular_rule (quadrature_regular parameters))
       (localised_space domain) (localised_space dual_to_range) ∧
     act ≠ [] ∧ M = matrix) ∧
  ∀ e i j, e ∈ act → (i < ntest)%nat → (j < ntrial)%nat →
    ∃ r c m_test m_trial,
      entry2 (local2global dual_to_range) e i = Some r ∧
      entry2 (local2global domain) e j = Some c ∧
      entry2 (local_multipliers dual_to_range) e i = Some m_test ∧
      entry2 (local_multipliers domain) e j = Some m_trial ∧
      0 ≤ r < global_dof_count dual_to_range ∧
      0 ≤ c < global_dof_count domain ∧
      slot_triplet kernel Tscale domain dual_to_range (e, i, j)
      = (r, c, Tscale (Tscale (kernel e i j) m_trial) m_test).
Proof.
  intros HwD HwR Hgrid act ntest ntrial matrix.
  assert (length (support domain) = length (support dual_to_range)) as Hlen.
  { destruct HwD as (_ & _ & -> & _), HwR as (_ & _ & -> & _). by rewrite Hgrid. }
  assert (flatnonzero (zip_with andb (support domain) (support dual_to_range)) = act)
    as Hflat by (by apply common_elements_flatnonzero).
  assert (active_elements (localised_space domain) (localised_space dual_to_range)
          = Ok ((fun e => uint32 (Z.of_nat e)) <$> act)) as Hact.
  { rewrite active_elements_common.
    - destruct HwD as (_ & -> & _), HwR as (_ & -> & _). done.
    - destruct HwD as (_ & -> & _), HwR as (_ & -> & _). done. }
  assert (grid_id (ls_grid (localised_space domain))
          = grid_id (ls_grid (localised_space dual_to_range))) as Hid.
  { destruct HwD as (-> & _), HwR as (-> & _). by rewrite Hgrid. }
  set (idx := block_index act ntest ntrial).
  set (get := fun (a : list (list Z)) (e i : nat) => default 0 (entry2 a e i)).
  set (hR := fun x : nat * nat * nat => get (local2global dual_to_range) x.1.1 x.1.2).
  set (hC := fun x : nat * nat * nat => get (local2global domain) x.1.1 x.2).
  set (hMt := fun x : nat * nat * nat => get (local_multipliers dual_to_range) x.1.1 x.1.2).
  set (hMd := fun x : nat * nat * nat => get (local_multipliers domain) x.1.1 x.2).
  set (fR := fun x : nat * nat * nat =>
               Z.of_nat x.1.2 + uint32 (uint32 (Z.of_nat x.1.1) * Z.of_nat ntest)).
  set (fC := fun x : nat * nat * nat =>
               Z.of_nat x.2 + uint32 (uint32 (Z.of_nat x.1.1) * Z.of_nat ntrial)).
  assert (∀ x, x ∈ idx →
            py_index (ravel (local2global dual_to_range)) (fR x) = Ok (hR x) ∧
            py_index (ravel (local2global domain)) (fC x) = Ok (hC x) ∧
            py_index (ravel (local_multipliers dual_to_range)) (fR x) = Ok (hMt x) ∧
            py_index (ravel (local_multipliers domain)) (fC x) = Ok (hMd x) ∧
            0 ≤ hR x < global_dof_count dual_to_range ∧
            0 ≤ hC x < global_dof_count domain ∧
            Z.to_nat (uint32 (Z.of_nat x.1.1)) = x.1.1 ∧
            entry2 (local2global dual_to_range) x.1.1 x.1.2 = Some (hR x) ∧
            entry2 (local2global domain) x.1.1 x.2 = Some (hC x) ∧
            entry2 (local_multipliers dual_to_range) x.1.1 x.1.2 = Some (hMt x) ∧
            entry2 (local_multipliers domain) x.1.1 x.2 = Some (hMd x)) as Hslot.
  { intros [[e i] j] Hx. apply elem_of_block_index in Hx as (He & Hi & Hj).
    rewrite <- Hflat in He.
    destruct (gather_slot domain dual_to_range e i j HwD HwR Hgrid He Hi Hj)
      as (r & c & mt & md & Hr & Hc & Hmt & Hmd & Hpr & Hpc & Hpmt & Hpmd & Hrr & Hcr & Hu).
    unfold hR, hC, hMt, hMd, get, fR, fC. simpl.
    rewrite Hr, Hc, Hmt, Hmd. simpl. split_and!; done || lia. }
  assert (∀ log1,
            assemble_sparse regular_rule kernel (localised_space domain)
              (localised_space dual_to_range) parameters od device log
            = (Ok (fst (index_arrays ((fun e => uint32 (Z.of_nat e)) <$> act)
                          ntest ntrial),
                   snd (index_arrays ((fun e => uint32 (Z.of_nat e)) <$> act)
                          ntest ntrial),
                   kernel_output kernel ((fun e => uint32 (Z.of_nat e)) <$> act)
                     ntest ntrial), log1) →
            assemble regular_rule kernel Tscale Tadd sort_indices domain dual_to_range
              parameters od device log
            = (Ok matrix, log1)) as Hcore.
  { intros log1 Hrun.
    rewrite index_arrays_blocks, kernel_output_blocks, block_index_fmap in Hrun.
    cbn [fst snd] in Hrun. rewrite <-!list_fmap_compose in Hrun.
    fold ntest ntrial idx in Hrun.
    assert (Hrows : ((λ '(e, i, _), Z.of_nat i + uint32 (e * Z.of_nat ntest))
                     ∘ (λ '(e, i, j), (uint32 (Z.of_nat e), i, j))) <$> idx = fR <$> idx).
    { apply list_fmap_ext. by intros k [[e i] j] _. }
    assert (Hcols : ((λ '(e, _, j), Z.of_nat j + uint32 (e * Z.of_nat ntrial))
                     ∘ (λ '(e, i, j), (uint32 (Z.of_nat e), i, j))) <$> idx = fC <$> idx).
    { apply list_fmap_ext. by intros k [[e i] j] _. }
    assert (Hdata : ((λ '(e, i, j), kernel (Z.to_nat e) i j)
                     ∘ (λ '(e, i, j), (uint32 (Z.of_nat e), i, j))) <$> idx
                    = (fun x : nat * nat * nat => kernel x.1.1 x.1.2 x.2) <$> idx).
    { apply list_fmap_ext. intros k [[e i] j] Hk. simpl.
      apply list_elem_of_lookup_2 in Hk.
      destruct (Hslot _ Hk) as (_ & _ & _ & _ & _ & _ & Hu & _). simpl in Hu.
      by rewrite Hu. }
    rewrite Hrows, Hcols, Hdata in Hrun.
    unfold assemble, dev_bind. rewrite Hrun. unfold lift, dev_ret.
    rewrite (take_at_fmap _ fR hR) by (intros x Hx; by apply Hslot).
    rewrite (take_at_fmap _ fC hC) by (intros x Hx; by apply Hslot).
    rewrite (take_at_fmap _ fC hMd) by (intros x Hx; by apply Hslot).
    rewrite (take_at_fmap _ fR hMt) by (intros x Hx; by apply Hslot).
    rewrite !zip_with_fmap_same.
    assert (∀ l : list T, (if assembly_always_promote_to_double parameters
                           then promote_to_double_precision l else l) = l) as ->.
    { intros l. by destruct (assembly_always_promote_to_double parameters). }
    unfold coo_matrix. cbn [fst snd].
    assert (forallb (λ r, (0 <=? r) && (r <? global_dof_count dual_to_range))
              (hR <$> idx) = true) as ->.
    { apply forallb_forall. intros r Hr. apply list_elem_of_In in Hr.
      apply list_elem_of_fmap in Hr as (x & -> & Hx).
      destruct (Hslot _ Hx) as (_ & _ & _ & _ & Hrr & _).
      apply andb_true_iff. split; [apply Z.leb_le|apply Z.ltb_lt]; lia. }
    assert (forallb (λ c, (0 <=? c) && (c <? global_dof_count domain))
              (hC <$> idx) = true) as ->.
    { apply forallb_forall. intros c Hc. apply list_elem_of_In in Hc.
      apply list_elem_of_fmap in Hc as (x & -> & Hx).
      destruct (Hslot _ Hx) as (_ & _ & _ & _ & _ & Hcr & _).
      apply andb_true_iff. split; [apply Z.leb_le|apply Z.ltb_lt]; lia. }
    rewrite (zip_with_fmap_same pair hR hC idx).
    by rewrite (zip_with_fmap_same pair _ _ idx). }
  split_and!.
  - intros Hdev Hbuf Hne.
    destruct (assemble_sparse_ok regular_rule kernel _ _ parameters od _ device log
                Hdev Hid Hact) as (log' & Hrun); [by destruct act|done|].
    cbv zeta in Hrun. exists log'. by apply Hcore.
  - intros M log1 Hrun.
    assert (∃ x, assemble_sparse regular_rule kernel (localised_space domain)
                   (localised_space dual_to_range) parameters od device log
                 = (Ok x, log1)) as (x & Hsparse).
    { unfold assemble in Hrun.
      apply dev_bind_inv in Hrun as [([[rows cols] data] & log0 & Hsparse & Hrun)|
                                     (? & _ & ?)]; [|done].
      exists (rows, cols, data).
      repeat (apply dev_bind_inv in Hrun as [(? & ? & [= _ <-] & Hrun)|(? & _ & ?)];
              [|done]).
      by injection Hrun as _ <-. }
    pose proof Hsparse as Hinv.
    apply assemble_sparse_inv in Hinv as (_ & elements & Hel & Hne & Hbuf & ->).
    rewrite Hact in Hel. injection Hel as <-.
    apply Hcore in Hsparse. rewrite Hsparse in Hrun. injection Hrun as <-.
    split; [done|]. split; [|done]. intros Hnil. by rewrite Hnil in Hne.
  - intros e i j He Hi Hj.
    assert ((e, i, j) ∈ idx) as Hx by (by apply elem_of_block_index).
    destruct (Hslot _ Hx) as (_ & _ & _ & _ & Hrr & Hcr & _ & Hr & Hc & Hmt & Hmd).
    exists (hR (e, i, j)), (hC (e, i, j)), (hMt (e, i, j)), (hMd (e, i, j)).
    split_and!; try done; lia.
Qed.

Lemma common_elements_nonempty (s1 s2 : list bool) :
  (∃ e, s1 !! e = Some true ∧ s2 !! e = Some true) ↔ common_elements s1 s2 ≠ [].
Proof.
  split.
  - intros (e & He) Hnil. apply elem_of_common_elements in He.
    rewrite Hnil in He. by apply elem_of_nil in He.
  - intros Hne. destruct (common_elements s1 s2) as [|e l] eqn:Hl; [done|].
    exists e. apply elem_of_common_elements. rewrite Hl. by left.
Qed.

(** C1.  For two spaces as the assembler expects them, on one grid, every
    matrix that [SparseAssembler.assemble] returns, on whatever device,
    has shape (test DOF count, trial DOF count) and its entry at (r, c)
    is the sum of the local contributions of the specification: over
    every element that lies in both supports and every test and trial
    slot of it that map to r and c, the kernel value of (element, test
    slot, trial slot) times the trial multiplier and the test multiplier
    of those slots.  A matrix is returned when an element lies in both
    supports, no device buffer is empty and the device carries out every
    call.  The sum is that of an associative and commutative addition:
    the order in which the compressed matrix adds up the contributions
    to one position is not fixed. *)
Theorem assemble_entries {T : Type} (Tzero : T) (Tadd : T -> T -> T)
    (regular_rule : nat -> nat) (kernel : nat -> nat -> nat -> T)
    (Tscale : T -> Z -> T) (sort_indices : list (Z * Z * T) -> list (Z * Z * T))
    (domain dual_to_range : Space)
    (parameters : Parameters) (od : OperatorDescriptor)
    (device : Device) (log : list device_call) :
  (∀ x y z, Tadd x (Tadd y z) = Tadd (Tadd x y) z) →
  (∀ x y, Tadd x y = Tadd y x) →
  csr_order sort_indices →
  wf_space domain → wf_space dual_to_range → grid domain = grid dual_to_range →
  (accepts_every_call device →
   buffers_nonempty (regular_rule (quadrature_regular parameters))
     (localised_space domain) (localised_space dual_to_range) →
   (∃ e, support domain !! e = Some true ∧ support dual_to_range !! e = Some true) →
   ∃ M log',
     assemble regular_rule kernel Tscale Tadd sort_indices domain dual_to_range
       parameters od device log
     = (Ok M, log ++ log')) ∧
  ∀ M log1,
    assemble regular_rule kernel Tscale Tadd sort_indices domain dual_to_range
      parameters od device log
    = (Ok M, log1) →
    shape M = (global_dof_count dual_to_range, global_dof_count domain) ∧
    ∀ r c,
      matrix_entry Tzero Tadd M r c
      = foldr Tadd Tzero (local_contributions kernel Tscale domain dual_to_range r c).
Proof.
  intros Hassoc Hcomm Hsort HwD HwR Hgrid.
  destruct (assemble_run regular_rule kernel Tscale Tadd sort_indices domain
              dual_to_range parameters od device log HwD HwR Hgrid)
    as (Hok & Hinv & Hslot).
  split.
  { intros Hdev Hbuf Hcommon. apply common_elements_nonempty in Hcommon.
    destruct (Hok Hdev Hbuf Hcommon) as (log' & Hrun). by eexists _, log'. }
  intros M log1 HM. destruct (Hinv M log1 HM) as (_ & _ & ->).
  split; [done|]. intros r c.
  rewrite (tocsr_entry Tzero Tadd Hassoc Hcomm) by done.
  unfold matrix_entry. cbn [triplets]. f_equal.
  rewrite (filter_fmap_bind _ (slot_triplet kernel Tscale domain dual_to_range) snd).
  rewrite block_index_bind. unfold local_contributions.
  apply Forall_bind_ext, Forall_forall. intros e He.
  apply Forall_bind_ext, Forall_forall. intros i Hi.
  apply Forall_bind_ext, Forall_forall. intros j Hj.
  apply elem_of_seq in Hi, Hj.
  destruct (Hslot e i j He) as (r' & c' & mt & md & Hr & Hc & Hmt & Hmd & _ & _ & Htrip);
    [lia|lia|].
  rewrite Htrip, Hr, Hc, Hmt, Hmd. done.
Qed.

Global Instance Grid_eq_dec : EqDecision Grid.
Proof. solve_decision. Defined.

Global Instance wf_space_dec (sp : Space) : Decision (wf_space sp).
Proof. unfold wf_space. apply _. Defined.

Lemma assemble_entries_witness :
  ∃ M log',
    assemble (fun _ => 3%nat) (fun e i j => Z.of_nat (100 * e + 10 * i + j)) Z.mul
      Z.add sort_by_position
      two_triangles_boundary two_triangles_interior
      (Build_Parameters 4 true) (Build_OperatorDescriptor "maxwell_identity" ∅)
      ready_device []
      = (Ok M, [] ++ log') ∧
    shape M = (global_dof_count two_triangles_interior,
               global_dof_count two_triangles_boundary) ∧
    ∀ r c,
      matrix_entry 0 Z.add M r c
      = foldr Z.add 0
          (local_contributions (fun e i j => Z.of_nat (100 * e + 10 * i + j)) Z.mul
             two_triangles_boundary two_triangles_interior r c).
Proof.
  destruct (assemble_entries 0 Z.add (fun _ => 3%nat)
              (fun e i j => Z.of_nat (100 * e + 10 * i + j)) Z.mul sort_by_position
              two_triangles_boundary two_triangles_interior
              (Build_Parameters 4 true)
              (Build_OperatorDescriptor "maxwell_identity" ∅)
              ready_device [])
    as [Hrun Hentries].
  - intros x y z. lia.
  - intros x y. lia.
  - apply sort_by_position_order.
  - refine (bool_decide_unpack _ _). vm_compute. exact I.
  - refine (bool_decide_unpack _ _). vm_compute. exact I.
  - reflexivity.
  - destruct Hrun as (M & log' & HM).
    + intros log c. reflexivity.
    + refine (bool_decide_unpack _ _). vm_compute. exact I.
    + exists 0%nat. split; reflexivity.
    + exists M, log'. split; [exact HM|]. exact (Hentries M _ HM).
Defined.

(** The spaces of the examples are what the constructor returns. *)
Example two_triangles_interior_built :
  Rwg0.init two_triangles [true; true] [1; 1] false = Ok two_triangles_interior.
Proof. vm_compute. reflexivity. Qed.

Example two_triangles_boundary_built :
  Rwg0.init two_triangles [true; true] [1; 1] true = Ok two_triangles_boundary.
Proof. vm_compute. reflexivity. Qed.

Example single_triangle_boundary_built :
  Rwg0.init single_triangle [true] [1] true = Ok single_triangle_boundary.
Proof. vm_compute. reflexivity. Qed.

Lemma grid_mismatch_is_fatal_witness :
  (grid_id (ls_grid (localised_space single_triangle_boundary))
     ≠ grid_id (ls_grid (localised_space two_triangles_boundary)) →
   assemble_sparse (fun _ => 3%nat) (fun e i j => Z.of_nat (e + i + j))
     (localised_space single_triangle_boundary)
     (localised_space two_triangles_boundary)
     (Build_Parameters 4 true) (Build_OperatorDescriptor "maxwell_identity" ∅)
     ready_device []
     = (Raise grid_mismatch, []) ∧
   assemble (fun _ => 3%nat) (fun e i j => Z.of_nat (e + i + j)) Z.mul
     Z.add sort_by_position
     single_triangle_boundary two_triangles_boundary
     (Build_Parameters 4 true) (Build_OperatorDescriptor "maxwell_identity" ∅)
     ready_device []
     = (Raise grid_mismatch, [])) ∧
  (grid_id (ls_grid (localised_space single_triangle_boundary))
     = grid_id (ls_grid (localised_space two_triangles_boundary)) →
   fst (assemble_sparse (fun _ => 3%nat) (fun e i j => Z.of_nat (e + i + j))
          (localised_space single_triangle_boundary)
          (localised_space two_triangles_boundary)
          (Build_Parameters 4 true) (Build_OperatorDescriptor "maxwell_identity" ∅)
          ready_device [])
     ≠ Raise grid_mismatch ∧
   fst (assemble (fun _ => 3%nat) (fun e i j => Z.of_nat (e + i + j)) Z.mul
          Z.add sort_by_position
          single_triangle_boundary two_triangles_boundary
          (Build_Parameters 4 true) (Build_OperatorDescriptor "maxwell_identity" ∅)
          ready_device [])
     ≠ Raise grid_mismatch).
Proof.
  exact (grid_mismatch_is_fatal (fun _ => 3%nat) (fun e i j => Z.of_nat (e + i + j)) Z.mul
           Z.add sort_by_position
           single_triangle_boundary two_triangles_boundary
           (Build_Parameters 4 true) (Build_OperatorDescriptor "maxwell_identity" ∅)
           ready_device []).
Defined.

(** Scenario 4 of the specification, evaluated: the error, and an empty
    device log. *)
Example different_grids_are_rejected :
  assemble (fun _ => 3%nat) (fun e i j => Z.of_nat (e + i + j)) Z.mul
    Z.add sort_by_position
    single_triangle_boundary two_triangles_boundary
    (Build_Parameters 4 true) (Build_OperatorDescriptor "maxwell_identity" ∅)
    ready_device []
  = (Raise grid_mismatch, []).
Proof. vm_compute. reflexivity. Qed.

(** ** The constructor builds what the assembler expects *)

Lemma alias_row_length (ms ds : list Z) (df : Z) :
  length ms = 3%nat → length ds = 3%nat → length (alias_row ms ds df) = 3%nat.
Proof. intros Hm Hd. unfold alias_row. rewrite length_zip_with. lia. Qed.

Lemma init_wf_space (g : Grid) (S0 : list bool) (nm : list Z) (ibd : bool) (sp : Space) :
  wf_input g S0 → Rwg0.init g S0 nm ibd = Ok sp → wf_space sp.
Proof.
  intros Hwf Hsp.
  destruct (assigned_total g S0 ibd Hwf) as (st & s' & (Hst & Hs' & Hinit) & HI & Hlen & Hlook).
  pose proof (count_bound _ _ _ _ Hwf HI) as Hcb.
  rewrite Hinit in Hsp. case_decide; [done|]. injection Hsp as <-.
  assert (∀ e, (e < number_of_elements g)%nat →
            ∃ ms ls, Rwg0.local_multipliers st !! e = Some ms ∧ length ms = 3%nat ∧
                     Rwg0.local2global_map st !! e = Some ls ∧ length ls = 3%nat) as Hrows.
  { intros e He. destruct (decide (e ∈ flatnonzero S0)) as [Hin|Hnin].
    - destruct (inv_done _ _ _ _ _ HI e Hin) as (ms & ds & Hms & Hds & _ & Hcase).
      destruct Hcase as [(_ & _ & Hlm & Hl)|(f & df & _ & _ & _ & Hlm & Hl)].
      + exists [0; 0; 0], [0; 0; 0]. done.
      + exists ms, (alias_row ms ds df). split_and!; try done.
        by apply alias_row_length.
    - destruct (inv_fresh _ _ _ _ _ HI e Hnin He) as [Hlm Hl].
      exists [0; 0; 0], [0; 0; 0]. done. }
  unfold wf_space. simpl. split_and!; try done.
  - apply HI.
  - apply Forall_lookup. intros e ls Hls.
    pose proof (lookup_lt_Some _ _ _ Hls) as He. rewrite (inv_l2g_len _ _ _ _ _ HI) in He.
    destruct (Hrows e He) as (_ & ls' & _ & _ & Hls' & Hl3). congruence.
  - apply HI.
  - apply Forall_lookup. intros e ms Hms.
    pose proof (lookup_lt_Some _ _ _ Hms) as He. rewrite (inv_lm_len _ _ _ _ _ HI) in He.
    destruct (Hrows e He) as (ms' & _ & Hms' & Hm3 & _). congruence.
  - apply Forall2_same_length_lookup_2.
    { rewrite Hlen. symmetry. apply HI. }
    intros e b ls Hb Hls ->. apply Forall_lookup. intros i v Hv.
    destruct (kept_rows _ _ _ _ _ _ HI Hlook Hb)
      as (ms & ds & f & df & Hmslen & Hdslen & Hslots & Hf & Hdf & Hlm & Hl2g).
    assert (ls = alias_row ms ds df) as -> by congruence.
    eapply alias_row_range; eauto. lia.
  - destruct Hwf as [(_ & _ & _ & _ & Hsz) _]. lia.
Qed.

(** * Further properties of the constructor *)

Lemma flatnonzero_from_count (start : nat) (mask : list bool) :
  length (flatnonzero_from start mask) = count_nonzero mask.
Proof.
  unfold count_nonzero. revert start.
  induction mask as [|b mask IH]; intros start; [done|].
  simpl. rewrite filter_cons. destruct b.
  - rewrite decide_True by done. simpl. by rewrite IH.
  - rewrite decide_False by done. apply IH.
Qed.

Lemma flatnonzero_empty (mask : list bool) :
  count_nonzero mask = 0%nat → flatnonzero mask = [].
Proof.
  intros H. apply length_zero_iff_nil. unfold flatnonzero.
  by rewrite flatnonzero_from_count.
Qed.

(** X1.  An empty support mask: the loop has nothing to visit, the grid is not
    read at all, and the constructor raises the empty-support error,
    whatever the grid holds. *)
Theorem init_empty_mask (g : Grid) (S0 : list bool) (nm : list Z) (ibd : bool) :
  count_nonzero S0 = 0%nat →
  Rwg0.assign_dofs g S0 ibd = Ok (Rwg0.initial g) ∧
  Rwg0.init g S0 nm ibd
  = Raise (ValueError "The support of the function space is empty.").
Proof.
  intros H0. pose proof (flatnonzero_empty _ H0) as Hnil.
  assert (Rwg0.assign_dofs g S0 ibd = Ok (Rwg0.initial g)) as Hloop.
  { unfold Rwg0.assign_dofs. by rewrite Hnil. }
  split; [done|]. unfold Rwg0.init. rewrite Hloop, ok_bind.
  change (Rwg0.delete_from_support (Rwg0.initial g)) with (@nil nat).
  change (Rwg0.remove_deleted S0 []) with (Ok S0). rewrite ok_bind.
  by rewrite decide_True.
Qed.

Lemma init_empty_mask_witness :
  Rwg0.assign_dofs (Build_Grid 7 2 0 [] []) [false; false] true
  = Ok (Rwg0.initial (Build_Grid 7 2 0 [] [])) ∧
  Rwg0.init (Build_Grid 7 2 0 [] []) [false; false] [1; 1] true
  = Raise (ValueError "The support of the function space is empty.").
Proof.
  apply (init_empty_mask (Build_Grid 7 2 0 [] []) [false; false] [1; 1] true).
  reflexivity.
Defined.

Lemma boundary_slot_spec g S0 e i k nbrs other :
  Rwg0.slot_topology g S0 e i = Ok (k, nbrs, other) →
  boundary_slot g S0 e i = true ↔ other = -1.
Proof.
  intros Htopo. unfold boundary_slot. rewrite Htopo.
  split; [apply bool_decide_eq_true_1|apply bool_decide_eq_true_2].
Qed.

(** An element of the initial support escapes deletion exactly when
    boundary DOFs are requested or one of its slots has a neighbour in the
    support. *)
Lemma kept_iff g S0 ibd st e :
  Inv g S0 ibd (flatnonzero S0) st → S0 !! e = Some true →
  e ∉ Rwg0.delete_from_support st ↔
  ibd = true ∨ ∃ i, (i < 3)%nat ∧ boundary_slot g S0 e i = false.
Proof.
  intros HI He. apply elem_of_flatnonzero in He.
  destruct (inv_done _ _ _ _ _ HI e He) as (ms & ds & Hms & Hds & Hslots & Hcase).
  split.
  - intros Hkept.
    destruct Hcase as [(_ & ? & _)|(f & df & Hf & Hdf & _)]; [done|].
    apply first_nonzero_least in Hf as [(m & Hm & Hnz) _].
    assert (f < 3)%nat as Hf3 by (apply lookup_lt_Some in Hm; lia).
    destruct (Hslots f m df Hm Hdf) as (k & nbrs & other & Htopo & Hb & _).
    destruct (decide (other = -1)) as [Ho|Ho].
    + destruct (Hb Ho) as [-> _]. left. by destruct ibd.
    + right. exists f. split; [done|].
      apply not_true_is_false. by rewrite (boundary_slot_spec _ _ _ _ _ _ _ Htopo).
  - intros Hwhy.
    destruct Hcase as [(Hall & _)|(f & df & _ & _ & Hnd & _)]; [exfalso|done].
    assert (∀ i m d, ms !! i = Some m → ds !! i = Some d →
              d = -1 ∧ ibd = false ∧ boundary_slot g S0 e i = true) as Hnone.
    { intros i m d Hm Hd.
      pose proof (Forall_lookup_1 _ _ _ _ Hall Hd) as Hd1. simpl in Hd1. subst d.
      destruct (slot_post_cases _ _ _ _ _ _ _ _ (Hslots _ _ _ Hm Hd)) as [(_ & _ & Hi)|[_ ?]];
        [|lia].
      split_and!; try done.
      destruct (Hslots _ _ _ Hm Hd) as (k & nbrs & other & Htopo & _ & Hint).
      rewrite (boundary_slot_spec _ _ _ _ _ _ _ Htopo).
      destruct (decide (other = -1)) as [|Ho]; [done|].
      destruct (Hint Ho) as (_ & _ & ?). lia. }
    destruct Hwhy as [Hibd|(i & Hi & Hbs)].
    + destruct (lookup_lt_is_Some_2 ms 0) as [m Hm]; [lia|].
      destruct (lookup_lt_is_Some_2 ds 0) as [d Hd]; [lia|].
      destruct (Hnone _ _ _ Hm Hd) as (_ & ? & _). congruence.
    + destruct (lookup_lt_is_Some_2 ms i) as [m Hm]; [lia|].
      destruct (lookup_lt_is_Some_2 ds i) as [d Hd]; [lia|].
      destruct (Hnone _ _ _ Hm Hd) as (_ & _ & ?). congruence.
Qed.

(** The same, read off the grid. *)
Lemma kept_iff_grid g S0 ibd st e :
  wf_input g S0 → wf_adjacency g →
  Inv g S0 ibd (flatnonzero S0) st → S0 !! e = Some true →
  e ∉ Rwg0.delete_from_support st ↔
  ibd = true ∨ ∃ i, (i < 3)%nat ∧ neighbour_in_support g S0 e i = true.
Proof.
  intros Hwf Hadj HI He. rewrite (kept_iff _ _ _ _ _ HI He).
  assert (e < number_of_elements g)%nat as Hlt.
  { destruct Hwf as [_ <-]. by eapply lookup_lt_Some. }
  assert (∀ i, (i < 3)%nat →
            boundary_slot g S0 e i = false ↔ neighbour_in_support g S0 e i = true)
    as Hiff.
  { intros i Hi. rewrite (boundary_slot_neighbour _ _ _ _ Hwf Hadj Hlt Hi).
    by destruct (neighbour_in_support g S0 e i). }
  split.
  - intros [?|(i & Hi & Hb)]; [by left|]. right. exists i. split; [done|]. by apply Hiff.
  - intros [?|(i & Hi & Hb)]; [by left|]. right. exists i. split; [done|]. by apply Hiff.
Qed.

(** X3.  Which elements stay: an element of the initial support is kept exactly
    when boundary DOFs are requested or one of its three edges has a
    second adjacent element that is in the support; nothing is ever added
    to the support. *)
Theorem final_support_characterised (g : Grid) (S0 : list bool) (ibd : bool) :
  wf_input g S0 → wf_adjacency g →
  ∃ st s',
    assigned g S0 ibd st s' ∧
    length s' = length S0 ∧
    ∀ e, s' !! e = Some true ↔
         S0 !! e = Some true ∧
         (ibd = true ∨ ∃ i, (i < 3)%nat ∧ neighbour_in_support g S0 e i = true).
Proof.
  intros Hwf Hadj.
  destruct (assigned_total g S0 ibd Hwf) as (st & s' & Has & HI & Hlen & Hlook).
  exists st, s'. split; [done|]. split; [rewrite Hlen; symmetry; apply Hwf|].
  intros e. rewrite Hlook. split.
  - intros [He Hk]. split; [done|]. by apply (kept_iff_grid _ _ _ _ _ Hwf Hadj HI He).
  - intros [He Hk]. split; [done|]. by apply (kept_iff_grid _ _ _ _ _ Hwf Hadj HI He).
Qed.

Lemma final_support_characterised_witness :
  ∃ st s',
    assigned two_triangles [true; false] false st s' ∧
    length s' = length [true; false] ∧
    ∀ e, s' !! e = Some true ↔
         [true; false] !! e = Some true ∧
         (false = true ∨
          ∃ i, (i < 3)%nat ∧
               neighbour_in_support two_triangles [true; false] e i = true).
Proof.
  apply (final_support_characterised two_triangles [true; false] false).
  - refine (bool_decide_unpack _ _). vm_compute. exact I.
  - refine (bool_decide_unpack _ _). vm_compute. exact I.
Defined.

(** X4.  The multiplier of every slot of a kept element, read off the grid:
    on a slot whose edge has no second adjacent element in the support it
    is 1 with boundary DOFs and 0 without; on a slot whose neighbour [o]
    across the edge is in the support it is 1 when the element's index is
    the smaller of the two and -1 otherwise.  No entry of the multiplier
    array is anything but -1, 0 or 1. *)
Theorem multipliers_by_topology (g : Grid) (S0 : list bool) (ibd : bool) :
  wf_input g S0 → wf_adjacency g →
  ∃ st s',
    assigned g S0 ibd st s' ∧
    (∀ e i, s' !! e = Some true → (i < 3)%nat →
       ∃ m,
         getitem2 (Rwg0.local_multipliers st) e i = Ok m ∧
         (neighbour_in_support g S0 e i = false → m = if ibd then 1 else 0) ∧
         (∀ o, neighbour_across g e i = Some o → S0 !! o = Some true →
               m = if decide (e ≤ o)%nat then 1 else -1)) ∧
    (∀ e i m, getitem2 (Rwg0.local_multipliers st) e i = Ok m →
       m = -1 ∨ m = 0 ∨ m = 1).
Proof.
  intros Hwf Hadj.
  destruct (assigned_total g S0 ibd Hwf) as (st & s' & Has & HI & Hlen & Hlook).
  exists st, s'. split; [done|]. split.
  - intros e i He Hi.
    assert (e < number_of_elements g)%nat as Hlt.
    { rewrite <- Hlen. by eapply lookup_lt_Some. }
    destruct (kept_rows _ _ _ _ _ _ HI Hlook He)
      as (ms & ds & f & df & Hms & Hds & Hslots & _ & _ & Hlm & _).
    destruct (lookup_lt_is_Some_2 ms i) as [m Hm]; [lia|].
    destruct (lookup_lt_is_Some_2 ds i) as [d Hd]; [lia|].
    destruct (Hslots i m d Hm Hd) as (k & nbrs & other & Htopo & Hb & Hint).
    destruct (topology_neighbour _ _ _ _ _ _ _ Hadj Hlt Hi Htopo) as (_ & Hiff & Hnb).
    exists m. split_and!.
    + apply getitem2_Ok. eauto.
    + intros Hnone. destruct (decide (other = -1)) as [Ho|Ho].
      * by destruct (Hb Ho).
      * apply Hiff in Ho. congruence.
    + intros o Ho HoS.
      assert (other ≠ -1) as Hother.
      { apply Hiff. unfold neighbour_in_support. rewrite Ho.
        by apply bool_decide_eq_true_2. }
      destruct (Hnb Hother) as (o' & Ho' & _ & Hlow).
      assert (o' = o) as -> by congruence.
      destruct (Hint Hother) as ((low & Hmin & ->) & _).
      unfold sign_of. specialize (Hlow low Hmin).
      destruct (decide (e = low)) as [Hel|Hel], (decide (e ≤ o)%nat) as [Hle|Hle];
        try done; tauto.
  - intros e i m Hm. apply getitem2_Ok in Hm as (ms & Hms & Hm).
    pose proof (lookup_lt_Some _ _ _ Hms) as Hlt.
    rewrite (inv_lm_len _ _ _ _ _ HI) in Hlt.
    destruct (decide (e ∈ flatnonzero S0)) as [Hin|Hnin].
    + destruct (inv_done _ _ _ _ _ HI e Hin) as (ms' & ds & Hmsl & Hdsl & Hslots & Hcase).
      destruct Hcase as [(_ & _ & Hz & _)|(f & df & _ & _ & _ & Hlm & _)].
      * assert (ms = [0; 0; 0]) as -> by congruence.
        destruct i as [|[|[|i]]]; simplify_eq/=; auto.
      * assert (ms' = ms) as -> by congruence.
        destruct (lookup_lt_is_Some_2 ds i) as [d Hd].
        { apply lookup_lt_Some in Hm. lia. }
        destruct (slot_post_cases _ _ _ _ _ _ _ _ (Hslots _ _ _ Hm Hd))
          as [(? & _)|[[?|?] _]]; auto.
    + destruct (inv_fresh _ _ _ _ _ HI e Hnin Hlt) as [Hz _].
      assert (ms = [0; 0; 0]) as -> by congruence.
      destruct i as [|[|[|i]]]; simplify_eq/=; auto.
Qed.

Lemma multipliers_by_topology_witness :
  ∃ st s',
    assigned two_triangles [true; true] true st s' ∧
    (∀ e i, s' !! e = Some true → (i < 3)%nat →
       ∃ m,
         getitem2 (Rwg0.local_multipliers st) e i = Ok m ∧
         (neighbour_in_support two_triangles [true; true] e i = false →
          m = if true then 1 else 0) ∧
         (∀ o, neighbour_across two_triangles e i = Some o →
               [true; true] !! o = Some true →
               m = if decide (e ≤ o)%nat then 1 else -1)) ∧
    (∀ e i m, getitem2 (Rwg0.local_multipliers st) e i = Ok m →
       m = -1 ∨ m = 0 ∨ m = 1).
Proof.
  apply (multipliers_by_topology two_triangles [true; true] true).
  - refine (bool_decide_unpack _ _). vm_compute. exact I.
  - refine (bool_decide_unpack _ _). vm_compute. exact I.
Defined.

Lemma NoDup_filter_lookup {A : Type} (P : A -> Prop) `{!∀ x, Decision (P x)}
    (l : list A) : ∀ (i j : nat) (x : A),
  NoDup (filter P l) → l !! i = Some x → l !! j = Some x → P x → i = j.
Proof.
  induction l as [|a l IH]; intros i j x Hnd Hi Hj HP; [by rewrite lookup_nil in Hi|].
  rewrite filter_cons in Hnd. destruct (decide (P a)) as [Ha|Ha].
  - apply NoDup_cons in Hnd as [Hnin Hnd].
    destruct i as [|i], j as [|j]; simpl in *.
    + done.
    + exfalso. apply Hnin. injection Hi as ->.
      apply list_elem_of_filter. split; [done|]. by eapply list_elem_of_lookup_2.
    + exfalso. apply Hnin. injection Hj as ->.
      apply list_elem_of_filter. split; [done|]. by eapply list_elem_of_lookup_2.
    + f_equal. by eapply IH.
  - destruct i as [|i], j as [|j]; simpl in *.
    + done.
    + by injection Hi as ->.
    + by injection Hj as ->.
    + f_equal. by eapply IH.
Qed.

Lemma NoDup_bind_elem {A B : Type} (f : A -> list B) (l : list A) (a : A) :
  NoDup (l ≫= f) → a ∈ l → NoDup (f a).
Proof.
  induction l as [|c l IH]; intros Hnd Ha; [by apply elem_of_nil in Ha|].
  rewrite bind_cons in Hnd. apply NoDup_app in Hnd as (Hc & _ & Hl).
  apply elem_of_cons in Ha as [->|Ha]; auto.
Qed.

Lemma NoDup_bind_inj {A B : Type} (f : A -> list B) (l : list A) (a b : A) (x : B) :
  NoDup (l ≫= f) → a ∈ l → b ∈ l → x ∈ f a → x ∈ f b → a = b.
Proof.
  induction l as [|c l IH]; intros Hnd Ha Hb Hxa Hxb; [by apply elem_of_nil in Ha|].
  rewrite bind_cons in Hnd. apply NoDup_app in Hnd as (_ & Hdis & Hl).
  apply elem_of_cons in Ha as [->|Ha]; apply elem_of_cons in Hb as [->|Hb].
  - done.
  - exfalso. apply (Hdis x Hxa). apply list_elem_of_bind. eauto.
  - exfalso. apply (Hdis x Hxb). apply list_elem_of_bind. eauto.
  - by apply IH.
Qed.

(** A slot of a kept element that has a multiplier: where its id lives. *)
Lemma kept_slot_id g S0 ibd st (s' : list bool) e i k nbrs other m d :
  Inv g S0 ibd (flatnonzero S0) st →
  (∀ e, s' !! e = Some true ↔
        S0 !! e = Some true ∧ e ∉ Rwg0.delete_from_support st) →
  s' !! e = Some true →
  Rwg0.slot_topology g S0 e i = Ok (k, nbrs, other) →
  getitem2 (Rwg0.local_multipliers st) e i = Ok m → m ≠ 0 →
  getitem2 (Rwg0.local2global_map st) e i = Ok d →
  (i < 3)%nat ∧
  ((other ≠ -1 ∧ Rwg0.edge_dofs st !! k = Some d ∧ d ∈ edge_ids (Rwg0.edge_dofs st)) ∨
   (other = -1 ∧ ibd = true ∧ d ∈ boundary_ids_of g S0 (Rwg0.local2global_map st) e)).
Proof.
  intros HI Hlook He Htopo Hm Hnz Hd.
  destruct (kept_rows _ _ _ _ _ _ HI Hlook He)
    as (ms & ds & f & df & Hms & Hds & Hslots & _ & _ & Hlm & Hl2g).
  apply getitem2_Ok in Hm as (ms' & Hms' & Hm).
  apply getitem2_Ok in Hd as (row & Hrow & Hd).
  assert (ms' = ms) as -> by congruence.
  assert (i < 3)%nat as Hi by (apply lookup_lt_Some in Hm; lia).
  destruct (lookup_lt_is_Some_2 ds i) as [d' Hd']; [lia|].
  assert (d' = d) as ->.
  { assert (row = alias_row ms ds df) as -> by congruence.
    rewrite (alias_row_lookup _ _ _ _ _ _ Hm Hd') in Hd.
    destruct (Z.eqb_spec m 0); congruence. }
  destruct (Hslots i m d Hm Hd') as (k' & nbrs' & other' & Htopo' & Hb & Hint).
  assert (k' = k ∧ other' = other) as [-> ->] by (split; congruence).
  split; [done|].
  destruct (decide (other = -1)) as [Ho|Ho].
  - right. destruct (Hb Ho) as [Hmv _].
    assert (ibd = true) as Hibd by (destruct ibd; [done|congruence]).
    split_and!; try done.
    unfold boundary_ids_of, slot_ids. rewrite Hrow.
    change (default [] (Some row)) with row.
    apply list_elem_of_bind. exists i. split.
    + rewrite (proj2 (boundary_slot_spec _ _ _ _ _ _ _ Htopo) Ho), Hd.
      apply list_elem_of_singleton. done.
    + apply elem_of_seq. lia.
  - left. destruct (Hint Ho) as (_ & Hed & Hrange).
    split_and!; try done. apply list_elem_of_filter. split; [lia|].
    by eapply list_elem_of_lookup_2.
Qed.

(** Which slots share an id, in terms of the [other] that the loop
    computes for them. *)
Lemma ids_by_slot_topology g S0 ibd st (s' : list bool) :
  Inv g S0 ibd (flatnonzero S0) st →
  (∀ e, s' !! e = Some true ↔
        S0 !! e = Some true ∧ e ∉ Rwg0.delete_from_support st) →
  ∀ a i b j ka nba oa kb nbb ob ma mb da db,
    s' !! a = Some true → s' !! b = Some true →
    Rwg0.slot_topology g S0 a i = Ok (ka, nba, oa) →
    Rwg0.slot_topology g S0 b j = Ok (kb, nbb, ob) →
    getitem2 (Rwg0.local_multipliers st) a i = Ok ma → ma ≠ 0 →
    getitem2 (Rwg0.local_multipliers st) b j = Ok mb → mb ≠ 0 →
    getitem2 (Rwg0.local2global_map st) a i = Ok da →
    getitem2 (Rwg0.local2global_map st) b j = Ok db →
    da = db ↔ (a = b ∧ i = j) ∨ (oa ≠ -1 ∧ ob ≠ -1 ∧ ka = kb).
Proof.
  intros HI Hlook.
  intros a i b j ka nba oa kb nbb ob ma mb da db Ha Hb Hta Htb Hma Hnza Hmb Hnzb Hda Hdb.
  assert (NoDup (edge_ids (Rwg0.edge_dofs st) ++
                 boundary_ids g S0 ibd (Rwg0.local2global_map st) (flatnonzero S0)))
    as Hnd.
  { rewrite (inv_perm _ _ _ _ _ HI). apply NoDup_seqZ. }
  apply NoDup_app in Hnd as (Hnde & Hdis & Hndb).
  assert (a ∈ flatnonzero S0) as Hina.
  { apply elem_of_flatnonzero. by apply Hlook in Ha as [? _]. }
  assert (b ∈ flatnonzero S0) as Hinb.
  { apply elem_of_flatnonzero. by apply Hlook in Hb as [? _]. }
  destruct (kept_slot_id _ _ _ _ _ _ _ _ _ _ _ _ HI Hlook Ha Hta Hma Hnza Hda)
    as (Hi & [(Hoa & Heda & Hina')|(Hoa & Hibd & Hba)]);
  destruct (kept_slot_id _ _ _ _ _ _ _ _ _ _ _ _ HI Hlook Hb Htb Hmb Hnzb Hdb)
    as (Hj & [(Hob & Hedb & Hinb')|(Hob & Hibd' & Hbb)]).
  - split.
    + intros ->. right. split_and!; try done.
      eapply (NoDup_filter_lookup (fun d => d ≠ -1)); try done.
      apply list_elem_of_filter in Hinb' as [? _]. done.
    + intros [[-> ->]|(_ & _ & ->)]; congruence.
  - split.
    + intros ->. exfalso. apply (Hdis db Hina'). unfold boundary_ids.
      rewrite Hibd'. apply list_elem_of_bind. eauto.
    + intros [[-> ->]|(_ & ? & _)]; [|done]. congruence.
  - split.
    + intros ->. exfalso. apply (Hdis db Hinb'). unfold boundary_ids.
      rewrite Hibd. apply list_elem_of_bind. eauto.
    + intros [[-> ->]|(? & _ & _)]; [|done]. congruence.
  - split.
    + intros ->. left. unfold boundary_ids in Hndb. rewrite Hibd in Hndb.
      assert (a = b) as -> by (by eapply NoDup_bind_inj).
      split; [done|].
      pose proof (NoDup_bind_elem _ _ _ Hndb Hinb) as Hrow.
      unfold boundary_ids_of, slot_ids in Hrow, Hba, Hbb.
      apply getitem2_Ok in Hda as (row & Hrow1 & Hda).
      apply getitem2_Ok in Hdb as (row' & Hrow2 & Hdb).
      assert (row' = row) as -> by congruence.
      rewrite Hrow1 in Hrow. change (default [] (Some row)) with row in Hrow.
      eapply (NoDup_bind_inj _ (seq 0 3) i j db Hrow).
      * apply elem_of_seq. lia.
      * apply elem_of_seq. lia.
      * rewrite (proj2 (boundary_slot_spec _ _ _ _ _ _ _ Hta) Hoa), Hda.
        by apply list_elem_of_singleton.
      * rewrite (proj2 (boundary_slot_spec _ _ _ _ _ _ _ Htb) Hob), Hdb.
        by apply list_elem_of_singleton.
    + intros [[-> ->]|(? & _ & _)]; [|done]. congruence.
Qed.

(** X5.  Which slots share a global DOF id.  Among the slots of kept elements
    that have a nonzero multiplier, two different slots hold the same id
    exactly when they lie on the same edge of the grid and each has its
    neighbour across that edge in the support; a boundary DOF is never
    shared. *)
Theorem global_ids_identify_edges (g : Grid) (S0 : list bool) (ibd : bool) :
  wf_input g S0 → wf_adjacency g →
  ∃ st s',
    assigned g S0 ibd st s' ∧
    ∀ a i b j ka kb ma mb da db,
      s' !! a = Some true → s' !! b = Some true →
      entry2 (element_edges g) i a = Some ka →
      entry2 (element_edges g) j b = Some kb →
      getitem2 (Rwg0.local_multipliers st) a i = Ok ma → ma ≠ 0 →
      getitem2 (Rwg0.local_multipliers st) b j = Ok mb → mb ≠ 0 →
      getitem2 (Rwg0.local2global_map st) a i = Ok da →
      getitem2 (Rwg0.local2global_map st) b j = Ok db →
      da = db ↔
      (a = b ∧ i = j) ∨
      (neighbour_in_support g S0 a i = true ∧
       neighbour_in_support g S0 b j = true ∧ ka = kb).
Proof.
  intros Hwf Hadj.
  destruct (assigned_total g S0 ibd Hwf) as (st & s' & Has & HI & Hlen & Hlook).
  exists st, s'. split; [done|].
  intros a i b j ka kb ma mb da db Ha Hb Hka Hkb Hma Hnza Hmb Hnzb Hda Hdb.
  assert (∀ e i m k, s' !! e = Some true →
            getitem2 (Rwg0.local_multipliers st) e i = Ok m →
            entry2 (element_edges g) i e = Some k →
            ∃ nb other,
              Rwg0.slot_topology g S0 e i = Ok (k, nb, other) ∧
              (other ≠ -1 ↔ neighbour_in_support g S0 e i = true)) as Htopo.
  { intros e i' m k He Hm Hk.
    assert (e < number_of_elements g)%nat as Hlt.
    { rewrite <- Hlen. by eapply lookup_lt_Some. }
    assert (i' < 3)%nat as Hi.
    { apply getitem2_Ok in Hm as (row & Hrow & Hm).
      destruct (kept_rows _ _ _ _ _ _ HI Hlook He)
        as (ms & ds & f & df & Hms & _ & _ & _ & _ & Hlm & _).
      assert (row = ms) as -> by congruence.
      apply lookup_lt_Some in Hm. lia. }
    destruct (slot_topology_total g S0 e i' Hwf Hlt Hi)
      as (k' & nb & other & low & Ht & _).
    destruct (topology_neighbour _ _ _ _ _ _ _ Hadj Hlt Hi Ht) as (Hk' & Hiff & _).
    assert (k' = k) as -> by congruence. eauto. }
  destruct (Htopo a i ma ka Ha Hma Hka) as (nba & oa & Hta & Hia).
  destruct (Htopo b j mb kb Hb Hmb Hkb) as (nbb & ob & Htb & Hib).
  rewrite (ids_by_slot_topology _ _ _ _ _ HI Hlook a i b j ka nba oa kb nbb ob ma mb da db)
    by done.
  by rewrite Hia, Hib.
Qed.

Lemma global_ids_identify_edges_witness :
  ∃ st s',
    assigned two_triangles [true; true] true st s' ∧
    ∀ a i b j ka kb ma mb da db,
      s' !! a = Some true → s' !! b = Some true →
      entry2 (element_edges two_triangles) i a = Some ka →
      entry2 (element_edges two_triangles) j b = Some kb →
      getitem2 (Rwg0.local_multipliers st) a i = Ok ma → ma ≠ 0 →
      getitem2 (Rwg0.local_multipliers st) b j = Ok mb → mb ≠ 0 →
      getitem2 (Rwg0.local2global_map st) a i = Ok da →
      getitem2 (Rwg0.local2global_map st) b j = Ok db →
      da = db ↔
      (a = b ∧ i = j) ∨
      (neighbour_in_support two_triangles [true; true] a i = true ∧
       neighbour_in_support two_triangles [true; true] b j = true ∧ ka = kb).
Proof.
  apply (global_ids_identify_edges two_triangles [true; true] true).
  - refine (bool_decide_unpack _ _). vm_compute. exact I.
  - refine (bool_decide_unpack _ _). vm_compute. exact I.
Defined.

Lemma for_each_inv {A B : Type} (body : A -> B -> result A) (P : A -> Prop)
    (xs : list B) : ∀ acc r,
  P acc →
  (∀ a x a', x ∈ xs → P a → body a x = Ok a' → P a') →
  for_each body xs acc = Ok r → P r.
Proof.
  induction xs as [|x xs IH]; intros acc r Hacc Hstep Hrun; simpl in Hrun.
  - by injection Hrun as <-.
  - apply bind_Ok in Hrun as (acc' & Hbody & Hrun).
    apply (IH acc' r); [|intros a y a' Hy; apply Hstep; by right|done].
    eapply Hstep; [by left|done..].
Qed.

Lemma finish_element_edge_dofs st dm e st' :
  Rwg0.finish_element st dm e = Ok st' → Rwg0.edge_dofs st' = Rwg0.edge_dofs st.
Proof.
  unfold Rwg0.finish_element. intros H.
  destruct (forallb _ dm); inv_ok; by subst st'.
Qed.

(** After a run over [xs] from the initial state, every edge id was
    written by a slot of an element of [xs]. *)
Lemma for_each_interior g S0 ibd (xs : list nat) st :
  for_each (Rwg0.assign_element g S0 ibd) xs (Rwg0.initial g) = Ok st →
  ∀ k d, Rwg0.edge_dofs st !! k = Some d → d ≠ -1 →
    ∃ e i nbrs other,
      e ∈ xs ∧ (i < 3)%nat ∧
      Rwg0.slot_topology g S0 e i = Ok (k, nbrs, other) ∧ other ≠ -1.
Proof.
  apply (for_each_inv _ (fun st => ∀ k d, Rwg0.edge_dofs st !! k = Some d → d ≠ -1 →
           ∃ e i nbrs other,
             e ∈ xs ∧ (i < 3)%nat ∧
             Rwg0.slot_topology g S0 e i = Ok (k, nbrs, other) ∧ other ≠ -1)).
  - intros k d Hk. simpl in Hk. apply lookup_replicate in Hk as [-> _]. done.
  - intros st0 e st1 He HP Hbody. unfold Rwg0.assign_element in Hbody.
    apply bind_Ok in Hbody as ([st2 dm] & Hloop & Hfin).
    rewrite (finish_element_edge_dofs _ _ _ _ Hfin).
    revert Hloop.
    apply (for_each_inv _ (fun acc : Rwg0.locals * list Z =>
             ∀ k d, Rwg0.edge_dofs acc.1 !! k = Some d → d ≠ -1 →
               ∃ e i nbrs other,
                 e ∈ xs ∧ (i < 3)%nat ∧
                 Rwg0.slot_topology g S0 e i = Ok (k, nbrs, other) ∧ other ≠ -1)
             _ (st0, replicate 3 (int32 (-1))) (st2, dm));
      [done|].
    intros [sa da] i [sb db] Hi HQ Hstep. simpl in HQ |- *.
    apply elem_of_seq in Hi.
    apply assign_slot_step in Hstep.
    inversion Hstep as
      [? ? edge nbrs row Htopo|? ? edge nbrs row Htopo
      |? ? edge nbrs other low row Htopo Ho|? ? edge nbrs other low row d0 Htopo Ho];
      subst; simpl; try done.
    intros k d Hk Hd. destruct (decide (k = edge)) as [->|Hne].
    + exists e, i, nbrs, other. split_and!; try done. lia.
    + rewrite list_lookup_insert_ne in Hk by done. by eapply HQ.
Qed.

Lemma filter_positions {A : Type} (P : A -> Prop) `{!∀ x, Decision (P x)}
    (l : list A) :
  ∃ ks : list nat,
    NoDup ks ∧ length ks = length (filter P l) ∧
    ∀ k, k ∈ ks ↔ ∃ x, l !! k = Some x ∧ P x.
Proof.
  induction l as [|a l (ks & Hnd & Hlen & Hin)].
  - exists []. split_and!; [constructor|done|].
    intros k. split; [by intros ?%elem_of_nil|]. intros (x & Hx & _).
    by rewrite lookup_nil in Hx.
  - assert (NoDup (S <$> ks)) as HndS by (by apply (NoDup_fmap_2 S)).
    assert (∀ k, k ∈ S <$> ks ↔ ∃ k', k = S k' ∧ ∃ x, l !! k' = Some x ∧ P x) as HinS.
    { intros k. rewrite list_elem_of_fmap. split.
      - intros (k' & -> & Hk'). exists k'. split; [done|]. by apply Hin.
      - intros (k' & -> & Hk'). exists k'. split; [done|]. by apply Hin. }
    rewrite filter_cons. destruct (decide (P a)) as [Ha|Ha].
    + exists (0%nat :: (S <$> ks)). split_and!.
      * apply NoDup_cons. split; [|done]. intros (k' & ? & _)%HinS. lia.
      * simpl. rewrite length_fmap. lia.
      * intros k. rewrite elem_of_cons, HinS. split.
        -- intros [->|(k' & -> & Hk')]; [by exists a|done].
        -- intros (x & Hx & HP). destruct k as [|k']; [by left|].
           right. exists k'. split; [done|]. by exists x.
    + exists (S <$> ks). split_and!; [done|by rewrite length_fmap|].
      intros k. rewrite HinS. split.
      * intros (k' & -> & Hk'). done.
      * intros (x & Hx & HP). destruct k as [|k'].
        -- simpl in Hx. by injection Hx as ->.
        -- exists k'. split; [done|]. by exists x.
Qed.

Lemma length_bind_ext {A B C : Type} (f : A -> list B) (h : A -> list C) (l : list A) :
  (∀ x, x ∈ l → length (f x) = length (h x)) → length (l ≫= f) = length (l ≫= h).
Proof.
  induction l as [|x l IH]; intros Hfh; [done|].
  rewrite !bind_cons, !length_app, (Hfh x) by (by left).
  f_equal. apply IH. intros y Hy. apply Hfh. by right.
Qed.

Lemma done_row_length g S0 ibd st e :
  Inv g S0 ibd (flatnonzero S0) st → e ∈ flatnonzero S0 →
  ∃ row, Rwg0.local2global_map st !! e = Some row ∧ length row = 3%nat.
Proof.
  intros HI He.
  destruct (inv_done _ _ _ _ _ HI e He) as (ms & ds & Hms & Hds & _ & Hcase).
  destruct Hcase as [(_ & _ & _ & Hrow)|(f & df & _ & _ & _ & _ & Hrow)].
  - by exists [0; 0; 0].
  - exists (alias_row ms ds df). split; [done|]. by apply alias_row_length.
Qed.

Lemma length_boundary_ids g S0 ibd st :
  wf_input g S0 → wf_adjacency g →
  Inv g S0 ibd (flatnonzero S0) st →
  length (boundary_ids g S0 ibd (Rwg0.local2global_map st) (flatnonzero S0))
  = if ibd then length (boundary_slots g S0) else 0%nat.
Proof.
  intros Hwf Hadj HI. unfold boundary_ids, boundary_slots.
  destruct (bool_cases ibd) as [->| ->]; [|done].
  rewrite <- flatnonzero_members.
  apply length_bind_ext. intros e He.
  destruct (done_row_length _ _ _ _ _ HI He) as (row & Hrow & Hlen).
  assert (e < number_of_elements g)%nat as Hlt.
  { apply flatnonzero_lt in He. by destruct Hwf as [_ <-]. }
  unfold boundary_ids_of, slot_ids. rewrite Hrow.
  change (default [] (Some row)) with row.
  apply length_bind_ext. intros i Hi. apply elem_of_seq in Hi.
  rewrite (boundary_slot_neighbour _ _ _ _ Hwf Hadj Hlt) by lia.
  destruct (neighbour_in_support g S0 e i); [done|]. simpl.
  destruct (lookup_lt_is_Some_2 row i) as [v ->]; [lia|done].
Qed.

(** An edge carries an id once the loop is over exactly when it is
    interior to the support. *)
Lemma edge_dof_iff_interior g S0 ibd st :
  wf_input g S0 → wf_adjacency g →
  Rwg0.assign_dofs g S0 ibd = Ok st → Inv g S0 ibd (flatnonzero S0) st →
  ∀ k, (∃ d, Rwg0.edge_dofs st !! k = Some d ∧ d ≠ -1) ↔ interior_edge g S0 k.
Proof.
  intros Hwf Hadj Hst HI k. split.
  - intros (d & Hk & Hd).
    destruct (for_each_interior _ _ _ _ _ Hst k d Hk Hd)
      as (e & i & nbrs & other & He & Hi & Htopo & Ho).
    assert (e < number_of_elements g)%nat as Hlt.
    { apply flatnonzero_lt in He. by destruct Hwf as [_ <-]. }
    destruct (topology_neighbour _ _ _ _ _ _ _ Hadj Hlt Hi Htopo) as (Hk' & Hiff & _).
    exists e, i. split_and!; try done.
    + by apply elem_of_flatnonzero.
    + by apply Hiff.
  - intros (e & i & He & Hi & Hk & Hn).
    assert (e < number_of_elements g)%nat as Hlt.
    { destruct Hwf as [_ <-]. by eapply lookup_lt_Some. }
    destruct (slot_topology_total g S0 e i Hwf Hlt Hi)
      as (k' & nbrs & other & low & Htopo & _).
    destruct (topology_neighbour _ _ _ _ _ _ _ Hadj Hlt Hi Htopo) as (Hk' & Hiff & _).
    assert (k' = k) as -> by congruence.
    assert (other ≠ -1) as Ho by (by apply Hiff).
    apply elem_of_flatnonzero in He.
    destruct (inv_done _ _ _ _ _ HI e He) as (ms & ds & Hms & Hds & Hslots & _).
    destruct (lookup_lt_is_Some_2 ms i) as [m Hm]; [lia|].
    destruct (lookup_lt_is_Some_2 ds i) as [d Hd]; [lia|].
    destruct (Hslots i m d Hm Hd) as (k' & nbrs' & other' & Htopo' & _ & Hint).
    assert (k' = k ∧ other' = other) as [-> ->] by (split; congruence).
    destruct (Hint Ho) as (_ & Hed & Hrange). exists d. split; [done|lia].
Qed.

(** X6.  The DOF count, counted on the grid: the number of edges interior to
    the support (edges across which an element of the support has its
    neighbour in the support), plus, when boundary DOFs are requested, the
    number of slots of the support without such a neighbour.  It never
    exceeds three per element of the support, nor, without boundary DOFs,
    the number of edges of the grid. *)
Theorem dof_count_formula (g : Grid) (S0 : list bool) (ibd : bool) :
  wf_input g S0 → wf_adjacency g →
  ∃ st s' (ks : list nat),
    assigned g S0 ibd st s' ∧
    NoDup ks ∧ (∀ k, k ∈ ks ↔ interior_edge g S0 k) ∧
    Rwg0.count st
    = Z.of_nat (length ks) +
      (if ibd then Z.of_nat (length (boundary_slots g S0)) else 0) ∧
    Rwg0.count st ≤ 3 * Z.of_nat (length (members S0)) ∧
    (ibd = false → Rwg0.count st ≤ Z.of_nat (number_of_edges g)).
Proof.
  intros Hwf Hadj.
  destruct (assigned_total g S0 ibd Hwf) as (st & s' & Has & HI & Hlen & Hlook).
  destruct (filter_positions (fun d => d ≠ -1) (Rwg0.edge_dofs st))
    as (ks & Hnd & Hks & Hin).
  fold (edge_ids (Rwg0.edge_dofs st)) in Hks.
  destruct (inv_alloc _ _ _ _ _ HI) as ((Hc0 & Hcn) & Hedlen & _).
  pose proof (Permutation_length (inv_perm _ _ _ _ _ HI)) as Hperm.
  rewrite length_app, length_seqZ, (length_boundary_ids _ _ _ _ Hwf Hadj HI) in Hperm.
  assert (Rwg0.count st
          = Z.of_nat (length ks) +
            (if ibd then Z.of_nat (length (boundary_slots g S0)) else 0)) as Hcount.
  { rewrite Hks. destruct ibd; lia. }
  exists st, s', ks. split_and!; try done.
  - intros k. rewrite Hin. apply (edge_dof_iff_interior _ _ _ _ Hwf Hadj (proj1 Has) HI).
  - by rewrite <- flatnonzero_members.
  - intros ->. rewrite Hcount, Hks, <- Hedlen.
    pose proof (length_filter (fun d => d ≠ -1) (Rwg0.edge_dofs st)) as Hle.
    unfold edge_ids. lia.
Qed.

Lemma dof_count_formula_witness :
  ∃ st s' (ks : list nat),
    assigned two_triangles [true; true] true st s' ∧
    NoDup ks ∧ (∀ k, k ∈ ks ↔ interior_edge two_triangles [true; true] k) ∧
    Rwg0.count st
    = Z.of_nat (length ks) +
      (if true then Z.of_nat (length (boundary_slots two_triangles [true; true])) else 0) ∧
    Rwg0.count st ≤ 3 * Z.of_nat (length (members [true; true])) ∧
    (true = false → Rwg0.count st ≤ Z.of_nat (number_of_edges two_triangles)).
Proof.
  apply (dof_count_formula two_triangles [true; true] true).
  - refine (bool_decide_unpack _ _). vm_compute. exact I.
  - refine (bool_decide_unpack _ _). vm_compute. exact I.
Defined.

(** The element behind an edge's id, and behind a boundary id. *)
Lemma edge_carrier g S0 ibd st (s' : list bool) e i k nbrs other d :
  Inv g S0 ibd (flatnonzero S0) st →
  (∀ e, s' !! e = Some true ↔
        S0 !! e = Some true ∧ e ∉ Rwg0.delete_from_support st) →
  S0 !! e = Some true → (i < 3)%nat →
  Rwg0.slot_topology g S0 e i = Ok (k, nbrs, other) → other ≠ -1 →
  Rwg0.edge_dofs st !! k = Some d →
  carries st s' e d.
Proof.
  intros HI Hlook He Hi Htopo Ho Hk.
  assert (s' !! e = Some true) as Hkept.
  { apply Hlook. split; [done|]. apply (kept_iff _ _ _ _ _ HI He).
    right. exists i. split; [done|]. apply not_true_is_false.
    by rewrite (boundary_slot_spec _ _ _ _ _ _ _ Htopo). }
  destruct (kept_rows _ _ _ _ _ _ HI Hlook Hkept)
    as (ms & ds & f & df & Hms & Hds & Hslots & _).
  destruct (lookup_lt_is_Some_2 ms i) as [m Hm]; [lia|].
  destruct (lookup_lt_is_Some_2 ds i) as [d' Hd']; [lia|].
  destruct (Hslots i m d' Hm Hd') as (k' & nbrs' & other' & Htopo' & _ & Hint).
  assert (nbrs' = nbrs ∧ other' = other) as [-> ->] by (split; congruence).
  destruct (Hint Ho) as ((low & Hlow & _) & _).
  destruct (kept_interior_slot _ _ _ _ _ _ _ _ _ _ _ HI Hlook Hkept Hi Htopo Ho Hlow)
    as (d0 & Hmv & Hl2g & Hed & _).
  assert (d0 = d) as -> by congruence.
  split; [done|]. exists i, (sign_of e low). split_and!; try done.
  unfold sign_of. case_decide; lia.
Qed.

Lemma boundary_carrier g S0 ibd st (s' : list bool) e d :
  Inv g S0 ibd (flatnonzero S0) st →
  (∀ e, s' !! e = Some true ↔
        S0 !! e = Some true ∧ e ∉ Rwg0.delete_from_support st) →
  ibd = true → S0 !! e = Some true →
  d ∈ boundary_ids_of g S0 (Rwg0.local2global_map st) e →
  carries st s' e d.
Proof.
  intros HI Hlook Hibd He Hin.
  assert (s' !! e = Some true) as Hkept.
  { apply Hlook. split; [done|]. apply (kept_iff _ _ _ _ _ HI He). by left. }
  destruct (kept_rows _ _ _ _ _ _ HI Hlook Hkept)
    as (ms & ds & f & df & Hms & Hds & Hslots & _ & _ & Hlm & Hl2g).
  unfold boundary_ids_of, slot_ids in Hin. rewrite Hl2g in Hin.
  change (default [] (Some ?r)) with r in Hin.
  apply list_elem_of_bind in Hin as (i & Hin & Hi). apply elem_of_seq in Hi.
  destruct (boundary_slot g S0 e i) eqn:Hbs; [|by apply elem_of_nil in Hin].
  destruct (alias_row ms ds df !! i) as [v|] eqn:Hv; [|by apply elem_of_nil in Hin].
  apply list_elem_of_singleton in Hin as ->.
  destruct (lookup_lt_is_Some_2 ms i) as [m Hm]; [lia|].
  destruct (lookup_lt_is_Some_2 ds i) as [d' Hd']; [lia|].
  destruct (Hslots i m d' Hm Hd') as (k & nbrs & other & Htopo & Hb & _).
  destruct (Hb (proj1 (boundary_slot_spec _ _ _ _ _ _ _ Htopo) Hbs)) as [Hmv _].
  rewrite Hibd in Hmv.
  split; [done|]. exists i, m. split_and!.
  - apply getitem2_Ok. eauto.
  - apply getitem2_Ok. eauto.
  - lia.
Qed.

(** X7.  No global DOF is left without a basis function: every id below the
    DOF count is the id of some slot of a kept element whose multiplier is
    not zero. *)
Theorem every_dof_is_used (g : Grid) (S0 : list bool) (ibd : bool) :
  wf_input g S0 →
  ∃ st s',
    assigned g S0 ibd st s' ∧
    ∀ d, 0 ≤ d < Rwg0.count st →
      ∃ e i m,
        s' !! e = Some true ∧
        getitem2 (Rwg0.local2global_map st) e i = Ok d ∧
        getitem2 (Rwg0.local_multipliers st) e i = Ok m ∧ m ≠ 0.
Proof.
  intros Hwf.
  destruct (assigned_total g S0 ibd Hwf) as (st & s' & Has & HI & Hlen & Hlook).
  exists st, s'. split; [done|]. intros d Hd.
  assert (d ∈ seqZ 0 (Rwg0.count st)) as Hin by (apply elem_of_seqZ; lia).
  rewrite <- (inv_perm _ _ _ _ _ HI) in Hin.
  assert (∃ e, carries st s' e d) as (e & He & i & m & Hcarried).
  { apply elem_of_app in Hin as [Hin|Hin].
    - apply list_elem_of_filter in Hin as [Hne Hin].
      apply list_elem_of_lookup in Hin as [k Hk].
      destruct (for_each_interior _ _ _ _ _ (proj1 Has) k d Hk Hne)
        as (e & i & nbrs & other & He & Hi & Htopo & Ho).
      apply elem_of_flatnonzero in He.
      exists e. by eapply edge_carrier.
    - unfold boundary_ids in Hin.
      destruct (bool_cases ibd) as [Hibd|Hibd]; rewrite Hibd in Hin;
        [|by apply elem_of_nil in Hin].
      apply list_elem_of_bind in Hin as (e & Hin & He).
      apply elem_of_flatnonzero in He.
      exists e. by eapply boundary_carrier. }
  by exists e, i, m.
Qed.

Lemma every_dof_is_used_witness :
  ∃ st s',
    assigned two_triangles [true; true] false st s' ∧
    ∀ d, 0 ≤ d < Rwg0.count st →
      ∃ e i m,
        s' !! e = Some true ∧
        getitem2 (Rwg0.local2global_map st) e i = Ok d ∧
        getitem2 (Rwg0.local_multipliers st) e i = Ok m ∧ m ≠ 0.
Proof.
  apply (every_dof_is_used two_triangles [true; true] false).
  refine (bool_decide_unpack _ _). vm_compute. exact I.
Defined.

(** * Further properties of the assembler *)

Lemma foldr_bind_skip {A T : Type} (Tzero : T) (Tadd : T -> T -> T)
    (f h : A -> list T) (l : list A) :
  (∀ y, Tadd Tzero y = y) →
  (∀ x, x ∈ l → f x = h x ∨ (h x = [] ∧ f x = [Tzero])) →
  foldr Tadd Tzero (l ≫= f) = foldr Tadd Tzero (l ≫= h).
Proof.
  intros Hadd. induction l as [|x l IH]; intros Hfh; [done|].
  rewrite !bind_cons, !foldr_app, IH by (intros y Hy; apply Hfh; by right).
  destruct (Hfh x) as [->|[-> ->]]; [by left|done|]. simpl. apply Hadd.
Qed.

(** X11.  Slots with a zero multiplier do not contribute (the remark at lines
    87-90 of the constructor): when scaling by 0 gives the zero of the
    number type, scaling zero gives zero, and zero is neutral on the left
    of the sum, every entry of every matrix that [assemble] returns is
    the sum over the elements in both supports and those of their slot
    pairs whose two multipliers are both nonzero.  The id that a
    zero-multiplier slot borrows adds nothing to its row or column.  A
    matrix is returned when an element lies in both supports, no device
    buffer is empty and the device carries out every call. *)
Theorem zero_multipliers_do_not_contribute {T : Type} (Tzero : T) (Tadd : T -> T -> T)
    (regular_rule : nat -> nat) (kernel : nat -> nat -> nat -> T)
    (Tscale : T -> Z -> T) (sort_indices : list (Z * Z * T) -> list (Z * Z * T))
    (domain dual_to_range : Space)
    (parameters : Parameters) (od : OperatorDescriptor)
    (device : Device) (log : list device_call) :
  (∀ x, Tscale x 0 = Tzero) → (∀ m, Tscale Tzero m = Tzero) →
  (∀ y, Tadd Tzero y = y) →
  (∀ x y z, Tadd x (Tadd y z) = Tadd (Tadd x y) z) →
  (∀ x y, Tadd x y = Tadd y x) →
  csr_order sort_indices →
  wf_space domain → wf_space dual_to_range → grid domain = grid dual_to_range →
  (accepts_every_call device →
   buffers_nonempty (regular_rule (quadrature_regular parameters))
     (localised_space domain) (localised_space dual_to_range) →
   (∃ e, support domain !! e = Some true ∧ support dual_to_range !! e = Some true) →
   ∃ M log',
     assemble regular_rule kernel Tscale Tadd sort_indices domain dual_to_range
       parameters od device log
     = (Ok M, log ++ log')) ∧
  ∀ M log1,
    assemble regular_rule kernel Tscale Tadd sort_indices domain dual_to_range
      parameters od device log
    = (Ok M, log1) →
    ∀ r c,
      matrix_entry Tzero Tadd M r c
      = foldr Tadd Tzero
          (local_contributions_nonzero kernel Tscale domain dual_to_range r c).
Proof.
  intros Hs0 Hz Hadd Hassoc Hcomm Hsort HwD HwR Hgrid.
  destruct (assemble_run regular_rule kernel Tscale Tadd sort_indices domain
              dual_to_range parameters od device log HwD HwR Hgrid)
    as (Hok & Hinv & Hslot).
  split.
  { intros Hdev Hbuf Hcommon. apply common_elements_nonempty in Hcommon.
    destruct (Hok Hdev Hbuf Hcommon) as (log' & Hrun). by eexists _, log'. }
  intros M log1 HM r c. destruct (Hinv M log1 HM) as (_ & _ & ->).
  rewrite (tocsr_entry Tzero Tadd Hassoc Hcomm) by done.
  unfold matrix_entry. cbn [triplets].
  rewrite (filter_fmap_bind _ (slot_triplet kernel Tscale domain dual_to_range) snd).
  unfold local_contributions_nonzero.
  rewrite <- (block_index_bind
    (fun x : nat * nat * nat =>
       match entry2 (local2global dual_to_range) x.1.1 x.1.2,
             entry2 (local2global domain) x.1.1 x.2,
             entry2 (local_multipliers dual_to_range) x.1.1 x.1.2,
             entry2 (local_multipliers domain) x.1.1 x.2 with
       | Some r', Some c', Some m_test, Some m_trial =>
           if decide (r' = r ∧ c' = c ∧ m_test ≠ 0 ∧ m_trial ≠ 0)
           then [Tscale (Tscale (kernel x.1.1 x.1.2 x.2) m_trial) m_test]
           else []
       | _, _, _, _ => []
       end)).
  apply foldr_bind_skip; [done|].
  intros [[e i] j] Hx. apply elem_of_block_index in Hx as (He & Hi & Hj).
  destruct (Hslot e i j He Hi Hj)
    as (r' & c' & mt & md & Hr & Hc & Hmt & Hmd & _ & _ & Htrip).
  cbn [fst snd]. rewrite Htrip, Hr, Hc, Hmt, Hmd. cbn [fst snd].
  destruct (decide (r' = r ∧ c' = c)) as [[-> ->]|Hrc].
  - destruct (decide (mt = 0)) as [->|Hmt0].
    + right. rewrite Hs0. split; [|done]. apply decide_False. tauto.
    + destruct (decide (md = 0)) as [->|Hmd0].
      * right. rewrite Hs0, Hz. split; [|done]. apply decide_False. tauto.
      * left. by rewrite decide_True.
  - left. rewrite decide_False by tauto. done.
Qed.

Lemma zero_multipliers_do_not_contribute_witness :
  ∃ M log',
    assemble (fun _ => 3%nat) (fun e i j => Z.of_nat (100 * e + 10 * i + j)) Z.mul
      Z.add sort_by_position
      two_triangles_interior two_triangles_interior
      (Build_Parameters 4 false) (Build_OperatorDescriptor "maxwell_identity" ∅)
      ready_device []
      = (Ok M, [] ++ log') ∧
    ∀ r c,
      matrix_entry 0 Z.add M r c
      = foldr Z.add 0
          (local_contributions_nonzero
             (fun e i j => Z.of_nat (100 * e + 10 * i + j)) Z.mul
             two_triangles_interior two_triangles_interior r c).
Proof.
  destruct (zero_multipliers_do_not_contribute 0 Z.add (fun _ => 3%nat)
              (fun e i j => Z.of_nat (100 * e + 10 * i + j)) Z.mul sort_by_position
              two_triangles_interior two_triangles_interior
              (Build_Parameters 4 false)
              (Build_OperatorDescriptor "maxwell_identity" ∅) ready_device [])
    as [Hrun Hentries].
  - intros x. lia.
  - intros m. lia.
  - intros y. lia.
  - intros x y z. lia.
  - intros x y. lia.
  - apply sort_by_position_order.
  - refine (bool_decide_unpack _ _). vm_compute. exact I.
  - refine (bool_decide_unpack _ _). vm_compute. exact I.
  - reflexivity.
  - destruct Hrun as (M & log' & HM).
    + intros log c. reflexivity.
    + refine (bool_decide_unpack _ _). vm_compute. exact I.
    + exists 0%nat. split; reflexivity.
    + exists M, log'. split; [exact HM|]. exact (Hentries M _ HM).
Defined.

(** ** Supports without a common element *)

Lemma common_elements_none (s1 s2 : list bool) :
  (∀ e, s1 !! e = Some true → s2 !! e = Some true → False) →
  common_elements s1 s2 = [].
Proof.
  intros Hdis. apply elem_of_nil_inv. intros e He.
  apply elem_of_common_elements in He as [H1 H2]. by eapply Hdis.
Qed.

Lemma assemble_sparse_disjoint {T : Type} (regular_rule : nat -> nat)
    (kernel : nat -> nat -> nat -> T) (domain dual_to_range : LocalisedSpace)
    (parameters : Parameters) (od : OperatorDescriptor)
    (device : Device) (log : list device_call) :
  grid_id (ls_grid domain) = grid_id (ls_grid dual_to_range) →
  length (ls_support domain) = length (ls_support dual_to_range) →
  common_elements (ls_support domain) (ls_support dual_to_range) = [] →
  let nquad := regular_rule (quadrature_regular parameters) in
  (∃ e log1,
     assemble_sparse regular_rule kernel domain dual_to_range parameters od device log
     = (Raise e, log1) ∧ device_error e) ∧
  (accepts_every_call device → nquad ≠ 0%nat →
   assemble_sparse regular_rule kernel domain dual_to_range parameters od device log
   = (Raise invalid_buffer_size,
      log ++ [BufferFromArray "quad_points" (2 * nquad);
              BufferFromArray "quad_weights" nquad; PushGrid])).
Proof.
  intros Hid Hlen Hnone nquad.
  pose proof (active_elements_common _ _ Hlen) as Hact. rewrite Hnone in Hact.
  split.
  - destruct (assemble_sparse regular_rule kernel domain dual_to_range parameters od
                device log) as [[x|e] log1] eqn:Hrun.
    + apply assemble_sparse_inv in Hrun as (_ & elements & Hel & Hne & _).
      rewrite Hact in Hel. by injection Hel as <-.
    + exists e, log1. split; [done|].
      by apply (assemble_sparse_raise _ _ _ _ _ _ _ _ _ _ Hid) in Hrun as [?|[? _]].
  - intros Hdev Hq. unfold assemble_sparse, grid_ne.
    rewrite Hid, Nat.eqb_refl. cbn [negb].
    unfold _prepare_buffers, dev_bind, lift.
    rewrite (from_array_ready "quad_points") by (done || lia).
    rewrite (from_array_ready "quad_weights") by done.
    rewrite call_ready by done. rewrite Hact.
    unfold from_array, dev_raise. cbn [length]. rewrite decide_True by done.
    by rewrite <- !app_assoc.
Qed.

Lemma assemble_disjoint {T : Type} (regular_rule : nat -> nat)
    (kernel : nat -> nat -> nat -> T) (Tscale : T -> Z -> T) (Tadd : T -> T -> T)
    (sort_indices : list (Z * Z * T) -> list (Z * Z * T))
    (domain dual_to_range : Space)
    (parameters : Parameters) (od : OperatorDescriptor)
    (device : Device) (log : list device_call) :
  grid_id (ls_grid (localised_space domain))
    = grid_id (ls_grid (localised_space dual_to_range)) →
  length (ls_support (localised_space domain))
    = length (ls_support (localised_space dual_to_range)) →
  common_elements (ls_support (localised_space domain))
    (ls_support (localised_space dual_to_range)) = [] →
  let nquad := regular_rule (quadrature_regular parameters) in
  (∃ e log1,
     assemble regular_rule kernel Tscale Tadd sort_indices domain dual_to_range
       parameters od device log
     = (Raise e, log1) ∧ device_error e) ∧
  (accepts_every_call device → nquad ≠ 0%nat →
   assemble regular_rule kernel Tscale Tadd sort_indices domain dual_to_range
     parameters od device log
   = (Raise invalid_buffer_size,
      log ++ [BufferFromArray "quad_points" (2 * nquad);
              BufferFromArray "quad_weights" nquad; PushGrid])).
Proof.
  intros Hid Hlen Hnone nquad.
  destruct (assemble_sparse_disjoint regular_rule kernel _ _ parameters od device log
              Hid Hlen Hnone) as [(e & log1 & Hrun & He) Hready].
  split.
  - exists e, log1. split; [|done]. unfold assemble, dev_bind. by rewrite Hrun.
  - intros Hdev Hq. unfold assemble, dev_bind. by rewrite (Hready Hdev Hq).
Qed.

(** X13.  Disjoint supports: when the two spaces are on one grid, with masks
    of one length, and no element lies in both supports, [assemble_sparse]
    and [assemble] never return an empty matrix.  On every device they
    raise an error of the device, without looking at the maps or the
    multipliers; on a device that carries out every call, with a
    quadrature rule that has a point, it is the error for the buffer of
    the (empty) list of common elements, which cannot be created, raised
    after the quadrature buffers and the grid have been pushed. *)
Theorem disjoint_supports_are_refused {T : Type} (regular_rule : nat -> nat)
    (kernel : nat -> nat -> nat -> T) (Tscale : T -> Z -> T) (Tadd : T -> T -> T)
    (sort_indices : list (Z * Z * T) -> list (Z * Z * T))
    (domain dual_to_range : Space)
    (parameters : Parameters) (od : OperatorDescriptor)
    (device : Device) (log : list device_call) :
  grid_id (ls_grid (localised_space domain))
    = grid_id (ls_grid (localised_space dual_to_range)) →
  length (ls_support (localised_space domain))
    = length (ls_support (localised_space dual_to_range)) →
  (∀ e, ls_support (localised_space domain) !! e = Some true →
        ls_support (localised_space dual_to_range) !! e = Some true → False) →
  let nquad := regular_rule (quadrature_regular parameters) in
  let pushed := [BufferFromArray "quad_points" (2 * nquad);
                 BufferFromArray "quad_weights" nquad; PushGrid] in
  ((∃ e log1,
      assemble_sparse regular_rule kernel (localised_space domain)
        (localised_space dual_to_range) parameters od device log
      = (Raise e, log1) ∧ device_error e) ∧
   (∃ e log1,
      assemble regular_rule kernel Tscale Tadd sort_indices domain dual_to_range
        parameters od device log
      = (Raise e, log1) ∧ device_error e)) ∧
  (accepts_every_call device → nquad ≠ 0%nat →
   assemble_sparse regular_rule kernel (localised_space domain)
     (localised_space dual_to_range) parameters od device log
   = (Raise invalid_buffer_size, log ++ pushed) ∧
   assemble regular_rule kernel Tscale Tadd sort_indices domain dual_to_range
     parameters od device log
   = (Raise invalid_buffer_size, log ++ pushed)).
Proof.
  intros Hid Hlen Hdis nquad pushed.
  pose proof (common_elements_none _ _ Hdis) as Hnone.
  destruct (assemble_sparse_disjoint regular_rule kernel _ _ parameters od device log
              Hid Hlen Hnone) as [Hsparse Hsparse_ready].
  destruct (assemble_disjoint regular_rule kernel Tscale Tadd sort_indices domain
              dual_to_range parameters od device log Hid Hlen Hnone)
    as [Hfull Hfull_ready].
  split; [by split|]. intros Hdev Hq. split; [by apply Hsparse_ready|by apply Hfull_ready].
Qed.

Example one_triangle_spaces_built :
  Rwg0.init two_triangles [true; false] [1; 1] true = Ok first_triangle_boundary ∧
  Rwg0.init two_triangles [false; true] [1; 1] true = Ok second_triangle_boundary.
Proof. split; vm_compute; reflexivity. Qed.

Lemma disjoint_supports_are_refused_witness :
  assemble_sparse (fun _ => 3%nat) (fun e i j => Z.of_nat (100 * e + 10 * i + j))
    (localised_space first_triangle_boundary)
    (localised_space second_triangle_boundary)
    (Build_Parameters 4 false) (Build_OperatorDescriptor "maxwell_identity" ∅)
    ready_device []
  = (Raise invalid_buffer_size,
     [] ++ [BufferFromArray "quad_points" (2 * 3);
            BufferFromArray "quad_weights" 3; PushGrid]) ∧
  assemble (fun _ => 3%nat) (fun e i j => Z.of_nat (100 * e + 10 * i + j)) Z.mul
    Z.add sort_by_position
    first_triangle_boundary second_triangle_boundary
    (Build_Parameters 4 false) (Build_OperatorDescriptor "maxwell_identity" ∅)
    ready_device []
  = (Raise invalid_buffer_size,
     [] ++ [BufferFromArray "quad_points" (2 * 3);
            BufferFromArray "quad_weights" 3; PushGrid]).
Proof.
  destruct (disjoint_supports_are_refused (fun _ => 3%nat)
              (fun e i j => Z.of_nat (100 * e + 10 * i + j)) Z.mul Z.add
              sort_by_position
              first_triangle_boundary second_triangle_boundary
              (Build_Parameters 4 false)
              (Build_OperatorDescriptor "maxwell_identity" ∅) ready_device [])
    as [_ Hready].
  - reflexivity.
  - reflexivity.
  - intros [|[|e]] H1 H2; vm_compute in H1, H2; congruence.
  - apply Hready.
    + intros log c. reflexivity.
    + simpl. lia.
Defined.

(** ** The constructor and the assembler together *)

Lemma init_fields g S0 nm ibd sp :
  Rwg0.init g S0 nm ibd = Ok sp →
  grid sp = g ∧ ls_number_of_shape_functions (localised_space sp) = 3%nat ∧
  ls_normal_multipliers (localised_space sp) = nm ∧
  ls_grid (localised_space sp) = g ∧
  ls_support (localised_space sp) = support sp.
Proof.
  unfold Rwg0.init. intros H.
  apply bind_Ok in H as (st & _ & H). apply bind_Ok in H as (s' & _ & H).
  case_decide; [done|]. by injection H as <-.
Qed.

(** X12.  The constructor and the assembler fit together.  Take any two
    spaces that the constructor returns on one well-formed grid, whatever
    their supports and boundary policies, orientation signs for at least
    one element, a quadrature rule with a point and a device that carries
    out every call.  When an element lies in both final supports,
    [assemble] raises nothing and returns a matrix of shape (test DOF
    count, trial DOF count) that stores at most nine entries per common
    element.  When none does, it raises the device's error for the empty
    element buffer. *)
Theorem constructed_spaces_assemble {T : Type} (regular_rule : nat -> nat)
    (kernel : nat -> nat -> nat -> T) (Tscale : T -> Z -> T) (Tadd : T -> T -> T)
    (sort_indices : list (Z * Z * T) -> list (Z * Z * T))
    (g : Grid) (S1 S2 : list bool) (nm1 nm2 : list Z) (ibd1 ibd2 : bool)
    (domain dual_to_range : Space)
    (parameters : Parameters) (od : OperatorDescriptor)
    (device : Device) (log : list device_call) :
  csr_order sort_indices →
  wf_input g S1 → wf_input g S2 →
  Rwg0.init g S1 nm1 ibd1 = Ok domain →
  Rwg0.init g S2 nm2 ibd2 = Ok dual_to_range →
  nm1 ≠ [] → nm2 ≠ [] →
  regular_rule (quadrature_regular parameters) ≠ 0%nat →
  accepts_every_call device →
  ((∃ e, support domain !! e = Some true ∧ support dual_to_range !! e = Some true) →
   ∃ M log',
     assemble regular_rule kernel Tscale Tadd sort_indices domain dual_to_range
       parameters od device log
       = (Ok M, log ++ log') ∧
     shape M = (global_dof_count dual_to_range, global_dof_count domain) ∧
     (length (triplets M)
      ≤ 9 * length (common_elements (support domain) (support dual_to_range)))%nat) ∧
  ((∀ e, support domain !! e = Some true →
         support dual_to_range !! e = Some true → False) →
   ∃ log',
     assemble regular_rule kernel Tscale Tadd sort_indices domain dual_to_range
       parameters od device log
     = (Raise invalid_buffer_size, log ++ log')).
Proof.
  intros Hsort Hw1 Hw2 Hd Hr Hnm1 Hnm2 Hq Hdev.
  pose proof (init_wf_space _ _ _ _ _ Hw1 Hd) as HwD.
  pose proof (init_wf_space _ _ _ _ _ Hw2 Hr) as HwR.
  destruct (init_fields _ _ _ _ _ Hd) as (HgD & HnD & HmD & HlgD & HlsD).
  destruct (init_fields _ _ _ _ _ Hr) as (HgR & HnR & HmR & HlgR & HlsR).
  assert (grid domain = grid dual_to_range) as Hgrid by congruence.
  split.
  - intros Hcommon. apply common_elements_nonempty in Hcommon.
    destruct (assemble_run regular_rule kernel Tscale Tadd sort_indices domain
                dual_to_range parameters od device log HwD HwR Hgrid)
      as (Hok & _ & _).
    destruct Hok as (log' & Hrun); [done| |done|].
    { unfold buffers_nonempty. rewrite HnD, HnR, HmD, HmR. by split_and!. }
    eexists _, log'. split; [exact Hrun|]. split; [done|].
    etrans; [by apply tocsr_length|]. cbn [triplets].
    rewrite length_fmap, length_block_index, HnD, HnR. lia.
  - intros Hdis. eexists.
    apply assemble_disjoint; [congruence| | |done|done].
    + rewrite HlsD, HlsR.
      destruct HwD as (_ & _ & -> & _), HwR as (_ & _ & -> & _). by rewrite Hgrid.
    + rewrite HlsD, HlsR. by apply common_elements_none.
Qed.

Lemma constructed_spaces_assemble_witness :
  (∃ M log',
     assemble (fun _ => 3%nat) (fun e i j => Z.of_nat (100 * e + 10 * i + j)) Z.mul
       Z.add sort_by_position
       two_triangles_interior two_triangles_boundary
       (Build_Parameters 4 false) (Build_OperatorDescriptor "maxwell_identity" ∅)
       ready_device []
       = (Ok M, [] ++ log') ∧
     shape M = (global_dof_count two_triangles_boundary,
                global_dof_count two_triangles_interior) ∧
     (length (triplets M)
      ≤ 9 * length (common_elements (support two_triangles_interior)
                      (support two_triangles_boundary)))%nat) ∧
  (∃ log',
     assemble (fun _ => 3%nat) (fun e i j => Z.of_nat (100 * e + 10 * i + j)) Z.mul
       Z.add sort_by_position
       first_triangle_boundary second_triangle_boundary
       (Build_Parameters 4 false) (Build_OperatorDescriptor "maxwell_identity" ∅)
       ready_device []
     = (Raise invalid_buffer_size, [] ++ log')).
Proof.
  split.
  - apply (constructed_spaces_assemble (fun _ => 3%nat)
             (fun e i j => Z.of_nat (100 * e + 10 * i + j)) Z.mul Z.add
             sort_by_position
             two_triangles [true; true] [true; true] [1; 1] [1; 1] false true).
    + apply sort_by_position_order.
    + refine (bool_decide_unpack _ _). vm_compute. exact I.
    + refine (bool_decide_unpack _ _). vm_compute. exact I.
    + vm_compute. reflexivity.
    + vm_compute. reflexivity.
    + discriminate.
    + discriminate.
    + simpl. lia.
    + intros log c. reflexivity.
    + exists 0%nat. split; reflexivity.
  - apply (constructed_spaces_assemble (fun _ => 3%nat)
             (fun e i j => Z.of_nat (100 * e + 10 * i + j)) Z.mul Z.add
             sort_by_position
             two_triangles [true; false] [false; true] [1; 1] [1; 1] true true).
    + apply sort_by_position_order.
    + refine (bool_decide_unpack _ _). vm_compute. exact I.
    + refine (bool_decide_unpack _ _). vm_compute. exact I.
    + vm_compute. reflexivity.
    + vm_compute. reflexivity.
    + discriminate.
    + discriminate.
    + simpl. lia.
    + intros log c. reflexivity.
    + intros [|[|e]] H1 H2; vm_compute in H1, H2; congruence.
Defined.

(** X15.  Flattening and indexing undo each other: for an array of [ne] rows
    of [n] entries with fewer than 2^32 entries in all, the flat index
    that the assembler computes for element [e] and slot [i], its uint32
    arithmetic included, selects in the flattened array exactly the entry
    [(e, i)] of the array. *)
Theorem ravel_flat_index {A : Type} (a : list (list A)) (n ne e i : nat) :
  length a = ne → Forall (fun row => length row = n) a →
  (e < ne)%nat → (i < n)%nat →
  Z.of_nat ne * Z.of_nat n < 2 ^ 32 →
  ∃ v, entry2 a e i = Some v ∧
       py_index (ravel a) (Z.of_nat i + uint32 (uint32 (Z.of_nat e) * Z.of_nat n)) = Ok v ∧
       take_at (ravel a) [Z.of_nat i + uint32 (uint32 (Z.of_nat e) * Z.of_nat n)]
       = Ok [v].
Proof.
  intros Hlen Hrows He Hi Hsz.
  destruct (gather_entry a n ne e i Hlen Hrows He Hi Hsz) as (v & Hv & Hidx).
  exists v. split_and!; try done. simpl. by rewrite Hidx.
Qed.

Lemma ravel_flat_index_witness :
  ∃ v, entry2 [[10; 11; 12]; [20; 21; 22]] 1 2 = Some v ∧
       py_index (ravel [[10; 11; 12]; [20; 21; 22]])
         (Z.of_nat 2 + uint32 (uint32 (Z.of_nat 1) * Z.of_nat 3)) = Ok v ∧
       take_at (ravel [[10; 11; 12]; [20; 21; 22]])
         [Z.of_nat 2 + uint32 (uint32 (Z.of_nat 1) * Z.of_nat 3)]
       = Ok [v].
Proof.
  apply (ravel_flat_index [[10; 11; 12]; [20; 21; 22]] 3 2 1 2).
  - reflexivity.
  - repeat constructor.
  - lia.
  - lia.
  - reflexivity.
Defined.

(** * The boundary policy and the success of the constructor *)

Lemma for_each_ext {A B : Type} (f h : A -> B -> result A) (xs : list B) : ∀ acc,
  (∀ a x, x ∈ xs → f a x = h a x) → for_each f xs acc = for_each h xs acc.
Proof.
  induction xs as [|x xs IH]; intros acc Hfh; [done|]. simpl.
  rewrite (Hfh acc x) by (by left). destruct (h acc x) as [acc'|err]; [|done].
  simpl. apply IH. intros a y Hy. apply Hfh. by right.
Qed.

(** A slot that is not a boundary slot is handled in the same way under
    both boundary policies. *)
Lemma assign_slot_policy g S0 e acc i :
  boundary_slot g S0 e i = false →
  Rwg0.assign_slot g S0 true e acc i = Rwg0.assign_slot g S0 false e acc i.
Proof.
  intros Hbs. destruct acc as [st dm]. unfold Rwg0.assign_slot.
  unfold boundary_slot in Hbs.
  destruct (Rwg0.slot_topology g S0 e i) as [[[k nbrs] other]|err]; [|done].
  rewrite !ok_bind. apply bool_decide_eq_false_1 in Hbs.
  by destruct (decide (other = -1)).
Qed.

(** X9.  The boundary policy matters only at the boundary: when every slot of
    every element of the support has its neighbour in the support, as on
    a closed surface covered entirely, the constructor does the same with
    and without boundary DOFs, be it a space or an exception. *)
Theorem boundary_policy_without_boundary (g : Grid) (S0 : list bool) (nm : list Z) :
  (∀ e i, S0 !! e = Some true → (i < 3)%nat → boundary_slot g S0 e i = false) →
  Rwg0.assign_dofs g S0 true = Rwg0.assign_dofs g S0 false ∧
  Rwg0.init g S0 nm true = Rwg0.init g S0 nm false.
Proof.
  intros Hno.
  assert (Rwg0.assign_dofs g S0 true = Rwg0.assign_dofs g S0 false) as Hloop.
  { unfold Rwg0.assign_dofs. apply for_each_ext. intros st e He.
    apply elem_of_flatnonzero in He. unfold Rwg0.assign_element.
    rewrite (for_each_ext (Rwg0.assign_slot g S0 true e)
               (Rwg0.assign_slot g S0 false e)); [done|].
    intros acc i Hi. apply elem_of_seq in Hi.
    apply assign_slot_policy, Hno; [done|lia]. }
  split; [done|]. unfold Rwg0.init. by rewrite Hloop.
Qed.

Lemma boundary_policy_without_boundary_witness :
  Rwg0.assign_dofs tetrahedron [true; true; true; true] true
  = Rwg0.assign_dofs tetrahedron [true; true; true; true] false ∧
  Rwg0.init tetrahedron [true; true; true; true] [1; 1; 1; 1] true
  = Rwg0.init tetrahedron [true; true; true; true] [1; 1; 1; 1] false.
Proof.
  apply (boundary_policy_without_boundary tetrahedron [true; true; true; true]
           [1; 1; 1; 1]).
  intros [|[|[|[|e]]]] [|[|[|i]]] He Hi; try lia; try discriminate He;
    vm_compute; reflexivity.
Defined.

(** X2.  When the constructor returns a space, read off the grid and the
    mask: it does when some element of the support keeps a DOF, that is,
    when boundary DOFs are requested and the support is not empty, or an
    element of the support has its neighbour across one of its edges in
    the support.  When no element does, it raises the empty-support
    error. *)
Theorem init_succeeds_iff (g : Grid) (S0 : list bool) (nm : list Z) (ibd : bool) :
  wf_input g S0 → wf_adjacency g →
  let keeps := fun e =>
    S0 !! e = Some true ∧
    (ibd = true ∨ ∃ i, (i < 3)%nat ∧ neighbour_in_support g S0 e i = true) in
  ((∃ e, keeps e) → ∃ sp, Rwg0.init g S0 nm ibd = Ok sp) ∧
  ((∀ e, ¬ keeps e) →
   Rwg0.init g S0 nm ibd
   = Raise (ValueError "The support of the function space is empty.")).
Proof.
  intros Hwf Hadj keeps.
  destruct (assigned_total g S0 ibd Hwf) as (st & s' & (_ & _ & Hinit) & HI & Hlen & Hlook).
  assert (∀ e, s' !! e = Some true ↔ keeps e) as Hkeeps.
  { intros e. unfold keeps. rewrite Hlook. split.
    - intros [He Hk]. split; [done|]. by apply (kept_iff_grid _ _ _ _ _ Hwf Hadj HI He).
    - intros [He Hk]. split; [done|]. by apply (kept_iff_grid _ _ _ _ _ Hwf Hadj HI He). }
  rewrite Hinit. split.
  - intros (e & He). rewrite decide_False; [eauto|].
    rewrite count_nonzero_0. intros Hnone. apply (Hnone e). by apply Hkeeps.
  - intros Hnone. rewrite decide_True; [done|].
    apply count_nonzero_0. intros e He. apply (Hnone e). by apply Hkeeps.
Qed.

(** Both cases at work, on the two triangles: the first triangle alone
    has no neighbour in the support and is refused; the two together are
    accepted. *)
Lemma init_succeeds_iff_witness :
  Rwg0.init two_triangles [true; false] [1; 1] false
  = Raise (ValueError "The support of the function space is empty.") ∧
  ∃ sp, Rwg0.init two_triangles [true; true] [1; 1] false = Ok sp.
Proof.
  split.
  - apply (init_succeeds_iff two_triangles [true; false] [1; 1] false).
    + refine (bool_decide_unpack _ _). vm_compute. exact I.
    + refine (bool_decide_unpack _ _). vm_compute. exact I.
    + intros e [He [Hibd|(i & Hi & Hn)]]; [done|].
      destruct e as [|[|e]]; try discriminate He.
      destruct i as [|[|[|i]]]; try lia; discriminate Hn.
  - apply (init_succeeds_iff two_triangles [true; true] [1; 1] false).
    + refine (bool_decide_unpack _ _). vm_compute. exact I.
    + refine (bool_decide_unpack _ _). vm_compute. exact I.
    + exists 0%nat. split; [done|]. right. exists 0%nat. split; [lia|reflexivity].
Defined.

(** * The order of the DOF numbering *)

Lemma for_each_app {A B : Type} (f : A -> B -> result A) (xs ys : list B) : ∀ acc,
  for_each f (xs ++ ys) acc = (for_each f xs acc ≫= for_each f ys).
Proof.
  induction xs as [|x xs IH]; intros acc; [done|]. simpl.
  destruct (f acc x) as [acc'|err]; [|done]. simpl. apply IH.
Qed.

Lemma flatnonzero_from_split (mask : list bool) : ∀ start done a rest,
  flatnonzero_from start mask = done ++ a :: rest →
  ∀ e, e ∈ done → (e < a)%nat.
Proof.
  induction mask as [|b mask IH]; intros start done a rest Hsplit e He; simpl in Hsplit.
  - by destruct done.
  - destruct b; [|by eapply IH].
    destruct done as [|x done]; [by apply elem_of_nil in He|].
    injection Hsplit as <- Hsplit.
    apply elem_of_cons in He as [->|He]; [|by eapply IH].
    assert (a ∈ flatnonzero_from (S start) mask) as Ha.
    { rewrite Hsplit. apply elem_of_app. right. by left. }
    apply elem_of_flatnonzero_from in Ha as [? _]. lia.
Qed.

Lemma frame_refl xs st : frame xs st st.
Proof. split_and!; [lia|done|done]. Qed.

Lemma frame_trans xs st1 st2 st3 :
  frame xs st1 st2 → frame xs st2 st3 → frame xs st1 st3.
Proof.
  intros (Hc1 & He1 & Hr1) (Hc2 & He2 & Hr2). split_and!.
  - lia.
  - intros k d Hk Hd. apply He2; [|done]. by apply He1.
  - intros a Ha. destruct (Hr1 a Ha) as [<- <-]. by apply Hr2.
Qed.

Lemma frame_weaken xs ys st st' :
  (∀ x, x ∈ xs → x ∈ ys) → frame xs st st' → frame ys st st'.
Proof.
  intros Hsub (Hc & He & Hr). split_and!; try done.
  intros a Ha. apply Hr. intros Hin. by apply Ha, Hsub.
Qed.

Lemma assign_slot_frame g S0 ibd e st dm i st' dm' :
  Rwg0.assign_slot g S0 ibd e (st, dm) i = Ok (st', dm') → frame [e] st st'.
Proof.
  intros Hstep. apply assign_slot_step in Hstep.
  assert (∀ (row : list Z) (a : nat), a ∉ [e] →
            <[e := row]> (Rwg0.local_multipliers st) !! a
            = Rwg0.local_multipliers st !! a) as Hlm.
  { intros row a Ha. apply list_lookup_insert_ne. intros ->. apply Ha. by left. }
  inversion Hstep as
    [? ? edge nbrs row Htopo|? ? edge nbrs row Htopo
    |? ? edge nbrs other low row Htopo Ho Hlow Hrow Hi Hed
    |? ? edge nbrs other low row d0 Htopo Ho];
    subst; (split_and!; simpl; [lia| |by auto]); try done.
  intros k d Hk Hd. destruct (decide (k = edge)) as [->|Hne]; [congruence|].
  by rewrite list_lookup_insert_ne.
Qed.

Lemma finish_element_frame st dm e st' :
  Rwg0.finish_element st dm e = Ok st' → frame [e] st st'.
Proof.
  unfold Rwg0.finish_element. intros H.
  assert (∀ {A : Type} (l : list A) (x : A) (a : nat), a ∉ [e] → <[e := x]> l !! a = l !! a)
    as Hne.
  { intros A l x a Ha. apply list_lookup_insert_ne. intros ->. apply Ha. by left. }
  destruct (forallb _ dm); inv_ok; subst; (split_and!; simpl; [lia|done|]);
    intros a Ha; rewrite ?Hne by done; done.
Qed.

Lemma assign_element_frame g S0 ibd st e st' :
  Rwg0.assign_element g S0 ibd st e = Ok st' → frame [e] st st'.
Proof.
  unfold Rwg0.assign_element. intros H.
  apply bind_Ok in H as ([st1 dm1] & Hloop & Hfin).
  apply (frame_trans _ _ st1); [|by eapply finish_element_frame].
  revert Hloop.
  apply (for_each_inv _ (fun acc : Rwg0.locals * list Z => frame [e] st acc.1)
           _ (st, replicate 3 (int32 (-1))) (st1, dm1)); [apply frame_refl|].
  intros [sa da] i [sb db] _ Hsa Hstep. simpl in *.
  apply (frame_trans _ _ sa); [done|]. by eapply assign_slot_frame.
Qed.

Lemma for_each_frame g S0 ibd (xs : list nat) : ∀ st st',
  for_each (Rwg0.assign_element g S0 ibd) xs st = Ok st' → frame xs st st'.
Proof.
  induction xs as [|x xs IH]; intros st st' H; simpl in H.
  - injection H as <-. apply frame_refl.
  - apply bind_Ok in H as (st1 & Hx & Hrest).
    apply (frame_trans _ _ st1).
    + apply (frame_weaken [x]); [|by eapply assign_element_frame].
      intros y ->%list_elem_of_singleton. by left.
    + apply (frame_weaken xs); [|by apply IH]. intros y Hy. by right.
Qed.

(** The state after the elements up to [a] have been visited. *)
Lemma prefix_state g S0 ibd st done a rest :
  wf_input g S0 →
  Rwg0.assign_dofs g S0 ibd = Ok st →
  flatnonzero S0 = done ++ a :: rest →
  ∃ st2,
    for_each (Rwg0.assign_element g S0 ibd) (done ++ [a]) (Rwg0.initial g) = Ok st2 ∧
    Inv g S0 ibd (done ++ [a]) st2 ∧
    frame rest st2 st ∧
    (∀ e, e ∈ done ++ [a] → (e ≤ a)%nat ∧ S0 !! e = Some true ∧ e ∉ rest).
Proof.
  intros Hwf Hst Hsplit.
  assert (flatnonzero S0 = (done ++ [a]) ++ rest) as Hsplit'.
  { by rewrite Hsplit, <- app_assoc. }
  pose proof (flatnonzero_NoDup S0) as Hnd. rewrite Hsplit' in Hnd.
  assert (∀ e, e ∈ done ++ [a] → e ∈ flatnonzero S0) as Hsub.
  { intros e He. rewrite Hsplit'. apply elem_of_app. by left. }
  destruct (loop_inv g S0 ibd Hwf (done ++ [a]) [] (Rwg0.initial g)) as (st2 & Hrun & HI2).
  - apply initial_inv.
  - simpl. by apply NoDup_app in Hnd as (? & _).
  - apply Forall_forall. intros e He. apply Hsub, flatnonzero_lt in He.
    destruct Hwf as [_ <-]. done.
  - simpl. pose proof (flatnonzero_from_length 0 S0) as Hl. fold (flatnonzero S0) in Hl.
    rewrite Hsplit', length_app in Hl. destruct Hwf as [_ <-]. lia.
  - exists st2. simpl in HI2. split_and!; try done.
    + unfold Rwg0.assign_dofs in Hst. rewrite Hsplit', for_each_app, Hrun, ok_bind in Hst.
      by eapply for_each_frame.
    + intros e He. split_and!.
      * apply elem_of_app in He as [He|He].
        -- unfold flatnonzero in Hsplit.
           pose proof (flatnonzero_from_split _ _ _ _ _ Hsplit e He). lia.
        -- apply list_elem_of_singleton in He as ->. done.
      * by apply elem_of_flatnonzero, Hsub.
      * apply NoDup_app in Hnd as (_ & Hdis & _). by apply Hdis.
Qed.

(** X8.  DOFs are numbered in the order in which the elements introduce them:
    if element [a] carries DOF [d], and DOF [d'] is carried only by
    elements after [a], then [d < d']. *)
Theorem dofs_numbered_in_visiting_order (g : Grid) (S0 : list bool) (ibd : bool) :
  wf_input g S0 →
  ∃ st s',
    assigned g S0 ibd st s' ∧
    ∀ a d d',
      carries st s' a d →
      (∃ b, carries st s' b d') →
      (∀ e, carries st s' e d' → (a < e)%nat) →
      d < d'.
Proof.
  intros Hwf.
  destruct (assigned_total g S0 ibd Hwf) as (st & s' & Has & HI & Hlen & Hlook).
  exists st, s'. split; [done|].
  intros a d d' (Ha & i & m & Hd & Hm & Hnz) (b & Hb & j & mb & Hd' & Hmb & Hnzb) Hlater.
  assert (S0 !! a = Some true) as HaS by (by apply Hlook in Ha as [? _]).
  destruct (list_elem_of_split (flatnonzero S0) a) as (done & rest & Hsplit).
  { by apply elem_of_flatnonzero. }
  destruct (prefix_state _ _ _ _ _ _ _ Hwf (proj1 Has) Hsplit)
    as (st2 & Hrun & HI2 & (Hcount & Hedges & Hrows) & Hpre).
  assert (a ∈ done ++ [a]) as Hain by (apply elem_of_app; right; by left).
  (* [d] was allocated by the time [a] was finished *)
  assert (d < Rwg0.count st2) as Hlt.
  { destruct (Hrows a) as [Hlm Hl2g]; [by apply Hpre|].
    apply getitem2_Ok in Hd as (row & Hrow & Hd).
    apply getitem2_Ok in Hm as (mrow & Hmrow & Hm).
    rewrite Hlm in Hmrow. rewrite Hl2g in Hrow.
    destruct (inv_done _ _ _ _ _ HI2 a Hain) as (ms & ds & Hms & Hds & Hslots & Hcase).
    destruct Hcase as [(_ & _ & Hz & _)|(f & df & Hf & Hdf & _ & Hmsr & Hrowr)].
    - assert (mrow = [0; 0; 0]) as -> by congruence.
      destruct i as [|[|[|i]]]; simplify_eq/=.
    - assert (row = alias_row ms ds df) as -> by congruence.
      assert (length ms = length ds) as Hlen2 by lia.
      pose proof (alias_row_range _ _ _ _ _ _ _ _ _ _ _ Hslots Hlen2 Hf Hdf Hd). lia. }
  (* [d'] was not *)
  assert (0 ≤ d') as Hd'0.
  { destruct (kept_rows _ _ _ _ _ _ HI Hlook Hb)
      as (ms & ds & f & df & Hms & Hds & Hslots & Hf & Hdf & _ & Hrowr).
    apply getitem2_Ok in Hd' as (row & Hrow & Hd').
    assert (row = alias_row ms ds df) as -> by congruence.
    assert (length ms = length ds) as Hlen2 by lia.
    pose proof (alias_row_range _ _ _ _ _ _ _ _ _ _ _ Hslots Hlen2 Hf Hdf Hd'). lia. }
  destruct (decide (d' < Rwg0.count st2)) as [Hd'lt|]; [exfalso|lia].
  assert (d' ∈ seqZ 0 (Rwg0.count st2)) as Hin by (apply elem_of_seqZ; lia).
  rewrite <- (inv_perm _ _ _ _ _ HI2) in Hin.
  assert (∃ e, (e ≤ a)%nat ∧ carries st s' e d') as (e & Hea & Hcar).
  { apply elem_of_app in Hin as [Hin|Hin].
    - apply list_elem_of_filter in Hin as [Hne Hin].
      apply list_elem_of_lookup in Hin as [k Hk].
      destruct (for_each_interior _ _ _ _ _ Hrun k d' Hk Hne)
        as (e & ie & nbrs & other & He & Hie & Htopo & Ho).
      destruct (Hpre e He) as (Hle & HeS & _).
      exists e. split; [done|].
      eapply edge_carrier; try done. by apply Hedges.
    - unfold boundary_ids in Hin.
      destruct (bool_cases ibd) as [Hibd|Hibd]; rewrite Hibd in Hin;
        [|by apply elem_of_nil in Hin].
      apply list_elem_of_bind in Hin as (e & Hin & He).
      destruct (Hpre e He) as (Hle & HeS & Hnr).
      exists e. split; [done|].
      eapply boundary_carrier; try done.
      unfold boundary_ids_of in Hin |- *.
      destruct (Hrows e Hnr) as [_ ->]. done. }
  specialize (Hlater e Hcar). lia.
Qed.

Lemma dofs_numbered_in_visiting_order_witness :
  ∃ st s',
    assigned two_triangles [true; true] true st s' ∧
    ∀ a d d',
      carries st s' a d →
      (∃ b, carries st s' b d') →
      (∀ e, carries st s' e d' → (a < e)%nat) →
      d < d'.
Proof.
  apply (dofs_numbered_in_visiting_order two_triangles [true; true] true).
  refine (bool_decide_unpack _ _). vm_compute. exact I.
Defined.

(** * The sparsity pattern of the assembled matrix *)

Lemma bind_all_nil {A B : Type} (f : A -> list B) (l : list A) :
  (∀ x, x ∈ l → f x = []) → l ≫= f = [].
Proof.
  induction l as [|x l IH]; intros Hf; [done|].
  rewrite bind_cons, (Hf x) by (by left). apply IH. intros y Hy. apply Hf. by right.
Qed.

(** X16.  The sparsity pattern: entry [(r, c)] of the assembled matrix
    has no stored triplet, and reads as zero, unless some element common
    to both supports has a test slot with global id [r] and a trial slot
    with global id [c].  This holds of every matrix that [assemble]
    returns, on whatever device, and [assemble] does return one when an
    element lies in both supports, no device buffer is empty and the
    device carries out every call. *)
Theorem sparsity_pattern {T : Type} (Tzero : T) (Tadd : T -> T -> T)
    (regular_rule : nat -> nat) (kernel : nat -> nat -> nat -> T)
    (Tscale : T -> Z -> T) (sort_indices : list (Z * Z * T) -> list (Z * Z * T))
    (domain dual_to_range : Space)
    (parameters : Parameters) (od : OperatorDescriptor)
    (device : Device) (log : list device_call) :
  csr_order sort_indices →
  wf_space domain → wf_space dual_to_range → grid domain = grid dual_to_range →
  (accepts_every_call device →
   buffers_nonempty (regular_rule (quadrature_regular parameters))
     (localised_space domain) (localised_space dual_to_range) →
   (∃ e, support domain !! e = Some true ∧ support dual_to_range !! e = Some true) →
   ∃ M log',
     assemble regular_rule kernel Tscale Tadd sort_indices domain dual_to_range
       parameters od device log
     = (Ok M, log ++ log')) ∧
  ∀ M log1,
    assemble regular_rule kernel Tscale Tadd sort_indices domain dual_to_range
      parameters od device log
    = (Ok M, log1) →
    ∀ r c,
      (∀ e i j,
         e ∈ flatnonzero (zip_with andb (support domain) (support dual_to_range)) →
         entry2 (local2global dual_to_range) e i = Some r →
         entry2 (local2global domain) e j = Some c → False) →
      filter (fun t => fst (fst t) = r ∧ snd (fst t) = c) (triplets M) = [] ∧
      matrix_entry Tzero Tadd M r c = Tzero.
Proof.
  intros Hsort HwD HwR Hgrid.
  destruct (assemble_run regular_rule kernel Tscale Tadd sort_indices domain
              dual_to_range parameters od device log HwD HwR Hgrid)
    as (Hok & Hinv & Hslot).
  split.
  - intros Hdev Hbuf Hcommon. apply common_elements_nonempty in Hcommon.
    destruct (Hok Hdev Hbuf Hcommon) as (log' & Hrun). by eexists _, log'.
  - intros M log1 HM r c Hnone.
    destruct (Hinv M log1 HM) as (_ & _ & ->).
    assert (length (support domain) = length (support dual_to_range)) as Hlen.
    { destruct HwD as (_ & _ & -> & _), HwR as (_ & _ & -> & _). by rewrite Hgrid. }
    rewrite (common_elements_flatnonzero _ _ Hlen) in Hnone.
    assert (filter (fun t : Z * Z * T => fst (fst t) = r ∧ snd (fst t) = c)
              (triplets (tocsr Tadd sort_indices
                 {| shape := (global_dof_count dual_to_range, global_dof_count domain);
                    triplets :=
                      slot_triplet kernel Tscale domain dual_to_range <$>
                      block_index
                        (common_elements (support domain) (support dual_to_range))
                        (ls_number_of_shape_functions (localised_space dual_to_range))
                        (ls_number_of_shape_functions (localised_space domain)) |}))
            = []) as Hempty.
    { apply tocsr_no_triplet; [done|]. cbn [triplets].
      rewrite <- (list_fmap_id (filter _ _)).
      rewrite (filter_fmap_bind _ (slot_triplet kernel Tscale domain dual_to_range) id).
      apply bind_all_nil. intros [[e i] j] Hx.
      apply elem_of_block_index in Hx as (He & Hi & Hj).
      destruct (Hslot e i j He Hi Hj)
        as (r' & c' & mt & md & Hr & Hc & _ & _ & _ & _ & Htrip).
      rewrite Htrip. cbn [fst snd]. apply decide_False. intros [-> ->].
      by eapply Hnone. }
    split; [exact Hempty|]. unfold matrix_entry. by rewrite Hempty.
Qed.

Lemma sparsity_pattern_witness :
  ∃ M log',
    assemble (fun _ => 3%nat) (fun e i j => Z.of_nat (100 * e + 10 * i + j)) Z.mul
      Z.add sort_by_position
      two_triangles_boundary two_triangles_interior
      (Build_Parameters 4 false) (Build_OperatorDescriptor "maxwell_identity" ∅)
      ready_device []
      = (Ok M, [] ++ log') ∧
    ∀ r c,
      (∀ e i j,
         e ∈ flatnonzero (zip_with andb (support two_triangles_boundary)
                            (support two_triangles_interior)) →
         entry2 (local2global two_triangles_interior) e i = Some r →
         entry2 (local2global two_triangles_boundary) e j = Some c → False) →
      filter (fun t => fst (fst t) = r ∧ snd (fst t) = c) (triplets M) = [] ∧
      matrix_entry 0 Z.add M r c = 0.
Proof.
  destruct (sparsity_pattern 0 Z.add (fun _ => 3%nat)
              (fun e i j => Z.of_nat (100 * e + 10 * i + j)) Z.mul sort_by_position
              two_triangles_boundary two_triangles_interior
              (Build_Parameters 4 false)
              (Build_OperatorDescriptor "maxwell_identity" ∅) ready_device [])
    as [Hrun Hpattern].
  - apply sort_by_position_order.
  - refine (bool_decide_unpack _ _). vm_compute. exact I.
  - refine (bool_decide_unpack _ _). vm_compute. exact I.
  - reflexivity.
  - destruct Hrun as (M & log' & HM).
    + intros log c. reflexivity.
    + refine (bool_decide_unpack _ _). vm_compute. exact I.
    + exists 0%nat. split; reflexivity.
    + exists M, log'. split; [exact HM|]. exact (Hpattern M _ HM).
Defined.
